(** * scrapbox-skill: the patch planner and the patch pipeline of [src/client.ts]

    The development embeds the line-level planner ([splitLines], [buildOps],
    [groupOps], the execution order of [applyOps]), the in-page fast path
    ([tryInternalPatch]) and the [patch] method of [ScrapboxClient], and proves
    the properties the specification states about them.

    Conventions.
    - A JavaScript string is a [string]; the line separator is the character
      of code 10.
    - Indices and counts are natural numbers ([number] values that the code
      only ever obtains from array lengths and sums of them).
    - The [Map<number, OpGroup>] of [groupOps] is a [gmap nat OpGroup].
    - The functions of the [diff] package ([diffLines], [parsePatch],
      [applyPatch]) and every Playwright call are collaborators whose code is
      not part of the sources: they are the members of the classes [LineDiff]
      and [Host], and the theorems hold for every instance of them.  A
      reference line diff and a simulated host are given to run the
      definitions. *)

From Stdlib Require Import ZArith Lia Ascii String.
From stdpp Require Import base option list gmap strings sorting.

Local Open Scope string_scope.
Local Open Scope nat_scope.
Local Open Scope list_scope.

(** ** Texts and lines *)

(** The line separator ['\n']. *)
Definition LF : ascii := "010"%char.
Definition NL : string := String LF EmptyString.

(** The double quote of the attribute selectors of [findLine]. *)
Definition DQUOTE : ascii := "034"%char.

(** [value.split('\n')]: never empty, the empty text gives one empty piece. *)
Fixpoint split_newline (value : string) : list string :=
  match value with
  | EmptyString => [EmptyString]
  | String c rest =>
      if decide (c = LF) then EmptyString :: split_newline rest
      else match split_newline rest with
           | piece :: pieces => String c piece :: pieces
           | [] => [String c EmptyString]
           end
  end.

(** [lines.join('\n')]. *)
Definition join_newline (lines : list string) : string := String.concat NL lines.

(** [splitLines]: split on the separator and drop one trailing empty piece. *)
Definition splitLines (value : string) : list string :=
  let lines := split_newline value in
  if decide (last lines = Some EmptyString)
  then take (length lines - 1) lines
  else lines.

(** [LineInfo] and the snapshot as the page JSON gives it. *)
Record LineInfo := { id : option string; text : string }.

Record RawLine := { raw_id : option string; raw_text : option string }.

(** The revision marker [pageJson.updated]: absent or a number. *)
Definition RevisionToken := option Z.

(** The page JSON: [updated] and [lines] ([None] when it is not an array). *)
Record PageJson := { updated : RevisionToken; lines : option (list RawLine) }.

Definition extractLines (pageJson : PageJson) : list LineInfo :=
  let lines := default [] (lines pageJson) in
  (fun line => {| id := raw_id line; text := default EmptyString (raw_text line) |}) <$> lines.

Definition linesToText (lines : list LineInfo) : string :=
  join_newline (text <$> lines).

(** ** Operations and groups *)

Inductive PatchOp :=
| Remove (index count : nat)
| Insert (index : nat) (lines : list string).

Definition op_index (op : PatchOp) : nat :=
  match op with Remove index _ => index | Insert index _ => index end.

Record OpGroup := { removeCount : nat; insertLines : list string }.

(** One part of the result of [diffLines]. *)
Record Change := { value : string; added : bool; removed : bool }.

Definition part_lines (part : Change) : list string := splitLines (value part).

(** The body of the loop of [buildOps], on the pair of [index] and [ops]. *)
Definition buildOps_step (st : nat * list PatchOp) (part : Change) : nat * list PatchOp :=
  let lines := part_lines part in
  if added part then
    (st.1, if bool_decide (length lines ≠ 0) then st.2 ++ [Insert st.1 lines] else st.2)
  else if removed part then
    (st.1 + length lines,
     if bool_decide (length lines ≠ 0) then st.2 ++ [Remove st.1 (length lines)] else st.2)
  else (st.1 + length lines, st.2).

Definition buildOps_from (changes : list Change) : list PatchOp :=
  (foldl buildOps_step (0, []) changes).2.

(** The body of the loop of [groupOps]. *)
Definition groupOps_step (groups : gmap nat OpGroup) (op : PatchOp) : gmap nat OpGroup :=
  let group := default {| removeCount := 0; insertLines := [] |} (groups !! op_index op) in
  let group :=
    match op with
    | Remove _ count =>
        {| removeCount := removeCount group + count; insertLines := insertLines group |}
    | Insert _ lines =>
        {| removeCount := removeCount group; insertLines := insertLines group ++ lines |}
    end in
  <[op_index op := group]> groups.

Definition groupOps (ops : list PatchOp) : gmap nat OpGroup :=
  foldl groupOps_step ∅ ops.

(** [[...groups.keys()].sort((a, b) => b - a)]. *)
Definition descending (a b : nat) : Prop := b ≤ a.

#[global] Instance descending_dec : RelDecision descending :=
  fun a b => decide (b ≤ a).

Definition sorted_indices (groups : gmap nat OpGroup) : list nat :=
  merge_sort descending (map_to_list groups).*1.

(** The groups in the order in which the loop of [applyOps] visits them,
    each with its index ([groups.get(index)!]). *)
Definition schedule_of (groups : gmap nat OpGroup) : list (nat * OpGroup) :=
  (fun index => (index, default {| removeCount := 0; insertLines := [] |} (groups !! index)))
    <$> sorted_indices groups.

Definition schedule (ops : list PatchOp) : list (nat * OpGroup) :=
  schedule_of (groupOps ops).

(** ** The in-memory line array *)

(** Modelled from the spec: the simulation of the apply phase on an in-memory
    line array.  The [deleteLines] and [insertLines] of the sources drive a
    browser; here a removal deletes [count] lines at [index], one at a time
    as the loop of [deleteLines] does, and an insertion puts the lines before
    [index]. *)
Definition delete_line (index : nat) (arr : list string) : list string :=
  take index arr ++ drop (S index) arr.

Fixpoint deleteLines_array (index count : nat) (arr : list string) : list string :=
  match count with
  | 0 => arr
  | S count' => deleteLines_array index count' (delete_line index arr)
  end.

Definition insertLines_array (index : nat) (lines arr : list string) : list string :=
  take index arr ++ lines ++ drop index arr.

(** One round of the loop of [applyOps] on the array. *)
Definition applyGroup_array (index : nat) (group : OpGroup) (arr : list string) : list string :=
  let arr :=
    if bool_decide (0 < removeCount group)
    then deleteLines_array index (removeCount group) arr else arr in
  if bool_decide (0 < length (insertLines group))
  then insertLines_array index (insertLines group) arr else arr.

Definition run_schedule (sched : list (nat * OpGroup)) (arr : list string) : list string :=
  foldl (fun arr entry => applyGroup_array entry.1 entry.2 arr) arr sched.

Definition applyOps_array (ops : list PatchOp) (arr : list string) : list string :=
  run_schedule (schedule ops) arr.

(** One operation alone on the array. *)
Definition applyOp_array (op : PatchOp) (arr : list string) : list string :=
  match op with
  | Remove index count => deleteLines_array index count arr
  | Insert index lines => insertLines_array index lines arr
  end.

(** ** The planner: [buildOps] *)

(** The line diff of the [diff] package, a collaborator of [buildOps]. *)
Class LineDiff := diffLines : string → string → list Change.

Definition buildOps `{LineDiff} (originalText newText : string) : list PatchOp :=
  buildOps_from (diffLines originalText newText).

(** What a line diff owes its caller, read on lines: the parts that are not
    added make up the original lines, the parts that are added or not removed
    make up the new ones.  [buildOps] tests [added] first, so a part counts
    as removed only when it is not added. *)
Definition old_lines (changes : list Change) : list string :=
  flat_map (fun part => if added part then [] else part_lines part) changes.

Definition new_lines (changes : list Change) : list string :=
  flat_map (fun part =>
    if added part then part_lines part
    else if removed part then [] else part_lines part) changes.

Definition line_script (originalText newText : string) (changes : list Change) : Prop :=
  old_lines changes = splitLines originalText ∧ new_lines changes = splitLines newText.

Definition unchanged (part : Change) : Prop := added part = false ∧ removed part = false.

(** The recursive reading of the loop of [buildOps] from a given [index]. *)
Fixpoint plan (changes : list Change) (index : nat) : list PatchOp :=
  match changes with
  | [] => []
  | part :: rest =>
      let lines := part_lines part in
      if added part then
        (if bool_decide (length lines ≠ 0) then [Insert index lines] else [])
          ++ plan rest index
      else if removed part then
        (if bool_decide (length lines ≠ 0) then [Remove index (length lines)] else [])
          ++ plan rest (index + length lines)
      else plan rest (index + length lines)
  end.

(** The operations a planner can emit from cursor [lo], the cursor ending at
    [hi]: indices never decrease, and a removal moves the cursor past the
    lines it removes. *)
Fixpoint ops_between (lo : nat) (ops : list PatchOp) (hi : nat) : Prop :=
  match ops with
  | [] => lo ≤ hi
  | Remove index count :: rest => lo ≤ index ∧ 0 < count ∧ ops_between (index + count) rest hi
  | Insert index lines :: rest => lo ≤ index ∧ 0 < length lines ∧ ops_between index rest hi
  end.

(** The bound that the last operation of a list puts on the ones before. *)
Definition op_fits (op : PatchOp) (hi : nat) : Prop :=
  match op with
  | Remove index count => 0 < count ∧ index + count ≤ hi
  | Insert index lines => 0 < length lines ∧ index ≤ hi
  end.

(** What [groupOps] is meant to hold at [index]: the counts of the removals
    there summed, the lines of the insertions there in discovery order. *)
Definition removals_at (index : nat) (ops : list PatchOp) : nat :=
  sum_list_with (fun op =>
    match op with
    | Remove i count => if bool_decide (i = index) then count else 0
    | Insert _ _ => 0
    end) ops.

Definition insertions_at (index : nat) (ops : list PatchOp) : list string :=
  flat_map (fun op =>
    match op with
    | Insert i lines => if bool_decide (i = index) then lines else []
    | Remove _ _ => []
    end) ops.

Definition merged_at (index : nat) (ops : list PatchOp) : option OpGroup :=
  if bool_decide (Exists (fun op => op_index op = index) ops)
  then Some {| removeCount := removals_at index ops; insertLines := insertions_at index ops |}
  else None.

(** ** The host: browser, page script and HTTP *)

(** A Playwright locator, as [findLine] and [focusLine] build them. *)
Inductive Locator :=
| Css (selector : string)
| CssHasText (selector hasText : string)
| LocFirst (loc : Locator)
| LocNth (loc : Locator) (n : nat)
| LocInner (loc : Locator) (selector : string).

(** Every call [patch] can make on the outside world.  [ProbeBridge] to
    [WaitForSave] run inside [page.evaluate]: the test of the three methods
    of [window.scrapbox.Page], the read of [Page.lines] and the calls of
    [updateLine], [insertLine] and [waitForSave]. *)
Inductive Call :=
| HttpGet (url : string)
| NewPage
| Goto (url : string)
| WaitForSelector (selector : string)
| WaitForTimeout (ms : Z)
| ClickSelector (selector : string)
| ClosePage
| ProbeBridge
| PageLines
| UpdateLine (text : string) (index : nat)
| InsertLine (text : string) (index : nat)
| WaitForSave
| LocatorCount (loc : Locator)
| ScrollIntoView (loc : Locator)
| ClickLocator (loc : Locator)
| Press (key : string)
| InsertText (text : string).

(** The message of an exception raised by a collaborator. *)
Definition ExtError := string.

Inductive Outcome (X : Type) :=
| Returned (x : X)
| Raised (e : ExtError).
Arguments Returned {X} x.
Arguments Raised {X} e.

(** The answer to [ctx.request.get]: [ok()], [status()], [statusText()] and
    what [json()] gives. *)
Record HttpResponse := {
  res_ok : bool;
  res_status : nat;
  res_statusText : string;
  res_json : Outcome PageJson
}.

(** What each call answers when it does not raise. *)
Definition Resp (c : Call) : Type :=
  match c with
  | HttpGet _ => HttpResponse
  | ProbeBridge => bool
  | PageLines => list string
  | LocatorCount _ => nat
  | _ => unit
  end.

(** The calls that change the text of the live document: the two mutators of
    the page script, keys and typed text. *)
Definition mutating (c : Call) : bool :=
  match c with
  | UpdateLine _ _ | InsertLine _ _ | Press _ | InsertText _ => true
  | _ => false
  end.

(** The calls that only read the document over HTTP. *)
Definition is_read (c : Call) : bool :=
  match c with HttpGet _ => true | _ => false end.

(** The collaborators of [patch]: the [diff] package, URL encoding, the
    platform, and a world that answers every call and moves on. *)
Class Host := {
  ParsedPatch : Type;
  parsePatch : string → Outcome (list ParsedPatch);
  applyPatch : string → ParsedPatch → Z → Outcome (option string);
  host_diff :: LineDiff;
  encodeURIComponent : string → string;
  urlToString : string → string;
  isMac : bool;
  World : Type;
  respond : ∀ c : Call, World → Outcome (Resp c) * World
}.

(** The errors [patch] can end with. *)
Inductive Error :=
| ClientNotInitialized
| RequestFailed (status : nat) (statusText : string)
| NoPatchFound
| PatchApplyFailed
| UpdatedMismatch
| VerificationFailed
| LineNotFound (index : nat)
| External (e : ExtError).

Inductive Result (A : Type) :=
| Ok (a : A)
| Thrown (e : Error).
Arguments Ok {A} a.
Arguments Thrown {A} e.

Record PatchOptions := {
  fuzz : option Z;
  checkUpdated : option bool;
  waitMs : option Z;
  debug : option bool;
  dryRun : option bool
}.

Definition truthy (flag : option bool) : bool := default false flag.

(** The fields of [ScrapboxClient] that [patch] reads; [context] tells whether
    [this.context] is set. *)
Record Client := { host : string; project : string; context : bool }.

Section Programs.
Context `{Host}.

(** The state of a run: the world and the calls made so far. *)
Record Run := { world : World; trace : list Call }.

Definition Prog (A : Type) : Type := Run → Result A * Run.

Definition ret {A} (a : A) : Prog A := fun s => (Ok a, s).

Definition throw {A} (e : Error) : Prog A := fun s => (Thrown e, s).

Definition bind {A B} (m : Prog A) (k : A → Prog B) : Prog B :=
  fun s => match m s with
           | (Ok a, s') => k a s'
           | (Thrown e, s') => (Thrown e, s')
           end.

Definition try_catch {A} (m : Prog A) (handler : Error → Prog A) : Prog A :=
  fun s => match m s with
           | (Ok a, s') => (Ok a, s')
           | (Thrown e, s') => handler e s'
           end.

Definition lift {A} (o : Outcome A) : Prog A :=
  match o with Returned a => ret a | Raised e => throw (External e) end.

Definition call (c : Call) : Prog (Resp c) :=
  fun s => let r := respond c (world s) in
           let s' := {| world := r.2; trace := trace s ++ [c] |} in
           match r.1 with
           | Returned x => (Ok x, s')
           | Raised e => (Thrown (External e), s')
           end.

Definition perform (c : Call) : Prog unit := bind (call c) (fun _ => ret tt).

Fixpoint for_each {A} (items : list A) (body : A → Prog unit) : Prog unit :=
  match items with
  | [] => ret tt
  | item :: rest => bind (body item) (fun _ => for_each rest body)
  end.

Definition when (cond : bool) (m : Prog unit) : Prog unit :=
  if cond then m else ret tt.

(** A program that only adds calls to the trace. *)
Definition grows {A} (m : Prog A) : Prop :=
  ∀ s, trace s `prefix_of` trace (m s).2.


End Programs.

Declare Scope prog_scope.
Delimit Scope prog_scope with prog.
Notation "x <- m ;; k" := (bind m (fun x => k))
  (at level 100, m at next level, k at level 200, right associativity) : prog_scope.
Notation "m ;; k" := (bind m (fun _ => k))
  (at level 100, k at level 200, right associativity) : prog_scope.

(** ** The pipeline of [patch] *)

Section Pipeline.
Context `{Host}.
Local Open Scope prog_scope.

Definition getContext (this : Client) : Prog unit :=
  if context this then ret tt else throw ClientNotInitialized.

Definition encodePathSegment (s : string) : string := encodeURIComponent s.

Definition apiUrl (this : Client) (pageTitle : string) : string :=
  host this +:+ "/api/pages/" +:+ encodePathSegment (project this) +:+ "/"
    +:+ encodePathSegment pageTitle.

Definition pageUrl (this : Client) (pageTitle : string) : string :=
  urlToString (host this +:+ "/" +:+ encodePathSegment (project this) +:+ "/"
    +:+ encodePathSegment pageTitle).

Definition readJson (this : Client) (pageTitle : string) : Prog PageJson :=
  getContext this ;;
  res <- call (HttpGet (apiUrl this pageTitle)) ;;
  if negb (res_ok res) then throw (RequestFailed (res_status res) (res_statusText res))
  else lift (res_json res).

Definition parseFirstPatch (diffText : string) : Prog ParsedPatch :=
  patches <- lift (parsePatch diffText) ;;
  match patches with
  | [] => throw NoPatchFound
  | first :: _ => ret first
  end.

(** *** The slow path *)

Definition selectAll : Prog unit :=
  perform (Press (if isMac then "Meta+A" else "Control+A")).

Definition moveToStart : Prog unit :=
  perform (Press (if isMac then "Meta+ArrowLeft" else "Home")).

Definition moveToEnd : Prog unit :=
  perform (Press (if isMac then "Meta+ArrowRight" else "End")).

(** The loop of [findLine] over the selectors built from a line id. *)
Fixpoint find_by_selectors (selectors : list string) (otherwise : Prog Locator) : Prog Locator :=
  match selectors with
  | [] => otherwise
  | selector :: rest =>
      n <- call (LocatorCount (Css selector)) ;;
      if bool_decide (0 < n) then ret (LocFirst (Css selector))
      else find_by_selectors rest otherwise
  end.

Definition id_selectors (line_id : string) : list string :=
  let quoted := String DQUOTE EmptyString +:+ line_id +:+ String DQUOTE EmptyString in
  let quotedL := String DQUOTE EmptyString +:+ "L" +:+ line_id +:+ String DQUOTE EmptyString in
  [ "#editor #L" +:+ line_id;
    "#editor [id=" +:+ quotedL +:+ "]";
    "[data-line-id=" +:+ quoted +:+ "]";
    "[data-id=" +:+ quoted +:+ "]";
    "[data-lineid=" +:+ quoted +:+ "]" ].

Definition findLine (info : option LineInfo) (index : nat) : Prog Locator :=
  let selectors :=
    match info with
    | Some {| id := Some line_id |} =>
        if bool_decide (line_id ≠ EmptyString) then id_selectors line_id else []
    | _ => []
    end in
  find_by_selectors selectors (
    let byIndex := LocNth (Css "#editor .line") index in
    n <- call (LocatorCount byIndex) ;;
    if bool_decide (0 < n) then ret byIndex
    else
      match info with
      | Some {| text := String c rest |} =>
          let byText := CssHasText "#editor .line" (String c rest) in
          m <- call (LocatorCount byText) ;;
          if bool_decide (0 < m) then ret (LocFirst byText)
          else throw (LineNotFound index)
      | _ => throw (LineNotFound index)
      end).

Definition focusLine (line : Locator) : Prog unit :=
  let text := LocInner line ".text" in
  n <- call (LocatorCount text) ;;
  if bool_decide (0 < n) then perform (ClickLocator (LocFirst text))
  else perform (ClickLocator line).

Definition deleteLines (index count : nat) (lines : list LineInfo) : Prog unit :=
  for_each (seq 0 count) (fun i =>
    let lineInfo := lines !! (index + i) in
    line <- findLine lineInfo index ;;
    perform (ScrollIntoView line) ;;
    focusLine line ;;
    selectAll ;;
    perform (Press "Backspace") ;;
    perform (Press "Backspace") ;;
    perform (WaitForTimeout 30)).

Definition insertLines_page (index : nat) (insertLines : list string)
    (lines : list LineInfo) (removedCount : nat) : Prog unit :=
  if bool_decide (length insertLines = 0) then ret tt
  else
    let general :=
      let anchorIndex := 0 `max` (index - 1) in
      let anchorInfo := lines !! anchorIndex in
      anchor <- findLine anchorInfo anchorIndex ;;
      perform (ScrollIntoView anchor) ;;
      focusLine anchor ;;
      moveToEnd ;;
      perform (Press "Enter") ;;
      perform (InsertText (join_newline insertLines)) ;;
      perform (WaitForTimeout 30) in
    if bool_decide (index = 0) then
      let anchorIndex := (index + removedCount) `min` (length lines - 1) in
      match (if bool_decide (length lines = 0) then None else lines !! anchorIndex) with
      | Some anchorInfo =>
          anchor <- findLine (Some anchorInfo) anchorIndex ;;
          perform (ScrollIntoView anchor) ;;
          focusLine anchor ;;
          moveToStart ;;
          perform (Press "Enter") ;;
          perform (InsertText (join_newline insertLines)) ;;
          perform (WaitForTimeout 30)
      | None => general
      end
    else general.

Definition applyOps (ops : list PatchOp) (lines : list LineInfo) : Prog unit :=
  for_each (schedule ops) (fun entry =>
    let index := entry.1 in
    let group := entry.2 in
    when (bool_decide (0 < removeCount group))
      (deleteLines index (removeCount group) lines) ;;
    when (bool_decide (0 < length (insertLines group)))
      (insertLines_page index (insertLines group) lines (removeCount group))).

(** *** The fast path *)

(** The calls of [updateLine] and [insertLine] that the page script makes,
    in order, from the line texts it read and the target lines: the loop over
    the common range, then the loop that appends or the loop that blanks. *)
Definition internalPatch_calls (current lines : list string) : list Call :=
  let oldLen := length current in
  let newLen := length lines in
  let min := oldLen `min` newLen in
  flat_map (fun i =>
      if bool_decide (lines !! i ≠ current !! i)
      then [UpdateLine (default EmptyString (lines !! i)) i] else [])
    (seq 0 min)
  ++ (if bool_decide (oldLen < newLen) then
        (fun i => InsertLine (default EmptyString (lines !! i)) i) <$> seq oldLen (newLen - oldLen)
      else if bool_decide (newLen < oldLen) then
        (fun i => UpdateLine EmptyString i) <$> reverse (seq newLen (oldLen - newLen))
      else []).

Definition internalPatch_script (lines : list string) : Prog bool :=
  available <- call ProbeBridge ;;
  if negb available then ret false
  else
    current <- call PageLines ;;
    for_each (internalPatch_calls current lines) perform ;;
    perform WaitForSave ;;
    ret true.

Definition tryInternalPatch (newLines : list string) : Prog bool :=
  try_catch (result <- internalPatch_script newLines ;; ret result)
            (fun _ => ret false).

(** *** [ScrapboxClient.patch] *)

Definition patch (this : Client) (pageTitle diffText : string) (opts : PatchOptions)
    : Prog (option string) :=
  pageJson <- readJson this pageTitle ;;
  let baseUpdated := updated pageJson in
  let lines := extractLines pageJson in
  let originalText := linesToText lines in
  patch_ <- parseFirstPatch diffText ;;
  applied <- lift (applyPatch originalText patch_ (default 0%Z (fuzz opts))) ;;
  match applied with
  | None => throw PatchApplyFailed
  | Some newText =>
      if truthy (dryRun opts) then ret (Some newText)
      else
        when (truthy (checkUpdated opts))
          (latest <- readJson this pageTitle ;;
           if bool_decide (updated latest ≠ baseUpdated) then throw UpdatedMismatch
           else ret tt) ;;
        let ops := buildOps originalText newText in
        if bool_decide (length ops = 0) then ret None
        else
          getContext this ;;
          perform NewPage ;;
          perform (Goto (pageUrl this pageTitle)) ;;
          perform (WaitForSelector "#editor .line") ;;
          when (match waitMs opts with Some ms => bool_decide (0 < ms)%Z | None => false end)
            (perform (WaitForTimeout (default 0%Z (waitMs opts)))) ;;
          let newLines := splitLines newText in
          internal <- tryInternalPatch newLines ;;
          when (negb internal)
            (perform (ClickSelector "#editor") ;; applyOps ops lines) ;;
          perform ClosePage ;;
          after <- readJson this pageTitle ;;
          let afterText := linesToText (extractLines after) in
          if bool_decide (afterText ≠ newText) then throw VerificationFailed
          else ret None
  end.

(** Three blocks of [patch] under names of their own, for the statements
    about what follows the fast path: the opening of the page, the slow path
    and the end of [patch]. *)
Definition openPage (this : Client) (pageTitle : string) (opts : PatchOptions) : Prog unit :=
  perform NewPage ;;
  perform (Goto (pageUrl this pageTitle)) ;;
  perform (WaitForSelector "#editor .line") ;;
  when (match waitMs opts with Some ms => bool_decide (0 < ms)%Z | None => false end)
    (perform (WaitForTimeout (default 0%Z (waitMs opts)))).

Definition slowPath (ops : list PatchOp) (lines : list LineInfo) : Prog unit :=
  perform (ClickSelector "#editor") ;; applyOps ops lines.

Definition closeAndVerify (this : Client) (pageTitle newText : string) : Prog (option string) :=
  perform ClosePage ;;
  after <- readJson this pageTitle ;;
  let afterText := linesToText (extractLines after) in
  if bool_decide (afterText ≠ newText) then throw VerificationFailed
  else ret None.

(** The second read of [patch] and the comparison of the revision markers. *)
Definition recheckUpdated (this : Client) (pageTitle : string) (baseUpdated : RevisionToken)
    : Prog unit :=
  latest <- readJson this pageTitle ;;
  if bool_decide (updated latest ≠ baseUpdated) then throw UpdatedMismatch
  else ret tt.

End Pipeline.

(** ** A reference line diff *)

(** Modelled from the spec: [diffLines] belongs to the [diff] package, which
    is not part of the sources.  The specification asks for a line-granular
    alignment, longest-common-subsequence style, giving runs tagged unchanged,
    added or removed.  The reference below cuts both texts into lines that keep
    their separator, aligns them by a shortest edit script that removes before
    it adds, and merges neighbouring edits of one kind into one part.  Equal
    texts give one unchanged part. *)
Fixpoint tokenize (value : string) : list string :=
  match value with
  | EmptyString => []
  | String c rest =>
      if decide (c = LF) then String c EmptyString :: tokenize rest
      else match tokenize rest with
           | token :: tokens => String c token :: tokens
           | [] => [String c EmptyString]
           end
  end.

Inductive Edit :=
| Keep (token : string)
| Del (token : string)
| Ins (token : string).

Definition edit_cost (script : list Edit) : nat :=
  sum_list ((fun e => match e with Keep _ => 0 | _ => 1 end) <$> script).

Fixpoint edit_script (old new : list string) {struct old} : list Edit :=
  match old with
  | [] => Ins <$> new
  | x :: old' =>
      (fix against (new : list string) : list Edit :=
         match new with
         | [] => Del <$> (x :: old')
         | y :: new' =>
             if decide (x = y) then Keep x :: edit_script old' new'
             else
               let del := Del x :: edit_script old' (y :: new') in
               let ins := Ins y :: against new' in
               if decide (edit_cost del ≤ edit_cost ins) then del else ins
         end) new
  end.

(** The part that one edit alone makes. *)
Definition edit_part (e : Edit) : Change :=
  match e with
  | Keep t => {| value := t; added := false; removed := false |}
  | Del t => {| value := t; added := false; removed := true |}
  | Ins t => {| value := t; added := true; removed := false |}
  end.

(** Two parts of one kind: both unchanged, both removed or both added. *)
Definition same_kind (p q : Change) : Prop :=
  added p = added q ∧ removed p = removed q.

Definition push_edit (e : Edit) (parts : list Change) : list Change :=
  let part := edit_part e in
  match parts with
  | next :: rest =>
      if bool_decide (added part = added next ∧ removed part = removed next)
      then {| value := value part +:+ value next; added := added part; removed := removed part |}
             :: rest
      else part :: parts
  | [] => [part]
  end.

Definition components (script : list Edit) : list Change :=
  foldr push_edit [] script.

Definition diffLines_ref : LineDiff := fun oldStr newStr =>
  let old := tokenize oldStr in
  let new := tokenize newStr in
  if decide (old = new)
  then [ {| value := String.concat EmptyString new; added := false; removed := false |} ]
  else components (edit_script old new).

(** *** The vocabulary of the proof that the reference is a line script *)

(** The piece before the first separator. *)
Fixpoint first_piece (token : string) : string :=
  match token with
  | EmptyString => EmptyString
  | String c rest => if decide (c = LF) then EmptyString else String c (first_piece rest)
  end.

(** A token that ends with its one separator. *)
Fixpoint terminated (token : string) : Prop :=
  match token with
  | EmptyString => False
  | String c rest => if decide (c = LF) then rest = EmptyString else terminated rest
  end.

(** Only the last token of a text may lack its separator. *)
Fixpoint all_but_last_terminated (tokens : list string) : Prop :=
  match tokens with
  | [] => True
  | token :: rest =>
      match rest with
      | [] => True
      | _ => terminated token ∧ all_but_last_terminated rest
      end
  end.

(** The tokens of the original and of the new text in an edit script. *)
Fixpoint old_side (script : list Edit) : list string :=
  match script with
  | [] => []
  | Keep t :: rest | Del t :: rest => t :: old_side rest
  | Ins _ :: rest => old_side rest
  end.

Fixpoint new_side (script : list Edit) : list string :=
  match script with
  | [] => []
  | Keep t :: rest | Ins t :: rest => t :: new_side rest
  | Del _ :: rest => new_side rest
  end.

(** The trailing empty piece dropped, as [splitLines] does. *)
Definition trim_last (pieces : list string) : list string :=
  if decide (last pieces = Some EmptyString)
  then take (length pieces - 1) pieces
  else pieces.

(** An edit merged into the part behind it is not the last of its side. *)
Definition mergeable (e : Edit) (script : list Edit) : Prop :=
  match e with
  | Keep _ | Del _ => old_side script ≠ []
  | Ins _ => new_side script ≠ []
  end.

(** The token of an edit. *)
Definition edit_token (e : Edit) : string :=
  match e with Keep t | Del t | Ins t => t end.

(** ** The bridge on the document *)

(** Modelled from the spec: what a call of the structured bridge does to the
    line texts of the document.  [updateLine(text, index)] sets the text of
    the line at the index, [insertLine(text, index)] puts a line at the index;
    the host that has these methods is not part of the sources. *)
Definition bridge_effect (c : Call) (doc : list string) : list string :=
  match c with
  | UpdateLine text index => <[index := text]> doc
  | InsertLine text index => take index doc ++ [text] ++ drop index doc
  | _ => doc
  end.

Definition run_bridge (calls : list Call) (doc : list string) : list string :=
  foldl (fun doc c => bridge_effect c doc) doc calls.

(** The updates the script makes on the common range. *)
Definition overlap_updates (current lines : list string) (upto : nat) : list Call :=
  flat_map (fun i =>
      if bool_decide (lines !! i ≠ current !! i)
      then [UpdateLine (default EmptyString (lines !! i)) i] else [])
    (seq 0 upto).

(** ** A simulated host *)

(** Modelled from the spec: a host to run [patch] against.  The document is a
    list of line texts with a revision number.  The structured bridge, when
    the host has it, updates the text of the line at an index and inserts a
    line at an index; every mutation moves the revision.  [sim_racing] makes
    another writer move the revision at every read.  Simulated input finds no
    line.  A diff text stands for the text it produces: the package that
    parses and applies unified diffs is not part of the sources. *)
Record Sim := {
  sim_doc : list string;
  sim_rev : Z;
  sim_bridge : bool;
  sim_racing : bool
}.

Definition sim_json (w : Sim) : PageJson :=
  {| updated := Some (sim_rev w);
     lines := Some ((fun t => {| raw_id := None; raw_text := Some t |}) <$> sim_doc w) |}.

Definition sim_respond (c : Call) (w : Sim) : Outcome (Resp c) * Sim :=
  match c return Outcome (Resp c) * Sim with
  | HttpGet _ =>
      (Returned {| res_ok := true; res_status := 200; res_statusText := "OK";
                   res_json := Returned (sim_json w) |},
       if sim_racing w
       then {| sim_doc := sim_doc w; sim_rev := (sim_rev w + 1)%Z;
               sim_bridge := sim_bridge w; sim_racing := sim_racing w |}
       else w)
  | ProbeBridge => (Returned (sim_bridge w), w)
  | PageLines => (Returned (sim_doc w), w)
  | UpdateLine text index =>
      (Returned tt,
       {| sim_doc := bridge_effect (UpdateLine text index) (sim_doc w);
          sim_rev := (sim_rev w + 1)%Z;
          sim_bridge := sim_bridge w; sim_racing := sim_racing w |})
  | InsertLine text index =>
      (Returned tt,
       {| sim_doc := bridge_effect (InsertLine text index) (sim_doc w);
          sim_rev := (sim_rev w + 1)%Z;
          sim_bridge := sim_bridge w; sim_racing := sim_racing w |})
  | LocatorCount _ => (Returned 0, w)
  | NewPage | Goto _ | WaitForSelector _ | WaitForTimeout _ | ClickSelector _
  | ClosePage | WaitForSave | ScrollIntoView _ | ClickLocator _ | Press _
  | InsertText _ => (Returned tt, w)
  end.

Definition sim_host : Host := {|
  ParsedPatch := string;
  parsePatch := fun diffText =>
    Returned (if bool_decide (diffText = EmptyString) then [] else [diffText]);
  applyPatch := fun _ target _ => Returned (Some target);
  host_diff := diffLines_ref;
  encodeURIComponent := fun s => s;
  urlToString := fun s => s;
  isMac := false;
  World := Sim;
  respond := sim_respond
|}.

(** ** Inputs of the examples *)

(** The texts of the examples. *)
Definition text_abc : string := join_newline ["a"; "b"; "c"].
Definition text_axc : string := join_newline ["a"; "x"; "c"].
Definition text_abcd : string := join_newline ["a"; "b"; "c"; "d"].
Definition text_bxde : string := join_newline ["b"; "x"; "d"; "e"; ""].
Definition text_a_blank : string := join_newline ["a"; ""].
Definition text_ab : string := join_newline ["a"; "b"].

Definition sim_client : Client :=
  {| host := "https://scrapbox.io"; project := "demo"; context := true |}.

Definition sim_start (doc : list string) (bridge racing : bool) : @Run sim_host :=
  @Build_Run sim_host
    {| sim_doc := doc; sim_rev := 1%Z; sim_bridge := bridge; sim_racing := racing |} [].

Definition opts_dry_run : PatchOptions :=
  {| fuzz := None; checkUpdated := Some true; waitMs := None; debug := None;
     dryRun := Some true |}.

Definition opts_checked : PatchOptions :=
  {| fuzz := None; checkUpdated := Some true; waitMs := None; debug := None;
     dryRun := None |}.

Definition opts_plain : PatchOptions :=
  {| fuzz := None; checkUpdated := None; waitMs := Some 1500%Z; debug := None;
     dryRun := None |}.

(** ** The vocabulary of the statements about the rest of the code *)

(** Whether a text holds the line separator. *)
Fixpoint has_newline (value : string) : bool :=
  match value with
  | EmptyString => false
  | String c rest => if decide (c = LF) then true else has_newline rest
  end.

(** Whether the last character of a text is the line separator. *)
Fixpoint ends_with_newline (value : string) : bool :=
  match value with
  | EmptyString => false
  | String c EmptyString => bool_decide (c = LF)
  | String _ rest => ends_with_newline rest
  end.

(** The lines that the operations of a list remove and insert in all. *)
Definition removed_total (ops : list PatchOp) : nat :=
  sum_list_with (fun op => match op with Remove _ count => count | Insert _ _ => 0 end) ops.

Definition inserted_all (ops : list PatchOp) : list string :=
  flat_map (fun op => match op with Insert _ lines => lines | Remove _ _ => [] end) ops.

(** The lines of the parts that [buildOps] takes as removed and as added. *)
Definition removed_lines (changes : list Change) : list string :=
  flat_map (fun part =>
    if added part then [] else if removed part then part_lines part else []) changes.

Definition added_lines (changes : list Change) : list string :=
  flat_map (fun part => if added part then part_lines part else []) changes.

(** An operation that removes or inserts at least one line. *)
Definition op_nonempty (op : PatchOp) : Prop :=
  match op with
  | Remove _ count => 0 < count
  | Insert _ lines => lines ≠ []
  end.

(** ** Footprints of programs *)

(** The calls that count the matches of a locator. *)
Definition is_count (c : Call) : bool :=
  match c with LocatorCount _ => true | _ => false end.

(** The calls of the page script of [tryInternalPatch]. *)
Definition is_bridge (c : Call) : bool :=
  match c with
  | ProbeBridge | PageLines | UpdateLine _ _ | InsertLine _ _ | WaitForSave => true
  | _ => false
  end.

(** The calls of the slow path on the open page: locators counted, scrolled
    to and clicked, keys pressed, text typed, and the pause after each
    line. *)
Definition is_input (c : Call) : bool :=
  match c with
  | LocatorCount _ | ScrollIntoView _ | ClickLocator _ | Press _ | InsertText _
  | WaitForTimeout _ => true
  | _ => false
  end.

(** The keys pressed and the texts typed by a list of calls, in order. *)
Definition keys_of (calls : list Call) : list string :=
  omap (fun c => match c with Press key => Some key | _ => None end) calls.

Definition texts_of (calls : list Call) : list string :=
  omap (fun c => match c with InsertText text => Some text | _ => None end) calls.

(** The errors of the slow path: a line that no locator finds, or the
    exception of a collaborator. *)
Definition slow_path_error (e : Error) : Prop :=
  match e with LineNotFound _ | External _ => True | _ => False end.

Section Footprints.
Context `{Host}.

(** A program that adds to the trace only calls that [allowed] accepts and
    that fails only with errors that [errors] holds of. *)
Definition confined {A} (allowed : Call → bool) (errors : Error → Prop) (m : Prog A) : Prop :=
  ∀ s, ∃ calls, trace (m s).2 = trace s ++ calls ∧
                Forall (fun c => allowed c = true) calls ∧
                ∀ e, (m s).1 = Thrown e → errors e.

(** A program that, whenever it returns, has pressed the keys [keys] and
    typed the texts [texts]. *)
Definition types {A} (m : Prog A) (keys texts : list string) : Prop :=
  ∀ s a s', m s = (Ok a, s') →
    ∃ calls, trace s' = trace s ++ calls ∧ keys_of calls = keys ∧ texts_of calls = texts.

(** The keys of [selectAll], [moveToStart] and [moveToEnd]. *)
Definition selectAll_key : string := if isMac then "Meta+A" else "Control+A".
Definition moveToStart_key : string := if isMac then "Meta+ArrowLeft" else "Home".
Definition moveToEnd_key : string := if isMac then "Meta+ArrowRight" else "End".

(** The keys that one round of the loop of [applyOps] presses when it goes
    through: for every line to remove the selection of the line and two
    presses of Backspace, then, when there are lines to insert, the move to
    the start or to the end of the anchor and Enter.  The anchor is entered
    at its start only at index 0 of a snapshot that has lines. *)
Definition round_keys (lines : list LineInfo) (entry : nat * OpGroup) : list string :=
  mjoin (replicate (removeCount entry.2) [selectAll_key; "Backspace"; "Backspace"])
  ++ (if bool_decide (insertLines entry.2 = []) then []
      else [ (if bool_decide (entry.1 = 0 ∧ lines ≠ []) then moveToStart_key
              else moveToEnd_key); "Enter" ]).

(** The text that one round of the loop of [applyOps] types. *)
Definition round_texts (entry : nat * OpGroup) : list string :=
  if bool_decide (insertLines entry.2 = []) then []
  else [join_newline (insertLines entry.2)].

End Footprints.

(** The calls made on a page that is open: every call but the reads over
    HTTP, the opening and the closing of the page. *)
Definition on_open_page (c : Call) : bool :=
  match c with HttpGet _ | NewPage | ClosePage => false | _ => true end.

(** The exception of a collaborator. *)
Definition external_error (e : Error) : Prop :=
  match e with External _ => True | _ => False end.

(** ** The host name of the client *)

(** [normalizeHost]: [host.replace(/\/$/, '')] drops one slash at the end of
    the text. *)
Fixpoint normalizeHost (host : string) : string :=
  match host with
  | EmptyString => EmptyString
  | String c EmptyString => if decide (c = "/"%char) then EmptyString else host
  | String c rest => String c (normalizeHost rest)
  end.

(** ** The command line of [src/cli.ts] *)

(** The values of the object that [parseArgs] fills: the text that follows
    an option, [true] for an option alone, and the array of the positional
    arguments under the key ["_"]. *)
Inductive ArgValue :=
| ArgText (text : string)
| ArgFlag
| ArgList (items : list string).

(** [a.startsWith('--')] and [a.slice(2)]. *)
Definition starts_with_dashes (a : string) : bool :=
  match a with
  | String c1 (String c2 _) => bool_decide (c1 = "-"%char) && bool_decide (c2 = "-"%char)
  | _ => false
  end.

Definition slice2 (a : string) : string :=
  match a with
  | String _ (String _ rest) => rest
  | _ => EmptyString
  end.

(** [next && !next.startsWith('--')], for a [next] that is there. *)
Definition is_value (next : string) : bool :=
  negb (bool_decide (next = EmptyString)) && negb (starts_with_dashes next).

(** [out[key] = value] on the own properties of the object literal: the key
    ["__proto__"] names the prototype, and the assignment of a string or of
    [true] to it changes nothing. *)
Definition set_option (key : string) (value : ArgValue) (out : gmap string ArgValue)
    : gmap string ArgValue :=
  if decide (key = "__proto__") then out else <[key := value]> out.

(** The loop of [parseArgs] from the argument at hand.  [None] is the
    [TypeError] of [push] on a value under ["_"] that is no array any
    more. *)
Fixpoint parseArgs_from (argv : list string) (out : gmap string ArgValue)
    : option (gmap string ArgValue) :=
  match argv with
  | [] => Some out
  | a :: rest =>
      if starts_with_dashes a then
        match rest with
        | next :: rest' =>
            if is_value next
            then parseArgs_from rest' (set_option (slice2 a) (ArgText next) out)
            else parseArgs_from rest (set_option (slice2 a) ArgFlag out)
        | [] => Some (set_option (slice2 a) ArgFlag out)
        end
      else
        match out !! "_" with
        | Some (ArgList items) => parseArgs_from rest (<["_" := ArgList (items ++ [a])]> out)
        | _ => None
        end
  end.

Definition parseArgs (argv : list string) : option (gmap string ArgValue) :=
  parseArgs_from argv {["_" := ArgList []]}.

(** [Boolean(opts[name])] on an own property. *)
Definition js_truthy (value : option ArgValue) : bool :=
  match value with
  | Some (ArgText text) => negb (bool_decide (text = EmptyString))
  | Some ArgFlag | Some (ArgList _) => true
  | None => false
  end.

(** The two flags that [main] hands to [patch]. *)
Definition checkUpdated_of (opts : gmap string ArgValue) : bool :=
  js_truthy (opts !! "check-updated").

Definition dryRun_of (opts : gmap string ArgValue) : bool :=
  js_truthy (opts !! "dry-run").

(** ** [ScrapboxClient.append] *)

(** [url.searchParams.set(name, value)] and then [url.toString()], on the
    URL of a text: a collaborator of [append]. *)
Class UrlQuery := withSearchParam : string → string → string → string.

Section Append.
Context `{Host} `{UrlQuery}.
Local Open Scope prog_scope.

Definition appendUrl (this : Client) (pageTitle body : string) : string :=
  withSearchParam
    (host this +:+ "/" +:+ encodePathSegment (project this) +:+ "/"
       +:+ encodePathSegment pageTitle)
    "body" body.

(** [waitMs] is [None] when the caller leaves the argument out. *)
Definition append (this : Client) (pageTitle body : string) (waitMs : option Z)
    : Prog unit :=
  let waitMs := default 1500%Z waitMs in
  getContext this ;;
  perform NewPage ;;
  perform (Goto (appendUrl this pageTitle body)) ;;
  when (bool_decide (0 < waitMs)%Z) (perform (WaitForTimeout waitMs)) ;;
  perform ClosePage.

(** The calls of [append] when every one of them goes through. *)
Definition append_calls (this : Client) (pageTitle body : string) (waitMs : option Z)
    : list Call :=
  [NewPage; Goto (appendUrl this pageTitle body)]
  ++ (if bool_decide (0 < default 1500%Z waitMs)%Z
      then [WaitForTimeout (default 1500%Z waitMs)] else [])
  ++ [ClosePage].

End Append.

(** ** A host on which every locator matches *)

(** Modelled from the spec: the simulated host with one answer changed.
    Every locator matches one element, so that the slow path runs to its end;
    the keys and the texts still leave the simulated document as it is. *)
Definition found_respond (c : Call) (w : Sim) : Outcome (Resp c) * Sim :=
  match c return Outcome (Resp c) * Sim with
  | LocatorCount _ => (Returned 1, w)
  | c' => sim_respond c' w
  end.

Definition found_host : Host := {|
  ParsedPatch := string;
  parsePatch := fun diffText =>
    Returned (if bool_decide (diffText = EmptyString) then [] else [diffText]);
  applyPatch := fun _ target _ => Returned (Some target);
  host_diff := diffLines_ref;
  encodeURIComponent := fun s => s;
  urlToString := fun s => s;
  isMac := false;
  World := Sim;
  respond := found_respond
|}.

Definition found_start (doc : list string) : @Run found_host :=
  @Build_Run found_host
    {| sim_doc := doc; sim_rev := 1%Z; sim_bridge := false; sim_racing := false |} [].

(** The snapshot of three lines without ids. *)
Definition snapshot_abc : list LineInfo :=
  [ {| id := None; text := "a" |}; {| id := None; text := "b" |};
    {| id := None; text := "c" |} ].

(** Modelled from the spec: a URL query to run [append] with.  The
    parameter is put behind the text of the URL as it is; the encoding of the
    value belongs to the URL class of the platform, which is not part of the
    sources. *)
Definition plain_query : UrlQuery := fun url name value =>
  url +:+ "?" +:+ name +:+ "=" +:+ value.

(** * Proofs *)

(** ** The line array *)

Lemma deleteLines_array_spec index count arr :
  deleteLines_array index count arr = take index arr ++ drop (index + count) arr.
Proof.
  revert arr. induction count as [|count IH]; intros arr; simpl.
  - by rewrite Nat.add_0_r, take_drop.
  - rewrite IH. unfold delete_line.
    destruct (decide (index ≤ length arr)) as [Hle|Hgt].
    + rewrite take_app_le by (rewrite length_take; lia).
      rewrite take_take, Nat.min_id.
      rewrite drop_app_ge by (rewrite length_take; lia).
      rewrite length_take, drop_drop. f_equal. f_equal. lia.
    + rewrite !(drop_ge arr) by lia.
      rewrite app_nil_r, take_take, Nat.min_id.
      rewrite drop_ge by (rewrite length_take; lia). by rewrite app_nil_r.
Qed.

Lemma deleteLines_array_middle pre mid post :
  deleteLines_array (length pre) (length mid) (pre ++ mid ++ post) = pre ++ post.
Proof.
  rewrite deleteLines_array_spec.
  rewrite take_app_length, app_assoc, <- length_app, drop_app_length. done.
Qed.

Lemma insertLines_array_middle pre lines post :
  insertLines_array (length pre) lines (pre ++ post) = pre ++ lines ++ post.
Proof.
  unfold insertLines_array. by rewrite take_app_length, drop_app_length.
Qed.

Lemma insertLines_array_twice index first second arr :
  index ≤ length arr →
  insertLines_array index first (insertLines_array index second arr)
  = insertLines_array index (first ++ second) arr.
Proof.
  intros Hle. unfold insertLines_array.
  assert (Hlen : index = length (take index arr)) by (rewrite length_take; lia).
  rewrite (take_app_length' _ _ _ Hlen), (drop_app_length' _ _ _ Hlen).
  by rewrite <- app_assoc.
Qed.

Lemma length_deleteLines_array index count arr :
  index + count ≤ length arr →
  length (deleteLines_array index count arr) = length arr - count.
Proof.
  intros Hle. rewrite deleteLines_array_spec, length_app, length_take, length_drop. lia.
Qed.

Lemma length_insertLines_array index lines arr :
  length (insertLines_array index lines arr) = length arr + length lines.
Proof.
  unfold insertLines_array. rewrite !length_app, length_take, length_drop. lia.
Qed.

(** A round at [index] leaves every line below [index] where it was. *)
Lemma take_applyGroup_array bound index group arr :
  bound ≤ index → index ≤ length arr →
  take bound (applyGroup_array index group arr) = take bound arr.
Proof.
  intros Hb Hi. unfold applyGroup_array.
  assert (Hdel : ∀ count, take bound (deleteLines_array index count arr) = take bound arr).
  { intros count. rewrite deleteLines_array_spec.
    rewrite take_app_le by (rewrite length_take; lia).
    rewrite take_take. f_equal. lia. }
  assert (Hins : ∀ lines a, index ≤ length a →
            take bound (insertLines_array index lines a) = take bound a).
  { intros lines a Ha. unfold insertLines_array.
    rewrite take_app_le by (rewrite length_take; lia).
    rewrite take_take. f_equal. lia. }
  repeat case_bool_decide; rewrite ?Hins, ?Hdel; try done.
  rewrite deleteLines_array_spec, length_app, length_take. lia.
Qed.

(** ** The loop of [buildOps] *)

Lemma foldl_buildOps_step changes st :
  (foldl buildOps_step st changes).2 = st.2 ++ plan changes st.1.
Proof.
  revert st. induction changes as [|part rest IH]; intros [index ops]; simpl.
  - by rewrite app_nil_r.
  - rewrite IH. unfold buildOps_step. simpl.
    destruct (added part), (removed part); simpl;
      repeat case_bool_decide; simpl; by rewrite <- ?app_assoc.
Qed.

Lemma buildOps_from_plan changes : buildOps_from changes = plan changes 0.
Proof. unfold buildOps_from. by rewrite foldl_buildOps_step. Qed.

Lemma ops_between_weaken lo lo' ops hi :
  lo' ≤ lo → ops_between lo ops hi → ops_between lo' ops hi.
Proof.
  destruct ops as [|[index count|index lines] rest]; simpl; intros; intuition lia.
Qed.

Lemma plan_between changes index :
  ops_between index (plan changes index) (index + length (old_lines changes)).
Proof.
  revert index. induction changes as [|part rest IH]; intros index; simpl.
  - lia.
  - unfold old_lines in *. simpl. fold (old_lines rest) in *.
    destruct (added part); [|destruct (removed part)]; simpl.
    + case_bool_decide; simpl; [split_and!; [lia|lia|]|]; apply IH.
    + rewrite length_app, Nat.add_assoc.
      case_bool_decide; simpl; [split_and!; [lia|lia|apply IH]|].
      eapply ops_between_weaken; [|apply IH]. lia.
    + rewrite length_app, Nat.add_assoc.
      eapply ops_between_weaken; [|apply IH]. lia.
Qed.

(** ** The loop of [groupOps] *)

Lemma groupOps_snoc ops op :
  groupOps (ops ++ [op]) = groupOps_step (groupOps ops) op.
Proof. unfold groupOps. apply foldl_snoc. Qed.

Lemma removals_at_snoc index ops op :
  removals_at index (ops ++ [op]) = removals_at index ops + removals_at index [op].
Proof. unfold removals_at. by rewrite sum_list_with_app. Qed.

Lemma insertions_at_snoc index ops op :
  insertions_at index (ops ++ [op]) = insertions_at index ops ++ insertions_at index [op].
Proof. unfold insertions_at. by rewrite flat_map_app. Qed.

Lemma nothing_at index ops :
  ¬ Exists (fun op => op_index op = index) ops →
  removals_at index ops = 0 ∧ insertions_at index ops = [].
Proof.
  induction ops as [|op rest IH]; intros Hno; [done|].
  rewrite Exists_cons in Hno.
  destruct IH as [IHr IHi]; [tauto|].
  unfold removals_at, insertions_at in *. simpl. rewrite IHr, IHi.
  destruct op as [i count|i lines]; simpl in *; case_bool_decide; try done;
    exfalso; apply Hno; by left.
Qed.

(** What the map of [groupOps] holds at every index. *)
Lemma groupOps_lookup ops index : groupOps ops !! index = merged_at index ops.
Proof.
  induction ops as [|op ops IH] using rev_ind.
  - unfold merged_at. rewrite bool_decide_eq_false_2 by (by intros Hx%Exists_nil).
    apply lookup_empty.
  - rewrite groupOps_snoc. unfold groupOps_step.
    destruct (decide (op_index op = index)) as [Heq|Hne].
    + rewrite Heq, lookup_insert_eq, IH. unfold merged_at.
      rewrite (bool_decide_eq_true_2 (Exists _ (ops ++ [op])))
        by (rewrite Exists_app, Exists_cons; tauto).
      rewrite removals_at_snoc, insertions_at_snoc.
      case_bool_decide as Hex; simpl.
      * destruct op as [i count|i lines]; simpl in *; subst i;
          unfold removals_at, insertions_at; simpl;
          rewrite bool_decide_eq_true_2 by done;
          by rewrite ?Nat.add_0_r, ?app_nil_r.
      * destruct (nothing_at index ops Hex) as [-> ->].
        destruct op as [i count|i lines]; simpl in *; subst i;
          unfold removals_at, insertions_at; simpl;
          rewrite bool_decide_eq_true_2 by done;
          by rewrite ?Nat.add_0_r, ?app_nil_r.
    + rewrite lookup_insert_ne, IH by done. unfold merged_at.
      assert (Hop : removals_at index [op] = 0 ∧ insertions_at index [op] = []).
      { apply nothing_at. rewrite Exists_cons, Exists_nil. tauto. }
      destruct Hop as [Hr Hi].
      rewrite removals_at_snoc, insertions_at_snoc, Hr, Hi, Nat.add_0_r, app_nil_r.
      apply (f_equal (fun b : bool => if b then _ else _)).
      apply bool_decide_ext. rewrite Exists_app, Exists_cons, Exists_nil. tauto.
Qed.

Lemma groupOps_is_Some ops index :
  is_Some (groupOps ops !! index) ↔ Exists (fun op => op_index op = index) ops.
Proof.
  rewrite groupOps_lookup. unfold merged_at.
  case_bool_decide; split; intros Hx; try done.
Qed.

(** ** The execution order *)

#[global] Instance descending_total : Total descending.
Proof. intros a b. unfold descending. lia. Qed.

#[global] Instance descending_trans : Transitive descending.
Proof. intros a b c. unfold descending. lia. Qed.

#[global] Instance descending_antisymm : AntiSymm (=) descending.
Proof. intros a b. unfold descending. lia. Qed.

Lemma sorted_indices_perm (groups : gmap nat OpGroup) :
  sorted_indices groups ≡ₚ (map_to_list groups).*1.
Proof. apply merge_sort_Permutation. Qed.

Lemma sorted_indices_sorted (groups : gmap nat OpGroup) :
  StronglySorted descending (sorted_indices groups).
Proof. apply StronglySorted_merge_sort; apply _. Qed.

Lemma elem_of_sorted_indices (groups : gmap nat OpGroup) index :
  index ∈ sorted_indices groups ↔ is_Some (groups !! index).
Proof.
  rewrite sorted_indices_perm, list_elem_of_fmap. split.
  - intros [[i g] [-> Hin]]. apply elem_of_map_to_list in Hin. by exists g.
  - intros [g Hg]. exists (index, g). split; [done|]. by apply elem_of_map_to_list.
Qed.

(** When no key exceeds [index], the group at [index] runs first. *)
Lemma sorted_indices_insert_max (groups : gmap nat OpGroup) index group :
  (∀ j, is_Some (groups !! j) → j ≤ index) →
  sorted_indices (<[index := group]> groups)
  = index :: sorted_indices (delete index groups).
Proof.
  intros Hmax. apply (StronglySorted_unique descending).
  - apply sorted_indices_sorted.
  - constructor; [apply sorted_indices_sorted|].
    apply Forall_forall. intros j Hj. apply elem_of_sorted_indices in Hj.
    destruct Hj as [g Hg]. apply lookup_delete_Some in Hg as [_ Hg].
    apply Hmax. by exists g.
  - rewrite !sorted_indices_perm, <- insert_delete_eq.
    rewrite map_to_list_insert by apply lookup_delete_eq. done.
Qed.

Lemma schedule_of_insert_max (groups : gmap nat OpGroup) index group :
  (∀ j, is_Some (groups !! j) → j ≤ index) →
  schedule_of (<[index := group]> groups)
  = (index, group) :: schedule_of (delete index groups).
Proof.
  intros Hmax. unfold schedule_of.
  rewrite sorted_indices_insert_max by done. simpl.
  rewrite lookup_insert_eq. simpl. f_equal.
  apply Forall_fmap_ext_1, Forall_forall. intros j Hj.
  apply elem_of_sorted_indices in Hj. destruct Hj as [g Hg].
  assert (j ≠ index) by (intros ->; by rewrite lookup_delete_eq in Hg).
  by rewrite lookup_insert_ne, lookup_delete_ne by done.
Qed.

(** ** The shape of a planned operation list *)

Lemma ops_between_le lo ops hi : ops_between lo ops hi → lo ≤ hi.
Proof.
  revert lo. induction ops as [|[index count|index lines] rest IH]; simpl; intros lo.
  - done.
  - intros (? & ? & Hrest). apply IH in Hrest. lia.
  - intros (? & ? & Hrest). apply IH in Hrest. lia.
Qed.

Lemma ops_between_snoc lo ops op hi :
  ops_between lo (ops ++ [op]) hi →
  ops_between lo ops (op_index op) ∧ op_fits op hi.
Proof.
  revert lo. induction ops as [|[index count|index lines] rest IH]; simpl; intros lo.
  - destruct op as [i c|i ls]; simpl; intuition lia.
  - intros (? & ? & Hrest). apply IH in Hrest. tauto.
  - intros (? & ? & Hrest). apply IH in Hrest. tauto.
Qed.

Lemma ops_between_Forall lo ops hi :
  ops_between lo ops hi → Forall (fun op => lo ≤ op_index op ∧ op_fits op hi) ops.
Proof.
  revert lo. induction ops as [|[index count|index lines] rest IH]; simpl; intros lo.
  - constructor.
  - intros (? & ? & Hrest). pose proof (ops_between_le _ _ _ Hrest).
    constructor; [simpl; lia|].
    eapply Forall_impl; [apply IH, Hrest|]. simpl. intros op []. split; [lia|done].
  - intros (? & ? & Hrest). pose proof (ops_between_le _ _ _ Hrest).
    constructor; [simpl; lia|].
    eapply Forall_impl; [apply IH, Hrest|]. simpl. intros op []. split; [lia|done].
Qed.

Lemma op_fits_index op hi : op_fits op hi → op_index op ≤ hi.
Proof. destruct op; simpl; lia. Qed.

Lemma groupOps_keys_le lo ops hi j :
  ops_between lo ops hi → is_Some (groupOps ops !! j) → lo ≤ j ≤ hi.
Proof.
  intros Hb%ops_between_Forall Hj%groupOps_is_Some.
  apply Exists_exists in Hj as (op & Hin & <-).
  rewrite Forall_forall in Hb. destruct (Hb op Hin) as [? ?%op_fits_index]. lia.
Qed.

(** No removal is rooted where the cursor ends. *)
Lemma removals_at_end lo ops hi :
  ops_between lo ops hi → removals_at hi ops = 0.
Proof.
  intros Hb%ops_between_Forall. unfold removals_at.
  induction Hb as [|op rest Hop _ IH]; [done|]. simpl. rewrite IH.
  destruct op as [i c|i ls]; simpl in *; [|done].
  case_bool_decide; lia.
Qed.

Lemma groupOps_end_removeCount lo ops hi :
  ops_between lo ops hi →
  removeCount (default {| removeCount := 0; insertLines := [] |} (groupOps ops !! hi)) = 0.
Proof.
  intros Hb. rewrite groupOps_lookup. unfold merged_at.
  case_bool_decide; simpl; [|done]. by eapply removals_at_end.
Qed.

(** ** Groups in descending order against operations in reverse order *)

Lemma applyGroup_array_empty index arr :
  applyGroup_array index {| removeCount := 0; insertLines := [] |} arr = arr.
Proof. done. Qed.

(** Merging one more operation into the group at its index amounts to
    applying that operation first. *)
Lemma applyGroup_array_merge index group op arr :
  removeCount group = 0 → op_index op = index → op_fits op (length arr) →
  applyGroup_array index
    match op with
    | Remove _ count =>
        {| removeCount := removeCount group + count; insertLines := insertLines group |}
    | Insert _ lines =>
        {| removeCount := removeCount group; insertLines := insertLines group ++ lines |}
    end arr
  = applyGroup_array index group (applyOp_array op arr).
Proof.
  destruct group as [rc il]. simpl. intros -> Hidx Hfit.
  destruct op as [i c|i ls]; simpl in *; subst i; unfold applyGroup_array; simpl.
  - rewrite (bool_decide_eq_true_2 (0 < c)) by lia. done.
  - rewrite length_app. rewrite (bool_decide_eq_true_2 (0 < _ + _)) by lia.
    case_bool_decide as Hil.
    + rewrite insertLines_array_twice by lia. done.
    + destruct il; simpl in *; [done|lia].
Qed.

Lemma run_schedule_cons entry sched arr :
  run_schedule (entry :: sched) arr
  = run_schedule sched (applyGroup_array entry.1 entry.2 arr).
Proof. done. Qed.

(** The schedule of a map starts with the group at its greatest key; when
    that key is absent the round is the empty one. *)
Lemma run_schedule_of_max (groups : gmap nat OpGroup) index arr :
  (∀ j, is_Some (groups !! j) → j ≤ index) →
  run_schedule (schedule_of groups) arr
  = run_schedule (schedule_of (delete index groups))
      (applyGroup_array index
         (default {| removeCount := 0; insertLines := [] |} (groups !! index)) arr).
Proof.
  intros Hmax. destruct (groups !! index) as [group|] eqn:Hg; simpl.
  - rewrite <- (insert_id groups index group Hg) at 1.
    by rewrite schedule_of_insert_max.
  - by rewrite delete_id.
Qed.

Lemma applyOp_array_length op arr :
  op_fits op (length arr) → op_index op ≤ length (applyOp_array op arr).
Proof.
  destruct op as [i c|i ls]; simpl; intros [? ?].
  - rewrite length_deleteLines_array by lia. lia.
  - rewrite length_insertLines_array. lia.
Qed.

(** Running the groups of a planned list in descending order of index is
    applying its operations one by one, the last one first. *)
Lemma run_schedule_foldr ops : ∀ lo hi arr,
  ops_between lo ops hi → hi ≤ length arr →
  run_schedule (schedule ops) arr = foldr applyOp_array arr ops.
Proof.
  induction ops as [|op ops IH] using rev_ind; intros lo hi arr Hb Hhi.
  - done.
  - apply ops_between_snoc in Hb as [Hb Hfit].
    assert (Hfit' : op_fits op (length arr)).
    { destruct op; simpl in *; lia. }
    rewrite foldr_app. simpl.
    rewrite <- (IH lo (op_index op)) by (done || by apply applyOp_array_length).
    unfold schedule. rewrite groupOps_snoc. unfold groupOps_step.
    assert (Hmax : ∀ j, is_Some (groupOps ops !! j) → j ≤ op_index op).
    { intros j Hj. by destruct (groupOps_keys_le _ _ _ _ Hb Hj). }
    rewrite schedule_of_insert_max by done.
    rewrite run_schedule_cons. simpl.
    rewrite (run_schedule_of_max (groupOps ops) (op_index op)) by done.
    f_equal. apply applyGroup_array_merge; [|done|done].
    by eapply groupOps_end_removeCount.
Qed.

(** Applying the planned operations in reverse order rebuilds the new lines
    behind the lines the cursor has passed. *)
Lemma foldr_plan changes : ∀ pre,
  foldr applyOp_array (pre ++ old_lines changes) (plan changes (length pre))
  = pre ++ new_lines changes.
Proof.
  induction changes as [|part rest IH]; intros pre; [done|].
  unfold old_lines, new_lines. simpl.
  fold (old_lines rest). fold (new_lines rest).
  destruct (added part); [|destruct (removed part)].
  - rewrite foldr_app, IH. simpl. case_bool_decide as Hlen; simpl.
    + by rewrite insertLines_array_middle.
    + destruct (part_lines part); [done|simpl in *; lia].
  - rewrite foldr_app, (app_assoc pre), <- length_app, IH. simpl.
    case_bool_decide as Hlen; simpl.
    + by rewrite <- app_assoc, deleteLines_array_middle.
    + destruct (part_lines part); [by rewrite app_nil_r|simpl in *; lia].
  - rewrite (app_assoc pre), <- length_app, IH. by rewrite <- app_assoc.
Qed.

Lemma applyOps_array_plan changes :
  applyOps_array (plan changes 0) (old_lines changes) = new_lines changes.
Proof.
  unfold applyOps_array.
  rewrite (run_schedule_foldr _ 0 (0 + length (old_lines changes)))
    by (apply plan_between || (simpl; lia)).
  apply (foldr_plan changes []).
Qed.

(** ** The anchors of the groups still to run *)

Lemma schedule_of_fst (groups : gmap nat OpGroup) :
  (schedule_of groups).*1 = sorted_indices groups.
Proof.
  unfold schedule_of. rewrite <- list_fmap_compose.
  rewrite <- (list_fmap_id (sorted_indices groups)) at 2.
  by apply list_fmap_ext.
Qed.

Lemma elem_of_schedule_of (groups : gmap nat OpGroup) index group :
  (index, group) ∈ schedule_of groups ↔ groups !! index = Some group.
Proof.
  unfold schedule_of. rewrite list_elem_of_fmap. split.
  - intros (j & [= -> ->] & Hj). apply elem_of_sorted_indices in Hj as [g Hg].
    by rewrite Hg.
  - intros Hg. exists index. rewrite Hg. split; [done|].
    apply elem_of_sorted_indices. by exists group.
Qed.

Lemma sorted_indices_NoDup (groups : gmap nat OpGroup) : NoDup (sorted_indices groups).
Proof. rewrite sorted_indices_perm. apply NoDup_fst_map_to_list. Qed.

(** The loop visits the indices in strictly descending order. *)
Lemma sorted_indices_strict (groups : gmap nat OpGroup) :
  StronglySorted (fun a b => b < a) (sorted_indices groups).
Proof.
  pose proof (sorted_indices_sorted groups) as Hs.
  pose proof (sorted_indices_NoDup groups) as Hn.
  induction Hs as [|a l Hl IH Ha]; [constructor|].
  apply NoDup_cons in Hn as [Hna Hn].
  constructor; [by apply IH|].
  rewrite Forall_forall in Ha |- *. intros b Hb.
  specialize (Ha b Hb). unfold descending in Ha.
  assert (a ≠ b) by (intros ->; done). lia.
Qed.

Lemma removals_at_below lo ops hi index :
  ops_between lo ops hi → index < lo → removals_at index ops = 0.
Proof.
  intros Hb%ops_between_Forall Hlt. unfold removals_at.
  induction Hb as [|op rest [Hop _] _ IH]; [done|]. simpl. rewrite IH.
  destruct op as [i c|i ls]; simpl in *; [|done].
  case_bool_decide; lia.
Qed.

Lemma removals_at_cons index op rest :
  removals_at index (op :: rest) = removals_at index [op] + removals_at index rest.
Proof. unfold removals_at. simpl. lia. Qed.

(** The lines a group removes end where the cursor ends at the latest. *)
Lemma removals_at_fit ops : ∀ lo hi index,
  ops_between lo ops hi → index ≤ hi → index + removals_at index ops ≤ hi.
Proof.
  induction ops as [|[i c|i ls] rest IH]; intros lo hi index Hb Hle; simpl in Hb.
  - unfold removals_at. simpl. lia.
  - destruct Hb as (? & ? & Hrest). rewrite removals_at_cons.
    unfold removals_at at 1. simpl. case_bool_decide as Hi.
    + subst i. rewrite (removals_at_below _ _ _ _ Hrest) by lia.
      apply ops_between_le in Hrest. lia.
    + specialize (IH _ _ index Hrest Hle). lia.
  - destruct Hb as (? & ? & Hrest). rewrite removals_at_cons.
    unfold removals_at at 1. simpl. specialize (IH _ _ index Hrest Hle). lia.
Qed.

(** A group rooted above [index] is rooted past the lines removed at [index]. *)
Lemma removals_at_gap ops : ∀ lo hi index j,
  ops_between lo ops hi → Exists (fun op => op_index op = j) ops → index < j →
  index + removals_at index ops ≤ j.
Proof.
  induction ops as [|[i c|i ls] rest IH]; intros lo hi index j Hb Hj Hlt; simpl in Hb.
  - by apply Exists_nil in Hj.
  - destruct Hb as (? & ? & Hrest). rewrite removals_at_cons.
    unfold removals_at at 1. simpl.
    apply Exists_cons in Hj as [Hj|Hj]; simpl in Hj.
    + subst i. rewrite bool_decide_eq_false_2 by lia.
      rewrite (removals_at_below _ _ _ _ Hrest) by lia. lia.
    + case_bool_decide as Hi.
      * subst i. rewrite (removals_at_below _ _ _ _ Hrest) by lia.
        apply ops_between_Forall in Hrest. rewrite Forall_forall in Hrest.
        apply Exists_exists in Hj as (op & Hin & <-).
        destruct (Hrest op Hin). lia.
      * specialize (IH _ _ index j Hrest Hj Hlt). lia.
  - destruct Hb as (? & ? & Hrest). rewrite removals_at_cons.
    unfold removals_at at 1. simpl.
    apply Exists_cons in Hj as [Hj|Hj]; simpl in Hj.
    + subst i. rewrite (removals_at_below _ _ _ _ Hrest) by lia. lia.
    + specialize (IH _ _ index j Hrest Hj Hlt). lia.
Qed.

Lemma schedule_entry ops index group :
  (index, group) ∈ schedule ops →
  Exists (fun op => op_index op = index) ops ∧ removeCount group = removals_at index ops.
Proof.
  unfold schedule. rewrite elem_of_schedule_of, groupOps_lookup. unfold merged_at.
  case_bool_decide; [|done]. intros [= <-]. done.
Qed.

(** At the moment a group runs, every line up to the end of the range it
    removes is the line the snapshot had there. *)
Lemma run_schedule_prefix ops lo hi (lines0 : list string) :
  ops_between lo ops hi → hi ≤ length lines0 →
  ∀ done index group todo,
    schedule ops = done ++ (index, group) :: todo →
    index + removeCount group ≤ length (run_schedule done lines0) ∧
    take (index + removeCount group) (run_schedule done lines0)
    = take (index + removeCount group) lines0.
Proof.
  intros Hb Hhi done.
  induction done as [|[j gj] done IH] using rev_ind; intros index group todo Hsched.
  - assert (Hin : (index, group) ∈ schedule ops).
    { rewrite Hsched, elem_of_app, elem_of_cons. tauto. }
    apply schedule_entry in Hin as [Hkey ->]. simpl. split; [|done].
    assert (index ≤ hi).
    { apply groupOps_is_Some in Hkey. by destruct (groupOps_keys_le _ _ _ _ Hb Hkey). }
    pose proof (removals_at_fit _ _ _ index Hb). lia.
  - rewrite <- app_assoc in Hsched. simpl in Hsched.
    destruct (IH _ _ _ Hsched) as [Hlen Htake].
    assert (Hin : (index, group) ∈ schedule ops).
    { rewrite Hsched, elem_of_app, !elem_of_cons. tauto. }
    assert (Hjn : (j, gj) ∈ schedule ops).
    { rewrite Hsched, elem_of_app, !elem_of_cons. tauto. }
    apply schedule_entry in Hin as [Hkey Hrc].
    apply schedule_entry in Hjn as [Hkeyj Hrcj].
    assert (Hlt : index < j).
    { pose proof (sorted_indices_strict (groupOps ops)) as Hs.
      rewrite <- schedule_of_fst in Hs. fold (schedule ops) in Hs.
      rewrite Hsched, fmap_app in Hs. apply StronglySorted_app in Hs as (_ & _ & Hs).
      simpl in Hs. apply StronglySorted_inv in Hs as [_ Hs].
      by apply Forall_inv in Hs. }
    assert (Hgap : index + removeCount group ≤ j).
    { rewrite Hrc. by eapply removals_at_gap. }
    assert (Hfit : index + removeCount group ≤ length lines0).
    { assert (index ≤ hi).
      { apply groupOps_is_Some in Hkey. by destruct (groupOps_keys_le _ _ _ _ Hb Hkey). }
      rewrite Hrc. pose proof (removals_at_fit _ _ _ index Hb). lia. }
    unfold run_schedule in *. rewrite foldl_snoc. simpl.
    assert (Heq : take (index + removeCount group)
               (applyGroup_array j gj
                  (foldl (fun arr entry => applyGroup_array entry.1 entry.2 arr) lines0 done))
             = take (index + removeCount group) lines0).
    { rewrite take_applyGroup_array by lia.
      rewrite <- (Nat.min_l (index + removeCount group) (j + removeCount gj)) by lia.
      by rewrite <- !take_take, Htake. }
    split; [|done].
    apply (f_equal length) in Heq. rewrite !length_take in Heq. lia.
Qed.

(** ** The reference line diff is a line script *)

Lemma splitLines_trim value : splitLines value = trim_last (split_newline value).
Proof. done. Qed.

Lemma split_newline_nonempty value : split_newline value ≠ [].
Proof.
  destruct value as [|c rest]; simpl; [done|].
  case_decide; [done|]. by destruct (split_newline rest).
Qed.

Lemma trim_last_cons piece pieces :
  pieces ≠ [] → trim_last (piece :: pieces) = piece :: trim_last pieces.
Proof.
  intros Hne. unfold trim_last. destruct pieces as [|p ps]; [done|].
  change (last (piece :: p :: ps)) with (last (p :: ps)).
  case_decide; [|done]. simpl. by rewrite !Nat.sub_0_r.
Qed.

Lemma split_newline_terminated token value :
  terminated token →
  split_newline (token +:+ value) = first_piece token :: split_newline value.
Proof.
  induction token as [|c rest IH]; simpl; [done|].
  case_decide as Hc.
  - intros ->. done.
  - intros Hrest. by rewrite IH.
Qed.

Lemma splitLines_terminated token value :
  terminated token →
  splitLines (token +:+ value) = first_piece token :: splitLines value.
Proof.
  intros Ht. rewrite !splitLines_trim, split_newline_terminated by done.
  apply trim_last_cons, split_newline_nonempty.
Qed.

Lemma string_app_nil_r (s : string) : s +:+ EmptyString = s.
Proof.
  induction s as [|c s IH]; [done|].
  change (String c (s +:+ EmptyString) = String c s). by rewrite IH.
Qed.

Lemma splitLines_terminated_alone token :
  terminated token → splitLines token = [first_piece token].
Proof.
  intros Ht. rewrite <- (string_app_nil_r token) at 1.
  by rewrite splitLines_terminated.
Qed.

Lemma splitLines_app_terminated token value :
  terminated token →
  splitLines (token +:+ value) = splitLines token ++ splitLines value.
Proof.
  intros Ht. by rewrite splitLines_terminated, (splitLines_terminated_alone token) by done.
Qed.

Lemma concat_tokenize value : String.concat EmptyString (tokenize value) = value.
Proof.
  induction value as [|c rest IH]; simpl; [done|].
  case_decide.
  - destruct (tokenize rest) as [|t ts] eqn:Ht; simpl in *.
    + by rewrite <- IH.
    + by rewrite IH.
  - destruct (tokenize rest) as [|t ts] eqn:Ht; simpl in *.
    + by rewrite <- IH.
    + destruct ts; simpl in *; by rewrite <- IH.
Qed.

Lemma tokenize_terminated value : all_but_last_terminated (tokenize value).
Proof.
  induction value as [|c rest IH]; simpl; [done|].
  case_decide as Hc.
  - destruct (tokenize rest); [done|]. split; [|done]. simpl. by rewrite decide_True.
  - destruct (tokenize rest) as [|t ts]; [done|]. simpl in *.
    destruct ts; [done|]. destruct IH as [Ht Hts]. split; [|done].
    simpl. by rewrite decide_False.
Qed.

Lemma flat_map_splitLines tokens :
  all_but_last_terminated tokens →
  flat_map splitLines tokens = splitLines (String.concat EmptyString tokens).
Proof.
  induction tokens as [|t ts IH]; [done|].
  destruct ts as [|t' ts]; [intros _; simpl; by rewrite app_nil_r|].
  intros [Ht Hts]. change (flat_map splitLines (t :: t' :: ts))
    with (splitLines t ++ flat_map splitLines (t' :: ts)).
  rewrite IH by done.
  change (String.concat EmptyString (t :: t' :: ts))
    with (t +:+ EmptyString +:+ String.concat EmptyString (t' :: ts)).
  by rewrite splitLines_app_terminated.
Qed.

Lemma splitLines_tokenize value : flat_map splitLines (tokenize value) = splitLines value.
Proof. by rewrite flat_map_splitLines, concat_tokenize by apply tokenize_terminated. Qed.

Lemma sides_of_insertions tokens :
  old_side (Ins <$> tokens) = [] ∧ new_side (Ins <$> tokens) = tokens.
Proof. induction tokens as [|t ts [Ho Hn]]; [done|]. csimpl. by rewrite Hn. Qed.

Lemma sides_of_deletions tokens :
  old_side (Del <$> tokens) = tokens ∧ new_side (Del <$> tokens) = [].
Proof. induction tokens as [|t ts [Ho Hn]]; [done|]. csimpl. by rewrite Ho. Qed.

Lemma edit_script_cons x old y new :
  edit_script (x :: old) (y :: new)
  = if decide (x = y) then Keep x :: edit_script old new
    else if decide (edit_cost (Del x :: edit_script old (y :: new))
                     ≤ edit_cost (Ins y :: edit_script (x :: old) new))
         then Del x :: edit_script old (y :: new)
         else Ins y :: edit_script (x :: old) new.
Proof. done. Qed.

Lemma edit_script_sides old : ∀ new,
  old_side (edit_script old new) = old ∧ new_side (edit_script old new) = new.
Proof.
  induction old as [|x old IH]; intros new.
  - apply sides_of_insertions.
  - induction new as [|y new IHn].
    + apply (sides_of_deletions (x :: old)).
    + rewrite edit_script_cons. repeat case_decide.
      * subst y. destruct (IH new) as [Ho Hn]. cbn [old_side new_side]. by rewrite Ho, Hn.
      * destruct (IH (y :: new)) as [Ho Hn]. cbn [old_side new_side]. by rewrite Ho, Hn.
      * destruct IHn as [Ho Hn]. cbn [old_side new_side]. by rewrite Ho, Hn.
Qed.

Lemma components_cons e script :
  components (e :: script) = push_edit e (components script).
Proof. done. Qed.

Lemma components_head e script :
  ∃ part parts, components (e :: script) = part :: parts ∧ same_kind (edit_part e) part.
Proof.
  rewrite components_cons. unfold push_edit. fold (edit_part e).
  destruct (components script) as [|next rest]; [by eexists _, _|].
  case_bool_decide; by eexists _, _.
Qed.

Lemma same_kind_mergeable e e' script part parts :
  components (e' :: script) = part :: parts →
  same_kind (edit_part e) part → mergeable e (e' :: script).
Proof.
  intros Hc Hk. destruct (components_head e' script) as (p & ps & Hc' & Hk').
  rewrite Hc in Hc'. injection Hc' as <- <-.
  destruct Hk as [Ha Hr], Hk' as [Ha' Hr'].
  destruct e, e'; simpl in *; congruence.
Qed.

Lemma old_lines_cons part parts :
  old_lines (part :: parts)
  = (if added part then [] else splitLines (value part)) ++ old_lines parts.
Proof. done. Qed.

Lemma new_lines_cons part parts :
  new_lines (part :: parts)
  = (if added part then splitLines (value part)
     else if removed part then [] else splitLines (value part)) ++ new_lines parts.
Proof. done. Qed.

Lemma all_but_last_terminated_cons token tokens :
  all_but_last_terminated (token :: tokens) →
  all_but_last_terminated tokens ∧ (tokens ≠ [] → terminated token).
Proof. destruct tokens; [done|]. intros [? ?]. done. Qed.

Lemma lines_components script :
  all_but_last_terminated (old_side script) →
  all_but_last_terminated (new_side script) →
  old_lines (components script) = flat_map splitLines (old_side script) ∧
  new_lines (components script) = flat_map splitLines (new_side script).
Proof.
  induction script as [|e script IH]; [done|]. intros Hold Hnew.
  assert (Hsides :
    all_but_last_terminated (old_side script) ∧
    all_but_last_terminated (new_side script) ∧
    (mergeable e script → terminated (edit_token e))).
  { destruct e as [t|t|t]; cbn [old_side new_side mergeable edit_token] in *.
    - apply all_but_last_terminated_cons in Hold as [? ?].
      apply all_but_last_terminated_cons in Hnew as [? ?]. done.
    - apply all_but_last_terminated_cons in Hold as [? ?]. done.
    - apply all_but_last_terminated_cons in Hnew as [? ?]. done. }
  destruct Hsides as (Hold' & Hnew' & Hterm).
  destruct (IH Hold' Hnew') as [IHo IHn].
  assert (Hplain :
    old_lines (edit_part e :: components script)
    = flat_map splitLines (old_side (e :: script)) ∧
    new_lines (edit_part e :: components script)
    = flat_map splitLines (new_side (e :: script))).
  { rewrite old_lines_cons, new_lines_cons, IHo, IHn. by destruct e. }
  rewrite components_cons. unfold push_edit. fold (edit_part e).
  destruct (components script) as [|next rest] eqn:Hc; [done|].
  case_bool_decide as Hk; [|done].
  assert (Hm : mergeable e script).
  { destruct script as [|e' script']; [done|]. by eapply same_kind_mergeable. }
  specialize (Hterm Hm). destruct Hk as [Ha Hr].
  destruct Hplain as [Ho Hn]. rewrite <- Ho, <- Hn.
  rewrite !old_lines_cons, !new_lines_cons. cbn [value added removed].
  rewrite <- Ha, <- Hr.
  destruct e as [t|t|t]; cbn [edit_part edit_token value added removed] in *;
    rewrite ?splitLines_app_terminated by done; by rewrite <- ?app_assoc.
Qed.

(** The reference line diff is a line script of its two texts. *)
Lemma diffLines_ref_line_script originalText newText :
  line_script originalText newText (diffLines_ref originalText newText).
Proof.
  unfold line_script, diffLines_ref. case_decide as Heq.
  - unfold old_lines, new_lines, part_lines. simpl.
    rewrite !app_nil_r, concat_tokenize. split; [|done].
    f_equal. by rewrite <- (concat_tokenize originalText), Heq, concat_tokenize.
  - destruct (edit_script_sides (tokenize originalText) (tokenize newText)) as [Ho Hn].
    destruct (lines_components (edit_script (tokenize originalText) (tokenize newText)))
      as [Hol Hnl].
    + rewrite Ho. apply tokenize_terminated.
    + rewrite Hn. apply tokenize_terminated.
    + by rewrite Hol, Hnl, Ho, Hn, !splitLines_tokenize.
Qed.

Lemma diffLines_ref_same originalText :
  Forall unchanged (diffLines_ref originalText originalText).
Proof.
  unfold diffLines_ref. rewrite decide_True by done. by repeat constructor.
Qed.

(** With the reference line diff, planning and applying rebuilds the lines
    of the target from the lines of the original, whatever the two texts. *)
Lemma reference_plan_rebuilds_target originalText newText :
  applyOps_array (@buildOps diffLines_ref originalText newText) (splitLines originalText)
  = splitLines newText.
Proof.
  destruct (diffLines_ref_line_script originalText newText) as [Hold Hnew].
  unfold buildOps. rewrite buildOps_from_plan.
  change (@diffLines diffLines_ref originalText newText)
    with (diffLines_ref originalText newText).
  rewrite <- Hold, <- Hnew. apply applyOps_array_plan.
Qed.

(** The lines of a text by [splitLines] are never more than its pieces. *)
Lemma length_splitLines_le value :
  length (splitLines value) ≤ length (split_newline value).
Proof.
  unfold splitLines. case_decide; [|done]. rewrite length_take. lia.
Qed.

(** A line script consumes no more lines than the original has, split either
    way. *)
Lemma line_script_fits originalText newText changes :
  line_script originalText newText changes →
  length (old_lines changes) ≤ length (splitLines originalText) ∧
  length (old_lines changes) ≤ length (split_newline originalText).
Proof.
  intros [-> _]. split; [done|apply length_splitLines_le].
Qed.

(** * The planner and the scheduler: the properties of the specification *)

Section PlannerProperties.
Context `{LineDiff}.

(** C1, as amended.  For every pair of texts on which [diffLines] returns a
    line script (its parts that are not added make up the lines of the
    original, its parts that are not removed the lines of the target, lines
    being taken by [splitLines], which drops the empty piece after a final
    separator), the operations of [buildOps], grouped by [groupOps] and
    applied in descending order of index to the lines of the original,
    rebuild exactly the lines of the target. *)
Theorem buildOps_applyOps_rebuilds_target originalText newText :
  line_script originalText newText (diffLines originalText newText) →
  applyOps_array (buildOps originalText newText) (splitLines originalText)
  = splitLines newText.
Proof.
  intros [Hold Hnew]. unfold buildOps.
  rewrite buildOps_from_plan, <- Hold, <- Hnew.
  apply applyOps_array_plan.
Qed.

(** C2.  The loop of [applyOps] visits the groups in strictly descending
    order of index; and when the snapshot has at least the lines that the
    parts of the diff consume, then at the moment a group runs, whatever the
    groups before it did, the array still holds at every position up to the
    end of the range the group removes the line the snapshot held there: the
    index of the group designates what it designated before the loop. *)
Theorem applyOps_descending_keeps_anchors originalText newText (snapshot : list string) :
  length (old_lines (diffLines originalText newText)) ≤ length snapshot →
  StronglySorted (fun a b => b < a) (schedule (buildOps originalText newText)).*1 ∧
  ∀ done index group todo,
    schedule (buildOps originalText newText) = done ++ (index, group) :: todo →
    index + removeCount group ≤ length (run_schedule done snapshot) ∧
    ∀ position, position < index + removeCount group →
      run_schedule done snapshot !! position = snapshot !! position.
Proof.
  intros Hlen. split.
  - unfold schedule. rewrite schedule_of_fst. apply sorted_indices_strict.
  - intros done index group todo Hsched.
    unfold buildOps in Hsched. rewrite buildOps_from_plan in Hsched.
    destruct (run_schedule_prefix _ _ _ snapshot
                (plan_between (diffLines originalText newText) 0) Hlen
                _ _ _ _ Hsched) as [Hfit Htake].
    split; [done|]. intros position Hpos.
    rewrite <- (lookup_take_lt (run_schedule done snapshot) _ _ Hpos).
    rewrite <- (lookup_take_lt snapshot _ _ Hpos). by rewrite Htake.
Qed.

(** C3, as amended.  When [diffLines] answers the change of line 2 of
    "a\nb\nc" from "b" to "x" by an unchanged "a", a removed "b", an added "x"
    and an unchanged "c", in that order, [buildOps] emits a removal of one
    line at index 1 and an insertion of "x" at index 2, the cursor having
    moved past the removed line; applied to the lines of the original they
    give "a\nx\nc". *)
Theorem buildOps_change_of_one_line :
  diffLines text_abc text_axc
  = [ {| value := "a" +:+ NL; added := false; removed := false |};
      {| value := "b" +:+ NL; added := false; removed := true |};
      {| value := "x" +:+ NL; added := true; removed := false |};
      {| value := "c"; added := false; removed := false |} ] →
  buildOps text_abc text_axc = [Remove 1 1; Insert 2 ["x"]] ∧
  join_newline (applyOps_array (buildOps text_abc text_axc) (split_newline text_abc))
  = text_axc.
Proof.
  intros Hdiff. unfold buildOps. rewrite Hdiff. split; by vm_compute.
Qed.

(** C4.  At every index the map of [groupOps] holds the one group that
    merges the operations rooted there, the counts of the removals summed and
    the lines of the insertions in discovery order, and holds nothing where
    no operation is rooted; a removal and an insertion at one index give the
    same map in either order. *)
Theorem groupOps_merges_by_index :
  (∀ ops index, groupOps ops !! index = merged_at index ops) ∧
  (∀ index count lines,
     groupOps [Remove index count; Insert index lines]
     = groupOps [Insert index lines; Remove index count] ∧
     groupOps [Remove index count; Insert index lines] !! index
     = Some {| removeCount := count; insertLines := lines |}).
Proof.
  split; [apply groupOps_lookup|]. intros index count lines.
  unfold groupOps, groupOps_step. simpl.
  rewrite lookup_empty, !lookup_insert_eq. simpl.
  by rewrite !insert_insert_eq.
Qed.

End PlannerProperties.

(** No result of [diffLines] makes [buildOps] emit a removal and then an
    insertion at the index of the removal: the cursor has moved. *)
Lemma plan_never_inserts_behind_removal changes index count lines :
  0 < count → buildOps_from changes ≠ [Remove index count; Insert index lines].
Proof.
  intros Hcount Heq. pose proof (plan_between changes 0) as Hb.
  rewrite <- buildOps_from_plan, Heq in Hb. simpl in Hb. lia.
Qed.

(** C1, the claim as stated fails: the original "a\n" splits on the separator
    into the lines "a" and "", the target "a\nb" into "a" and "b"; the plan is
    the insertion of "b" at index 1, and the array ends as "a", "b", "". *)
Lemma split_on_separator_not_rebuilt :
  diffLines_ref text_a_blank text_ab
  = [ {| value := "a" +:+ NL; added := false; removed := false |};
      {| value := "b"; added := true; removed := false |} ] ∧
  @buildOps diffLines_ref text_a_blank text_ab = [Insert 1 ["b"]] ∧
  split_newline text_a_blank = ["a"; ""] ∧
  split_newline text_ab = ["a"; "b"] ∧
  applyOps_array (@buildOps diffLines_ref text_a_blank text_ab) (split_newline text_a_blank)
  = ["a"; "b"; ""] ∧
  applyOps_array (@buildOps diffLines_ref text_a_blank text_ab) (split_newline text_a_blank)
  ≠ split_newline text_ab.
Proof. repeat split; by vm_compute. Qed.

(** The rebuilding of the target on a change of four lines into four others,
    the last one with its separator. *)
Lemma buildOps_applyOps_rebuilds_target_witness :
  applyOps_array (@buildOps diffLines_ref text_abcd text_bxde) (splitLines text_abcd)
  = splitLines text_bxde.
Proof.
  apply (@buildOps_applyOps_rebuilds_target diffLines_ref text_abcd text_bxde).
  split; vm_compute; reflexivity.
Defined.

(** The anchors of that plan on the four lines of the original. *)
Lemma applyOps_descending_keeps_anchors_witness :
  StronglySorted (fun a b => b < a) (schedule (@buildOps diffLines_ref text_abcd text_bxde)).*1 ∧
  ∀ done index group todo,
    schedule (@buildOps diffLines_ref text_abcd text_bxde) = done ++ (index, group) :: todo →
    index + removeCount group ≤ length (run_schedule done ["a"; "b"; "c"; "d"]) ∧
    ∀ position, position < index + removeCount group →
      run_schedule done ["a"; "b"; "c"; "d"] !! position
      = ["a"; "b"; "c"; "d"] !! position.
Proof.
  apply (@applyOps_descending_keeps_anchors diffLines_ref text_abcd text_bxde).
  vm_compute. lia.
Defined.

(** C3, the claim as stated fails: the insertion is rooted at index 2, not
    at index 1, and no answer of [diffLines] gives the list of the claim. *)
Lemma change_of_one_line_not_at_index_1 :
  @buildOps diffLines_ref text_abc text_axc = [Remove 1 1; Insert 2 ["x"]] ∧
  @buildOps diffLines_ref text_abc text_axc ≠ [Remove 1 1; Insert 1 ["x"]] ∧
  @buildOps diffLines_ref text_abc text_axc ≠ [Insert 1 ["x"]; Remove 1 1] ∧
  ¬ (∃ changes, buildOps_from changes = [Remove 1 1; Insert 1 ["x"]]).
Proof.
  split; [by vm_compute|]. split; [by vm_compute|]. split; [by vm_compute|].
  intros [changes Heq].
  apply (plan_never_inserts_behind_removal changes 1 1 ["x"]); [lia|done].
Qed.

(** The reference line diff answers the change of one line as the theorem
    asks. *)
Lemma buildOps_change_of_one_line_witness :
  @buildOps diffLines_ref text_abc text_axc = [Remove 1 1; Insert 2 ["x"]] ∧
  join_newline
    (applyOps_array (@buildOps diffLines_ref text_abc text_axc) (split_newline text_abc))
  = text_axc.
Proof.
  apply (@buildOps_change_of_one_line diffLines_ref). vm_compute. reflexivity.
Defined.

(** * The pipeline: programs and their traces *)

Section PipelineProperties.
Context `{Host}.
Local Open Scope prog_scope.

Lemma bind_ok {A B} (m : Prog A) (k : A → Prog B) s a s' :
  m s = (Ok a, s') → bind m k s = k a s'.
Proof. unfold bind. by intros ->. Qed.

Lemma bind_thrown {A B} (m : Prog A) (k : A → Prog B) s e s' :
  m s = (Thrown e, s') → bind m k s = (Thrown e, s').
Proof. unfold bind. by intros ->. Qed.

Lemma bind_inv_ok {A B} (m : Prog A) (k : A → Prog B) s b s' :
  bind m k s = (Ok b, s') → ∃ a s1, m s = (Ok a, s1) ∧ k a s1 = (Ok b, s').
Proof.
  unfold bind. destruct (m s) as [[a|e] s1]; [|done]. intros Hk. by exists a, s1.
Qed.

Lemma bind_cases {A B} (m : Prog A) (k : A → Prog B) s r s' :
  bind m k s = (r, s') →
  (∃ a s1, m s = (Ok a, s1) ∧ k a s1 = (r, s')) ∨
  (∃ e, m s = (Thrown e, s') ∧ r = Thrown e).
Proof.
  unfold bind. destruct (m s) as [[a|e] s1]; intros Hk.
  - left. by exists a, s1.
  - right. exists e. by injection Hk as <- <-.
Qed.

Lemma lift_returned {A} (o : Outcome A) a s : o = Returned a → lift o s = (Ok a, s).
Proof. by intros ->. Qed.

Lemma call_trace c s : trace (call c s).2 = trace s ++ [c].
Proof. unfold call. by destruct (respond c (world s)).1. Qed.

Lemma perform_trace c s : trace (perform c s).2 = trace s ++ [c].
Proof.
  unfold perform, bind. pose proof (call_trace c s) as Hc.
  by destruct (call c s) as [[x|e] s1].
Qed.

Lemma perform_unit c s : ∀ r s', perform c s = (r, s') → trace s' = trace s ++ [c].
Proof. intros r s' Hp. pose proof (perform_trace c s) as Ht. by rewrite Hp in Ht. Qed.

(** A list of calls performed to the end is what the trace gains. *)
Lemma for_each_perform_trace calls : ∀ s s',
  for_each calls perform s = (Ok tt, s') → trace s' = trace s ++ calls.
Proof.
  induction calls as [|c calls IH]; simpl; intros s s' Hrun.
  - unfold ret in Hrun. injection Hrun as <-. by rewrite app_nil_r.
  - apply bind_inv_ok in Hrun as ([] & s1 & Hc & Hrest).
    apply IH in Hrest. apply perform_unit in Hc.
    rewrite Hrest, Hc, <- app_assoc. done.
Qed.

(** *** [readJson] *)

Lemma readJson_cases this pageTitle s r s' :
  readJson this pageTitle s = (r, s') →
  r ≠ Thrown UpdatedMismatch ∧
  match r with
  | Ok _ =>
      context this = true ∧
      trace s' = trace s ++ [HttpGet (apiUrl this pageTitle)] ∧
      world s' = (respond (HttpGet (apiUrl this pageTitle)) (world s)).2
  | Thrown _ =>
      trace s' = trace s ∨ trace s' = trace s ++ [HttpGet (apiUrl this pageTitle)]
  end.
Proof.
  unfold readJson, getContext, bind, call, throw, ret, lift.
  destruct (context this); simpl; [|intros [= <- <-]; auto].
  destruct (respond (HttpGet (apiUrl this pageTitle)) (world s)) as [[res|e] w]; simpl;
    [|intros [= <- <-]; auto].
  destruct (res_ok res); simpl; [|intros [= <- <-]; auto].
  destruct (res_json res); simpl; intros [= <- <-]; auto.
Qed.

Lemma readJson_ok this pageTitle s pageJson s' :
  readJson this pageTitle s = (Ok pageJson, s') →
  context this = true ∧
  trace s' = trace s ++ [HttpGet (apiUrl this pageTitle)] ∧
  world s' = (respond (HttpGet (apiUrl this pageTitle)) (world s)).2.
Proof. intros Hr. by destruct (readJson_cases _ _ _ _ _ Hr) as [_ ?]. Qed.

Lemma parseFirstPatch_ok diffText first others s :
  parsePatch diffText = Returned (first :: others) →
  parseFirstPatch diffText s = (Ok first, s).
Proof. unfold parseFirstPatch, bind. by intros ->. Qed.

Lemma parseFirstPatch_cases diffText s :
  ∃ r, parseFirstPatch diffText s = (r, s) ∧ r ≠ Thrown UpdatedMismatch.
Proof.
  unfold parseFirstPatch, bind, lift.
  destruct (parsePatch diffText) as [[|first others]|e]; simpl; eauto.
Qed.

(** *** The fast path *)

(** The attempt never ends with an error. *)
Lemma tryInternalPatch_total newLines s :
  ∃ internal s', tryInternalPatch newLines s = (Ok internal, s').
Proof.
  unfold tryInternalPatch, try_catch.
  destruct (bind _ _ s) as [[b|e] s']; eauto.
Qed.

Lemma tryInternalPatch_thrown newLines s e s' :
  internalPatch_script newLines s = (Thrown e, s') →
  tryInternalPatch newLines s = (Ok false, s').
Proof.
  intros Hs. unfold tryInternalPatch, try_catch.
  by rewrite (bind_thrown _ _ _ _ _ Hs).
Qed.

Lemma tryInternalPatch_returned newLines s b s' :
  internalPatch_script newLines s = (Ok b, s') →
  tryInternalPatch newLines s = (Ok b, s').
Proof.
  intros Hs. unfold tryInternalPatch, try_catch.
  by rewrite (bind_ok _ _ _ _ _ Hs).
Qed.

(** Without the three methods the script answers [false] at once. *)
Lemma internalPatch_script_absent newLines s w :
  respond ProbeBridge (world s) = (Returned false, w) →
  internalPatch_script newLines s
  = (Ok false, {| world := w; trace := trace s ++ [ProbeBridge] |}).
Proof.
  intros Hp. unfold internalPatch_script, bind, call. by rewrite Hp.
Qed.

(** A script that ends with [true] has probed, read the lines, made the
    calls of [internalPatch_calls] on them and waited for the save. *)
Lemma internalPatch_script_trace newLines s s' :
  internalPatch_script newLines s = (Ok true, s') →
  ∃ current,
    (respond PageLines (respond ProbeBridge (world s)).2).1 = Returned current ∧
    trace s' = trace s ++ [ProbeBridge; PageLines]
                 ++ internalPatch_calls current newLines ++ [WaitForSave].
Proof.
  unfold internalPatch_script. intros Hrun.
  apply bind_inv_ok in Hrun as (available & s1 & Hprobe & Hrun).
  destruct available; simpl in Hrun; [|by injection Hrun].
  apply bind_inv_ok in Hrun as (current & s2 & Hlines & Hrun).
  apply bind_inv_ok in Hrun as ([] & s3 & Hcalls & Hrun).
  apply bind_inv_ok in Hrun as ([] & s4 & Hsave & Hrun).
  injection Hrun as <-.
  apply for_each_perform_trace in Hcalls. apply perform_unit in Hsave.
  pose proof (call_trace ProbeBridge s) as Ht1. rewrite Hprobe in Ht1.
  pose proof (call_trace PageLines s1) as Ht2. rewrite Hlines in Ht2.
  simpl in Ht1, Ht2.
  exists current. split.
  - unfold call in Hprobe, Hlines.
    destruct (respond ProbeBridge (world s)) as [[b|e] w1]; simpl in *; [|done].
    injection Hprobe as _ <-. simpl in Hlines.
    destruct (respond PageLines w1) as [[cur|e] w2]; simpl in *; [|done].
    by injection Hlines as -> _.
  - rewrite Hsave, Hcalls, Ht2, Ht1. by rewrite <- !app_assoc.
Qed.

End PipelineProperties.

(** ** Programs only add to the trace *)

Section TraceGrows.
Context `{Host}.
Local Open Scope prog_scope.

Lemma grows_ret {A} (a : A) : grows (ret a).
Proof. by intros s. Qed.

Lemma grows_throw {A} (e : Error) : grows (@throw _ A e).
Proof. by intros s. Qed.

Lemma grows_bind {A B} (m : Prog A) (k : A → Prog B) :
  grows m → (∀ a, grows (k a)) → grows (bind m k).
Proof.
  intros Hm Hk s. unfold bind. specialize (Hm s).
  destruct (m s) as [[a|e] s1]; simpl in *; [|done].
  etrans; [apply Hm|apply Hk].
Qed.

Lemma grows_call c : grows (call c).
Proof. intros s. rewrite call_trace. by apply prefix_app_r. Qed.

Lemma grows_perform c : grows (perform c).
Proof. apply grows_bind; [apply grows_call|intros; apply grows_ret]. Qed.

Lemma grows_lift {A} (o : Outcome A) : grows (lift o).
Proof. destruct o; [apply grows_ret|apply grows_throw]. Qed.

Lemma grows_when cond m : grows m → grows (when cond m).
Proof. destruct cond; [done|intros; apply grows_ret]. Qed.

Lemma grows_for_each {A} (items : list A) body :
  (∀ item, grows (body item)) → grows (for_each items body).
Proof.
  intros Hbody. induction items as [|item rest IH]; simpl.
  - apply grows_ret.
  - apply grows_bind; [apply Hbody|by intros].
Qed.

Lemma grows_try_catch {A} (m : Prog A) handler :
  grows m → (∀ e, grows (handler e)) → grows (try_catch m handler).
Proof.
  intros Hm Hh s. unfold try_catch. specialize (Hm s).
  destruct (m s) as [[a|e] s1]; simpl in *; [done|].
  etrans; [apply Hm|apply Hh].
Qed.

Create HintDb grows.
#[local] Hint Resolve grows_ret grows_throw grows_call grows_perform grows_lift : grows.

Ltac grows_step :=
  match goal with
  | |- grows (call ?c) => exact (grows_call c)
  | |- grows (perform ?c) => exact (grows_perform c)
  | |- grows (bind _ _) => apply grows_bind; [|intros]
  | |- grows (when _ _) => apply grows_when
  | |- grows (for_each _ _) => apply grows_for_each; intros
  | |- grows (try_catch _ _) => apply grows_try_catch; [|intros]
  | |- grows (if ?b then _ else _) => destruct b
  | |- grows (match ?x with _ => _ end) => destruct x
  | |- grows (let _ := _ in _) => cbv zeta
  | |- grows _ => solve [auto with grows]
  end.

Lemma grows_readJson this pageTitle : grows (readJson this pageTitle).
Proof. unfold readJson, getContext. repeat grows_step. Qed.

Lemma grows_find_by_selectors selectors otherwise :
  grows otherwise → grows (find_by_selectors selectors otherwise).
Proof.
  intros Ho. induction selectors as [|selector rest IH]; simpl; [done|].
  repeat grows_step; done.
Qed.

Lemma grows_findLine info index : grows (findLine info index).
Proof. unfold findLine. apply grows_find_by_selectors. repeat grows_step. Qed.

Lemma grows_focusLine line : grows (focusLine line).
Proof. unfold focusLine. repeat grows_step. Qed.

#[local] Hint Resolve grows_readJson grows_findLine grows_focusLine : grows.

Lemma grows_deleteLines index count lines : grows (deleteLines index count lines).
Proof. unfold deleteLines, selectAll. repeat grows_step. Qed.

Lemma grows_insertLines_page index insertLines lines removedCount :
  grows (insertLines_page index insertLines lines removedCount).
Proof. unfold insertLines_page, moveToStart, moveToEnd. repeat grows_step. Qed.

#[local] Hint Resolve grows_deleteLines grows_insertLines_page : grows.

Lemma grows_applyOps ops lines : grows (applyOps ops lines).
Proof. unfold applyOps. repeat grows_step. Qed.

Lemma grows_closeAndVerify this pageTitle newText :
  grows (closeAndVerify this pageTitle newText).
Proof. unfold closeAndVerify. repeat grows_step. Qed.

(** What follows a call starts with that call in the trace. *)
Lemma trace_after_perform {A} c (k : Prog A) s :
  grows k → ∃ rest, trace (bind (perform c) (fun _ => k) s).2 = trace s ++ c :: rest.
Proof.
  intros Hk. unfold bind at 1. pose proof (perform_trace c s) as Hc.
  destruct (perform c s) as [[[]|e] s1]; simpl in *.
  - destruct (Hk s1) as [rest Hrest]. exists rest.
    rewrite Hrest, Hc, <- app_assoc. done.
  - exists []. done.
Qed.

End TraceGrows.

(** * [patch]: the properties of the specification *)

Section PatchProperties.
Context `{Host}.
Local Open Scope prog_scope.

Lemma plan_unchanged changes index :
  Forall unchanged changes → plan changes index = [].
Proof.
  intros Hall. revert index.
  induction Hall as [|part rest [Hadd Hrem] _ IH]; intros index; simpl; [done|].
  by rewrite Hadd, Hrem.
Qed.

Lemma recheckUpdated_same this pageTitle baseUpdated s latest s' :
  readJson this pageTitle s = (Ok latest, s') → updated latest = baseUpdated →
  recheckUpdated this pageTitle baseUpdated s = (Ok tt, s').
Proof.
  intros Hread Hsame. unfold recheckUpdated.
  rewrite (bind_ok _ _ _ _ _ Hread). by rewrite bool_decide_eq_false_2 by tauto.
Qed.

Lemma recheckUpdated_differs this pageTitle baseUpdated s latest s' :
  readJson this pageTitle s = (Ok latest, s') → updated latest ≠ baseUpdated →
  recheckUpdated this pageTitle baseUpdated s = (Thrown UpdatedMismatch, s').
Proof.
  intros Hread Hdiff. unfold recheckUpdated.
  rewrite (bind_ok _ _ _ _ _ Hread). by rewrite bool_decide_eq_true_2.
Qed.

(** [patch] up to the point where the target text is known. *)
Lemma patch_after_apply this pageTitle diffText opts s pageJson s1 first others newText :
  readJson this pageTitle s = (Ok pageJson, s1) →
  parsePatch diffText = Returned (first :: others) →
  applyPatch (linesToText (extractLines pageJson)) first (default 0%Z (fuzz opts))
  = Returned (Some newText) →
  patch this pageTitle diffText opts s
  = (if truthy (dryRun opts) then ret (Some newText)
     else
       when (truthy (checkUpdated opts))
         (recheckUpdated this pageTitle (updated pageJson)) ;;
       if bool_decide (length (buildOps (linesToText (extractLines pageJson)) newText) = 0)
       then ret None
       else
         getContext this ;;
         openPage this pageTitle opts ;;
         internal <- tryInternalPatch (splitLines newText) ;;
         when (negb internal)
           (slowPath (buildOps (linesToText (extractLines pageJson)) newText)
              (extractLines pageJson)) ;;
         closeAndVerify this pageTitle newText) s1.
Proof.
  intros Hread Hparse Happly. unfold patch.
  rewrite (bind_ok _ _ _ _ _ Hread). cbv beta zeta.
  rewrite (bind_ok _ _ _ _ _ (parseFirstPatch_ok _ _ _ _ Hparse)).
  rewrite (bind_ok _ _ _ _ _ (lift_returned _ _ _ Happly)).
  destruct (truthy (dryRun opts)); [done|].
  unfold openPage, slowPath, closeAndVerify, recheckUpdated, bind. cbv beta.
  destruct (when _ _ s1) as [[[]|e] s2]; [|done].
  case_bool_decide; [done|].
  destruct (getContext this s2) as [[[]|e] s3]; [|done].
  destruct (perform NewPage s3) as [[[]|e] s4]; [|done].
  destruct (perform (Goto _) s4) as [[[]|e] s5]; [|done].
  destruct (perform (WaitForSelector _) s5) as [[[]|e] s6]; [|done].
  destruct (when _ _ s6) as [[[]|e] s7]; [|done].
  destruct (tryInternalPatch _ s7) as [[internal|e] s8]; [|done].
  destruct internal; simpl; [done|].
  by destruct (perform (ClickSelector _) s8) as [[[]|e] s9].
Qed.

(** C6.  With [dryRun] set, when the read of the page, the parsing of the
    diff and the application of its first patch to the original text under
    the fuzz factor succeed, [patch] returns the text so computed; the one
    call it has made is the read of the page, the world is where that read
    left it, and no call that writes to the document was made. *)
Theorem patch_dry_run_returns_target this pageTitle diffText opts s
    pageJson s1 first others newText :
  readJson this pageTitle s = (Ok pageJson, s1) →
  parsePatch diffText = Returned (first :: others) →
  applyPatch (linesToText (extractLines pageJson)) first (default 0%Z (fuzz opts))
  = Returned (Some newText) →
  truthy (dryRun opts) = true →
  patch this pageTitle diffText opts s = (Ok (Some newText), s1) ∧
  trace s1 = trace s ++ [HttpGet (apiUrl this pageTitle)] ∧
  world s1 = (respond (HttpGet (apiUrl this pageTitle)) (world s)).2 ∧
  Forall (fun c => mutating c = false) [HttpGet (apiUrl this pageTitle)].
Proof.
  intros Hread Hparse Happly Hdry.
  rewrite (patch_after_apply _ _ _ _ _ _ _ _ _ _ Hread Hparse Happly), Hdry.
  destruct (readJson_ok _ _ _ _ _ Hread) as (_ & Htrace & Hworld).
  repeat split; try done. by constructor.
Qed.

(** C7.  With [checkUpdated] set and [dryRun] not set, when the page read
    again after the target text is computed carries a revision marker that
    differs from the one of the first read, [patch] fails with the error of
    the updated mismatch; the two reads are the only calls made, so nothing
    was done to the document. *)
Theorem patch_fails_on_updated_mismatch this pageTitle diffText opts s
    pageJson s1 first others newText latest s2 :
  readJson this pageTitle s = (Ok pageJson, s1) →
  parsePatch diffText = Returned (first :: others) →
  applyPatch (linesToText (extractLines pageJson)) first (default 0%Z (fuzz opts))
  = Returned (Some newText) →
  truthy (dryRun opts) = false →
  truthy (checkUpdated opts) = true →
  readJson this pageTitle s1 = (Ok latest, s2) →
  updated latest ≠ updated pageJson →
  patch this pageTitle diffText opts s = (Thrown UpdatedMismatch, s2) ∧
  trace s2 = trace s ++ [HttpGet (apiUrl this pageTitle); HttpGet (apiUrl this pageTitle)] ∧
  Forall (fun c => mutating c = false) (drop (length (trace s)) (trace s2)).
Proof.
  intros Hread Hparse Happly Hdry Hcheck Hlatest Hdiff.
  rewrite (patch_after_apply _ _ _ _ _ _ _ _ _ _ Hread Hparse Happly), Hdry, Hcheck.
  simpl. rewrite (bind_thrown _ _ _ _ _ (recheckUpdated_differs _ _ _ _ _ _ Hlatest Hdiff)).
  destruct (readJson_ok _ _ _ _ _ Hread) as (_ & Ht1 & _).
  destruct (readJson_ok _ _ _ _ _ Hlatest) as (_ & Ht2 & _).
  assert (Ht : trace s2
             = trace s ++ [HttpGet (apiUrl this pageTitle); HttpGet (apiUrl this pageTitle)]).
  { rewrite Ht2, Ht1, <- app_assoc. done. }
  split; [done|]. split; [done|].
  rewrite Ht, drop_app_length. by repeat constructor.
Qed.

(** C5.  When the target text computed from the diff is the original text
    and [diffLines] answers equal texts with unchanged parts only, [buildOps]
    returns no operation; and, [dryRun] not being set and the staleness check
    being off or passed, [patch] returns nothing having made no call but its
    one or two reads of the page: no page is opened, no step of the fast or
    of the slow path is made. *)
Theorem patch_without_changes_touches_nothing this pageTitle diffText opts s
    pageJson s1 first others s2 :
  readJson this pageTitle s = (Ok pageJson, s1) →
  parsePatch diffText = Returned (first :: others) →
  applyPatch (linesToText (extractLines pageJson)) first (default 0%Z (fuzz opts))
  = Returned (Some (linesToText (extractLines pageJson))) →
  Forall unchanged
    (diffLines (linesToText (extractLines pageJson)) (linesToText (extractLines pageJson))) →
  truthy (dryRun opts) = false →
  (if truthy (checkUpdated opts)
   then ∃ latest, readJson this pageTitle s1 = (Ok latest, s2)
                  ∧ updated latest = updated pageJson
   else s2 = s1) →
  buildOps (linesToText (extractLines pageJson)) (linesToText (extractLines pageJson)) = [] ∧
  patch this pageTitle diffText opts s = (Ok None, s2) ∧
  ∃ reads, trace s2 = trace s ++ reads ∧
           Forall (fun c => c = HttpGet (apiUrl this pageTitle)) reads.
Proof.
  intros Hread Hparse Happly Hsame Hdry Hcheck.
  assert (Hops : buildOps (linesToText (extractLines pageJson))
                          (linesToText (extractLines pageJson)) = []).
  { unfold buildOps. rewrite buildOps_from_plan. by apply plan_unchanged. }
  split; [done|].
  rewrite (patch_after_apply _ _ _ _ _ _ _ _ _ _ Hread Hparse Happly), Hdry, Hops.
  destruct (readJson_ok _ _ _ _ _ Hread) as (_ & Ht1 & _).
  destruct (truthy (checkUpdated opts)); simpl.
  - destruct Hcheck as (latest & Hlatest & Hupd).
    rewrite (bind_ok _ _ _ _ _ (recheckUpdated_same _ _ _ _ _ _ Hlatest Hupd)).
    split; [done|].
    destruct (readJson_ok _ _ _ _ _ Hlatest) as (_ & Ht2 & _).
    exists [HttpGet (apiUrl this pageTitle); HttpGet (apiUrl this pageTitle)].
    rewrite Ht2, Ht1, <- app_assoc. split; [done|]. by repeat constructor.
  - subst s2. split; [done|].
    exists [HttpGet (apiUrl this pageTitle)]. split; [done|]. by repeat constructor.
Qed.

(** A dry run ends before the second read. *)
Lemma patch_dry_run_cases this pageTitle diffText opts s r s' :
  truthy (dryRun opts) = true →
  patch this pageTitle diffText opts s = (r, s') →
  r ≠ Thrown UpdatedMismatch ∧
  (trace s' = trace s ∨ trace s' = trace s ++ [HttpGet (apiUrl this pageTitle)]).
Proof.
  intros Hdry. unfold patch. intros Hrun.
  apply bind_cases in Hrun as [(pageJson & s1 & Hread & Hrun)|(e & Hread & ->)].
  - destruct (readJson_ok _ _ _ _ _ Hread) as (_ & Htrace & _).
    cbv beta zeta in Hrun.
    apply bind_cases in Hrun as [(first & s2 & Hparse & Hrun)|(e & Hparse & ->)].
    + destruct (parseFirstPatch_cases diffText s1) as (r1 & Hr1 & _).
      rewrite Hparse in Hr1. injection Hr1 as _ <-.
      apply bind_cases in Hrun as [(applied & s3 & Happly & Hrun)|(e & Happly & ->)].
      * unfold lift in Happly. destruct (applyPatch _ _ _) as [x|e]; [|done].
        injection Happly as -> <-.
        destruct applied as [newText|].
        -- rewrite Hdry in Hrun. injection Hrun as <- <-. split; [done|by right].
        -- injection Hrun as <- <-. split; [done|by right].
      * unfold lift in Happly. destruct (applyPatch _ _ _) as [x|e']; [done|].
        injection Happly as <- <-. split; [done|by right].
    + destruct (parseFirstPatch_cases diffText s1) as (r1 & Hr1 & Hne).
      rewrite Hparse in Hr1. injection Hr1 as <- <-.
      split; [intros [= ->]; by apply Hne|by right].
  - destruct (readJson_cases _ _ _ _ _ Hread) as [Hne Htrace].
    split; [intros [= ->]; by apply Hne|done].
Qed.

(** C10.  With [dryRun] set, whatever [checkUpdated] says and however the
    world answers, [patch] does not end with the error of the updated
    mismatch, and it reads the page at most once: its trace gains nothing or
    the one read. *)
Theorem patch_dry_run_skips_staleness_check this pageTitle diffText
    fuzz_ checkUpdated_ waitMs_ debug_ s :
  (patch this pageTitle diffText
     {| fuzz := fuzz_; checkUpdated := checkUpdated_; waitMs := waitMs_;
        debug := debug_; dryRun := Some true |} s).1 ≠ Thrown UpdatedMismatch ∧
  (trace (patch this pageTitle diffText
            {| fuzz := fuzz_; checkUpdated := checkUpdated_; waitMs := waitMs_;
               debug := debug_; dryRun := Some true |} s).2 = trace s
   ∨ trace (patch this pageTitle diffText
              {| fuzz := fuzz_; checkUpdated := checkUpdated_; waitMs := waitMs_;
                 debug := debug_; dryRun := Some true |} s).2
     = trace s ++ [HttpGet (apiUrl this pageTitle)]).
Proof.
  destruct (patch _ _ _ _ s) as [r s'] eqn:Hpatch. simpl.
  eapply patch_dry_run_cases; [|exact Hpatch]. done.
Qed.

(** C8.  [tryInternalPatch] never ends with an error.  When the page script
    raises an exception, wherever it does, or finds the three methods of the
    bridge absent, the attempt answers [false]; and [patch], having come as
    far as the attempt, then clicks the editor and runs [applyOps] from the
    state the attempt left, before it closes the page and verifies. *)
Theorem patch_falls_back_to_slow_path this pageTitle diffText opts s
    pageJson s1 first others newText s2 s_open s_fast :
  readJson this pageTitle s = (Ok pageJson, s1) →
  parsePatch diffText = Returned (first :: others) →
  applyPatch (linesToText (extractLines pageJson)) first (default 0%Z (fuzz opts))
  = Returned (Some newText) →
  truthy (dryRun opts) = false →
  when (truthy (checkUpdated opts))
    (recheckUpdated this pageTitle (updated pageJson)) s1 = (Ok tt, s2) →
  buildOps (linesToText (extractLines pageJson)) newText ≠ [] →
  openPage this pageTitle opts s2 = (Ok tt, s_open) →
  ((∃ e, internalPatch_script (splitLines newText) s_open = (Thrown e, s_fast)) ∨
   (∃ w, respond ProbeBridge (world s_open) = (Returned false, w) ∧
         s_fast = {| world := w; trace := trace s_open ++ [ProbeBridge] |})) →
  (∀ newLines s0, ∃ internal s0', tryInternalPatch newLines s0 = (Ok internal, s0')) ∧
  tryInternalPatch (splitLines newText) s_open = (Ok false, s_fast) ∧
  patch this pageTitle diffText opts s
  = (slowPath (buildOps (linesToText (extractLines pageJson)) newText)
       (extractLines pageJson) ;;
     closeAndVerify this pageTitle newText) s_fast ∧
  ∃ rest, trace (patch this pageTitle diffText opts s).2
          = trace s_fast ++ ClickSelector "#editor" :: rest.
Proof.
  intros Hread Hparse Happly Hdry Hcheck Hops Hopen Hfast.
  split; [apply tryInternalPatch_total|].
  assert (Htry : tryInternalPatch (splitLines newText) s_open = (Ok false, s_fast)).
  { destruct Hfast as [[e He]|(w & Hw & ->)].
    - by apply (tryInternalPatch_thrown _ _ e).
    - apply tryInternalPatch_returned. by apply internalPatch_script_absent. }
  split; [done|].
  assert (Hpatch : patch this pageTitle diffText opts s
            = (slowPath (buildOps (linesToText (extractLines pageJson)) newText)
                 (extractLines pageJson) ;;
               closeAndVerify this pageTitle newText) s_fast).
  { rewrite (patch_after_apply _ _ _ _ _ _ _ _ _ _ Hread Hparse Happly), Hdry.
    rewrite (bind_ok _ _ _ _ _ Hcheck).
    rewrite bool_decide_eq_false_2
      by (destruct (buildOps _ newText); [done|simpl; lia]).
    destruct (readJson_ok _ _ _ _ _ Hread) as (Hctx & _).
    unfold getContext. rewrite Hctx.
    unfold bind at 1. unfold ret at 1.
    rewrite (bind_ok _ _ _ _ _ Hopen), (bind_ok _ _ _ _ _ Htry). done. }
  split; [done|].
  rewrite Hpatch. unfold slowPath.
  assert (Hassoc : ∀ s0,
    ((perform (ClickSelector "#editor") ;;
      applyOps (buildOps (linesToText (extractLines pageJson)) newText)
        (extractLines pageJson)) ;;
     closeAndVerify this pageTitle newText) s0
    = (perform (ClickSelector "#editor") ;;
       (applyOps (buildOps (linesToText (extractLines pageJson)) newText)
          (extractLines pageJson) ;;
        closeAndVerify this pageTitle newText)) s0).
  { intros s0. unfold bind.
    by destruct (perform (ClickSelector "#editor") s0) as [[[]|e] s']. }
  rewrite Hassoc. apply trace_after_perform.
  apply grows_bind; [apply grows_applyOps|intros; apply grows_closeAndVerify].
Qed.

End PatchProperties.

(** * The fast path on the document *)

Lemma run_bridge_app calls1 calls2 doc :
  run_bridge (calls1 ++ calls2) doc = run_bridge calls2 (run_bridge calls1 doc).
Proof. apply foldl_app. Qed.

Lemma run_bridge_overlap (current lines : list string) upto :
  upto ≤ length lines → upto ≤ length current →
  run_bridge (overlap_updates current lines upto) current
  = take upto lines ++ drop upto current.
Proof.
  unfold overlap_updates. induction upto as [|k IH]; intros Hl Hc; [done|].
  rewrite seq_S, flat_map_app, run_bridge_app, IH by lia. simpl.
  destruct (lookup_lt_is_Some_2 lines k) as [x Hx]; [lia|].
  destruct (lookup_lt_is_Some_2 current k) as [y Hy]; [lia|].
  rewrite Hx, Hy, (take_S_r _ _ _ Hx), (drop_S _ _ _ Hy), <- app_assoc. simpl.
  case_bool_decide as Hxy; simpl.
  - rewrite insert_app_r_alt by (rewrite length_take; lia).
    rewrite length_take, Nat.min_l, Nat.sub_diag by lia. done.
  - by injection Hxy as ->.
Qed.

Lemma run_bridge_append (lines : list string) start count :
  start + count ≤ length lines →
  run_bridge ((fun i => InsertLine (default EmptyString (lines !! i)) i) <$> seq start count)
    (take start lines)
  = take (start + count) lines.
Proof.
  induction count as [|j IH]; intros Hl.
  - by rewrite Nat.add_0_r.
  - rewrite seq_S, fmap_app, run_bridge_app, IH by lia. simpl.
    destruct (lookup_lt_is_Some_2 lines (start + j)) as [x Hx]; [lia|].
    rewrite Hx. simpl.
    rewrite take_ge, drop_ge by (rewrite length_take; lia).
    rewrite Nat.add_succ_r. by rewrite (take_S_r _ _ _ Hx).
Qed.

Lemma run_bridge_blank count : ∀ (pre excess : list string),
  length excess = count →
  run_bridge ((fun i => UpdateLine EmptyString i) <$> reverse (seq (length pre) count))
    (pre ++ excess)
  = pre ++ replicate count EmptyString.
Proof.
  induction count as [|d IH]; intros pre excess Hlen.
  - destruct excess; [done|simpl in Hlen; lia].
  - destruct excess as [|y excess]; [simpl in Hlen; lia|].
    simpl seq. rewrite reverse_cons, fmap_app, run_bridge_app.
    replace (S (length pre)) with (length (pre ++ [y])) by (rewrite length_app; simpl; lia).
    replace (pre ++ y :: excess) with ((pre ++ [y]) ++ excess) by (by rewrite <- app_assoc).
    rewrite IH by (simpl in Hlen; lia). simpl.
    rewrite <- app_assoc. simpl.
    rewrite insert_app_r_alt by lia. by rewrite Nat.sub_diag.
Qed.

Lemma internalPatch_calls_overlap current lines :
  internalPatch_calls current lines
  = overlap_updates current lines (length current `min` length lines)
    ++ (if bool_decide (length current < length lines) then
          (fun i => InsertLine (default EmptyString (lines !! i)) i)
            <$> seq (length current) (length lines - length current)
        else if bool_decide (length lines < length current) then
          (fun i => UpdateLine EmptyString i)
            <$> reverse (seq (length lines) (length current - length lines))
        else []).
Proof. done. Qed.

(** After the calls of the script the document holds the target lines, and
    behind them one blank line for every line the document had in excess. *)
Lemma run_bridge_internalPatch_calls current lines :
  run_bridge (internalPatch_calls current lines) current
  = lines ++ replicate (length current - length lines) EmptyString.
Proof.
  rewrite internalPatch_calls_overlap, run_bridge_app, run_bridge_overlap by lia.
  repeat case_bool_decide.
  - rewrite Nat.min_l, (drop_ge current), app_nil_r by lia.
    rewrite run_bridge_append by lia.
    replace (length current - length lines) with 0 by lia.
    rewrite take_ge by lia. by rewrite app_nil_r.
  - rewrite Nat.min_r, (take_ge lines) by lia.
    apply run_bridge_blank. rewrite length_drop. lia.
  - replace (length current - length lines) with 0 by lia.
    rewrite take_ge, drop_ge by lia. done.
Qed.

Lemma elem_of_overlap_updates current lines upto c :
  upto ≤ length lines →
  c ∈ overlap_updates current lines upto ↔
  ∃ i text, c = UpdateLine text i ∧ i < upto ∧ lines !! i = Some text
            ∧ current !! i ≠ Some text.
Proof.
  intros Hupto. unfold overlap_updates. rewrite list_elem_of_In, in_flat_map. split.
  - intros (i & Hi & Hc). apply list_elem_of_In, elem_of_seq in Hi.
    case_bool_decide as Hne; [|by destruct Hc].
    destruct Hc as [<-|[]].
    destruct (lookup_lt_is_Some_2 lines i) as [text Hl]; [lia|].
    exists i, text. rewrite Hl in Hne |- *. simpl.
    split_and!; [done|lia|done|congruence].
  - intros (i & text & -> & Hi & Hl & Hc). exists i. split.
    + apply list_elem_of_In, elem_of_seq. lia.
    + rewrite Hl. simpl. rewrite bool_decide_eq_true_2 by congruence. by left.
Qed.

Lemma length_run_bridge_internalPatch_calls current lines :
  length (run_bridge (internalPatch_calls current lines) current)
  = length current `max` length lines.
Proof.
  rewrite run_bridge_internalPatch_calls, length_app, length_replicate. lia.
Qed.

(** C9.  When the target has fewer lines than the document, the script sets
    to the empty text every line from the length of the target to the last
    line of the document; every call it makes is an update of a line the
    document has, so that no line is inserted or removed and the document
    keeps its length, the greater of the two; the document then holds the
    target lines followed by blank lines; and on the common range a line is
    updated, to the text of the target, exactly when its text differs. *)
Theorem fast_path_blanks_excess_lines (current lines : list string) :
  length lines < length current →
  (∀ i, length lines ≤ i < length current →
     UpdateLine EmptyString i ∈ internalPatch_calls current lines) ∧
  (∀ c, c ∈ internalPatch_calls current lines →
     (∃ text i, c = UpdateLine text i ∧ i < length current) ∧
     ∀ doc, length (bridge_effect c doc) = length doc) ∧
  run_bridge (internalPatch_calls current lines) current
  = lines ++ replicate (length current - length lines) EmptyString ∧
  length (run_bridge (internalPatch_calls current lines) current)
  = length current `max` length lines ∧
  (∀ i text, i < length lines →
     UpdateLine text i ∈ internalPatch_calls current lines ↔
     lines !! i = Some text ∧ current !! i ≠ Some text).
Proof.
  intros Hshrink.
  assert (Hcalls : internalPatch_calls current lines
            = overlap_updates current lines (length lines)
              ++ ((fun i => UpdateLine EmptyString i)
                    <$> reverse (seq (length lines) (length current - length lines)))).
  { rewrite internalPatch_calls_overlap, Nat.min_r by lia.
    rewrite bool_decide_eq_false_2, bool_decide_eq_true_2 by lia. done. }
  assert (Hblank : ∀ c,
            c ∈ (fun i => UpdateLine EmptyString i)
                  <$> reverse (seq (length lines) (length current - length lines)) ↔
            ∃ i, c = UpdateLine EmptyString i ∧ length lines ≤ i < length current).
  { intros c. rewrite list_elem_of_fmap. setoid_rewrite elem_of_reverse.
    setoid_rewrite elem_of_seq. split; intros (i & ? & ?); exists i; split; (done || lia). }
  split_and!.
  - intros i Hi. rewrite Hcalls, elem_of_app, Hblank. right. by exists i.
  - intros c. rewrite Hcalls, elem_of_app, Hblank, elem_of_overlap_updates by lia.
    intros [(i & text & -> & Hi & _)|(i & -> & Hi)]; (split; [|intros doc; apply length_insert]).
    + exists text, i. split; [done|lia].
    + exists EmptyString, i. split; [done|lia].
  - apply run_bridge_internalPatch_calls.
  - apply length_run_bridge_internalPatch_calls.
  - intros i text Hi.
    rewrite Hcalls, elem_of_app, Hblank, elem_of_overlap_updates by lia. split.
    + intros [(j & text' & [= -> ->] & _ & Hl & Hc)|(j & [= -> ->] & Hj)]; [done|lia].
    + intros [Hl Hc]. left. by exists i, text.
Qed.

(** Four lines brought to two: the last two are blanked. *)
Lemma fast_path_blanks_excess_lines_witness :
  run_bridge (internalPatch_calls ["a"; "b"; "c"; "d"] ["a"; "x"]) ["a"; "b"; "c"; "d"]
  = ["a"; "x"; ""; ""].
Proof.
  destruct (fast_path_blanks_excess_lines ["a"; "b"; "c"; "d"] ["a"; "x"])
    as (_ & _ & Hdoc & _); [simpl; lia|].
  exact Hdoc.
Defined.

(** * Runs against the simulated host *)

(** A dry run on a page that another writer keeps changing. *)
Lemma patch_dry_run_returns_target_witness :
  (@patch sim_host sim_client "page" text_axc opts_dry_run
     (sim_start ["a"; "b"; "c"] true true)).1
  = Ok (Some text_axc).
Proof.
  edestruct (@patch_dry_run_returns_target sim_host sim_client "page" text_axc opts_dry_run
               (sim_start ["a"; "b"; "c"] true true)) as [Hpatch _].
  5: by rewrite Hpatch.
  all: reflexivity.
Defined.

(** The same page patched for good with the staleness check on. *)
Lemma patch_fails_on_updated_mismatch_witness :
  (@patch sim_host sim_client "page" text_axc opts_checked
     (sim_start ["a"; "b"; "c"] true true)).1
  = Thrown UpdatedMismatch.
Proof.
  edestruct (@patch_fails_on_updated_mismatch sim_host sim_client "page" text_axc
               opts_checked (sim_start ["a"; "b"; "c"] true true)) as [Hpatch _].
  8: by rewrite Hpatch.
  1-6: reflexivity.
  done.
Defined.

(** A diff that leaves a quiet page as it is. *)
Lemma patch_without_changes_touches_nothing_witness :
  (@patch sim_host sim_client "page" text_abc opts_checked
     (sim_start ["a"; "b"; "c"] true false)).1
  = Ok None.
Proof.
  edestruct (@patch_without_changes_touches_nothing sim_host sim_client "page" text_abc
               opts_checked (sim_start ["a"; "b"; "c"] true false)) as (_ & Hpatch & _).
  7: by rewrite Hpatch.
  1-3: reflexivity.
  - by repeat constructor.
  - reflexivity.
  - simpl. eexists. split; reflexivity.
Defined.

(** A host without the bridge: the editor is clicked. *)
Lemma patch_falls_back_to_slow_path_witness :
  ClickSelector "#editor"
  ∈ trace (@patch sim_host sim_client "page" text_axc opts_plain
             (sim_start ["a"; "b"; "c"] false false)).2.
Proof.
  edestruct (@patch_falls_back_to_slow_path sim_host sim_client "page" text_axc opts_plain
               (sim_start ["a"; "b"; "c"] false false)) as (_ & _ & _ & rest & Hrest).
  1-5: reflexivity.
  - by vm_compute.
  - reflexivity.
  - right. eexists. split; reflexivity.
  - rewrite Hrest, elem_of_app, elem_of_cons. tauto.
Defined.

(** * The rest of the code

    What follows covers the code that the properties of the specification
    leave aside: the round trip of [splitLines] and [linesToText], the planner
    and the grouping on every answer of the line diff, the calls, keys and
    texts of the slow path, every run of the fast path and of [patch], the
    command line of [src/cli.ts], [normalizeHost] and [append]. *)

(** * The lines of a text *)

(** ** Splitting and joining *)

Lemma join_newline_cons line next rest :
  join_newline (line :: next :: rest) = line +:+ NL +:+ join_newline (next :: rest).
Proof. done. Qed.

Lemma string_app_assoc (a b c : string) : (a +:+ b) +:+ c = a +:+ (b +:+ c).
Proof.
  induction a as [|x a IH]; [done|].
  change (String x ((a +:+ b) +:+ c) = String x (a +:+ (b +:+ c))). by rewrite IH.
Qed.

Lemma join_newline_String c piece pieces :
  join_newline (String c piece :: pieces) = String c (join_newline (piece :: pieces)).
Proof. by destruct pieces. Qed.

Lemma join_split_newline value : join_newline (split_newline value) = value.
Proof.
  induction value as [|c rest IH]; [done|]. simpl.
  case_decide as Hc.
  - subst c. destruct (split_newline rest) as [|piece pieces] eqn:Hs.
    + by destruct (split_newline_nonempty rest).
    + rewrite join_newline_cons, IH. done.
  - destruct (split_newline rest) as [|piece pieces] eqn:Hs.
    + by destruct (split_newline_nonempty rest).
    + by rewrite join_newline_String, IH.
Qed.

Lemma string_app_String c (a b : string) : String c a +:+ b = String c (a +:+ b).
Proof. done. Qed.

Lemma string_app_empty (a : string) : EmptyString +:+ a = a.
Proof. done. Qed.

Lemma split_newline_line line rest :
  has_newline line = false →
  split_newline (line +:+ NL +:+ rest) = line :: split_newline rest.
Proof.
  induction line as [|c line IH].
  - intros _. unfold NL. rewrite string_app_empty, string_app_String, string_app_empty.
    done.
  - intros Hl. simpl in Hl. destruct (decide (c = LF)) as [|Hc]; [done|].
    rewrite string_app_String. simpl. rewrite decide_False by done. by rewrite IH.
Qed.

Lemma split_newline_single line :
  has_newline line = false → split_newline line = [line].
Proof.
  induction line as [|c line IH]; simpl; [done|].
  case_decide; [done|]. intros Hl. by rewrite IH.
Qed.

Lemma split_join_newline lines :
  lines ≠ [] → Forall (fun line => has_newline line = false) lines →
  split_newline (join_newline lines) = lines.
Proof.
  intros Hne Hall. induction Hall as [|line rest Hline Hrest IH]; [done|].
  destruct rest as [|next rest].
  - by apply split_newline_single.
  - rewrite join_newline_cons, split_newline_line by done. by rewrite IH.
Qed.

Lemma trim_last_snoc_empty pieces : trim_last (pieces ++ [EmptyString]) = pieces.
Proof.
  unfold trim_last. rewrite last_snoc, decide_True by done.
  rewrite length_app. simpl.
  replace (length pieces + 1 - 1) with (length pieces) by lia.
  apply take_app_length.
Qed.

Lemma trim_last_keep pieces : last pieces ≠ Some EmptyString → trim_last pieces = pieces.
Proof. intros Hl. unfold trim_last. by rewrite decide_False. Qed.

(** The lines of a snapshot come back from its text when no line holds the
    separator and the last line is not empty. *)
Lemma splitLines_join_newline lines :
  lines ≠ [] → Forall (fun line => has_newline line = false) lines →
  last lines ≠ Some EmptyString →
  splitLines (join_newline lines) = lines.
Proof.
  intros Hne Hall Hlast.
  rewrite splitLines_trim, split_join_newline by done. by apply trim_last_keep.
Qed.

(** An empty last line does not come back. *)
Lemma splitLines_join_newline_blank lines :
  Forall (fun line => has_newline line = false) lines →
  splitLines (join_newline (lines ++ [EmptyString])) = lines.
Proof.
  intros Hall. rewrite splitLines_trim, split_join_newline.
  - apply trim_last_snoc_empty.
  - by destruct lines.
  - apply Forall_app. split; [done|]. by repeat constructor.
Qed.

Lemma splitLines_separator rest :
  splitLines (String LF rest) = EmptyString :: splitLines rest.
Proof.
  rewrite !splitLines_trim. simpl.
  apply trim_last_cons, split_newline_nonempty.
Qed.

Lemma splitLines_empty_iff value : splitLines value = [] ↔ value = EmptyString.
Proof.
  split; [|by intros ->].
  destruct value as [|c rest]; [done|]. rewrite splitLines_trim. simpl.
  pose proof (split_newline_nonempty rest) as Hne.
  destruct (split_newline rest) as [|piece pieces]; [done|].
  case_decide.
  - by rewrite trim_last_cons.
  - destruct pieces as [|p ps]; [|by rewrite trim_last_cons].
    by rewrite trim_last_keep.
Qed.

Lemma ends_with_newline_String c rest :
  rest ≠ EmptyString → ends_with_newline (String c rest) = ends_with_newline rest.
Proof. by destruct rest. Qed.

Lemma splitLines_char c rest :
  c ≠ LF → rest ≠ EmptyString →
  ∃ piece pieces, splitLines rest = piece :: pieces ∧
                  splitLines (String c rest) = String c piece :: pieces.
Proof.
  intros Hc Hrest. rewrite !splitLines_trim. simpl. rewrite decide_False by done.
  pose proof (split_newline_nonempty rest) as Hne.
  destruct (split_newline rest) as [|piece pieces] eqn:Hs; [done|].
  destruct pieces as [|p ps].
  - assert (piece ≠ EmptyString).
    { intros ->. pose proof (join_split_newline rest) as Hj. rewrite Hs in Hj. done. }
    exists piece, []. by rewrite !trim_last_keep by (by simpl; intros [= ?]).
  - exists piece, (trim_last (p :: ps)). split; by apply trim_last_cons.
Qed.

(** What [splitLines] drops of a text is one final separator and nothing
    else. *)
Lemma join_splitLines value :
  join_newline (splitLines value)
    +:+ (if ends_with_newline value then NL else EmptyString)
  = value.
Proof.
  induction value as [|c rest IH]; [done|].
  destruct (decide (rest = EmptyString)) as [->|Hrest].
  - destruct (decide (c = LF)) as [->|Hc]; [done|].
    rewrite splitLines_trim. simpl. rewrite decide_False by done.
    rewrite (bool_decide_eq_false_2 (c = LF)) by done. done.
  - rewrite ends_with_newline_String by done.
    destruct (decide (c = LF)) as [->|Hc].
    + rewrite splitLines_separator.
      destruct (splitLines rest) as [|piece pieces] eqn:Hs.
      { by apply splitLines_empty_iff in Hs. }
      rewrite join_newline_cons, string_app_empty, string_app_assoc, IH. done.
    + destruct (splitLines_char c rest Hc Hrest) as (piece & pieces & Hs & ->).
      rewrite Hs in IH. rewrite join_newline_String, string_app_String, IH. done.
Qed.

Lemma string_length_app (a b : string) :
  String.length (a +:+ b) = String.length a + String.length b.
Proof.
  induction a as [|x a IH]; [done|]. rewrite string_app_String. simpl. by rewrite IH.
Qed.

(** ** The snapshot and its text *)

(** X1.  What [splitLines] drops of a text is one final separator and nothing
    else: its lines joined by the separator give the text back exactly when
    the text does not end with the separator, and it finds no line only in
    the empty text. *)
Theorem splitLines_drops_one_final_separator value :
  join_newline (splitLines value)
    +:+ (if ends_with_newline value then NL else EmptyString) = value ∧
  (join_newline (splitLines value) = value ↔ ends_with_newline value = false) ∧
  (splitLines value = [] ↔ value = EmptyString).
Proof.
  pose proof (join_splitLines value) as Hjoin.
  split_and!; [done| |apply splitLines_empty_iff].
  destruct (ends_with_newline value).
  - split; [|done]. intros Heq. rewrite Heq in Hjoin.
    apply (f_equal String.length) in Hjoin. rewrite string_length_app in Hjoin.
    simpl in Hjoin. lia.
  - by rewrite string_app_nil_r in Hjoin.
Qed.

(** X2.  On a snapshot that has a line, none of whose texts holds the
    separator and whose last text is not empty, the lines that [splitLines]
    finds in the text of [linesToText] are the texts of the snapshot, one for
    one: the indices of the operations of [buildOps] are indices of the
    snapshot that [applyOps] is given. *)
Theorem splitLines_linesToText_snapshot (lines : list LineInfo) :
  lines ≠ [] →
  Forall (fun line => has_newline (text line) = false) lines →
  text <$> last lines ≠ Some EmptyString →
  splitLines (linesToText lines) = text <$> lines.
Proof.
  intros Hne Hall Hlast. unfold linesToText. apply splitLines_join_newline.
  - by destruct lines.
  - by apply Forall_fmap.
  - by rewrite fmap_last.
Qed.

(** X3.  A snapshot whose last line is empty has one line more than
    [splitLines] finds in its text: the empty line at the end is no line of
    the original text for [buildOps]. *)
Theorem splitLines_linesToText_blank_end (lines : list LineInfo) (blank : LineInfo) :
  Forall (fun line => has_newline (text line) = false) lines →
  text blank = EmptyString →
  splitLines (linesToText (lines ++ [blank])) = text <$> lines.
Proof.
  intros Hall Hblank. unfold linesToText. rewrite fmap_app. simpl. rewrite Hblank.
  apply splitLines_join_newline_blank. by apply Forall_fmap.
Qed.

(** The snapshot of three lines. *)
Lemma splitLines_linesToText_snapshot_witness :
  splitLines (linesToText snapshot_abc) = ["a"; "b"; "c"].
Proof.
  apply (splitLines_linesToText_snapshot snapshot_abc).
  - done.
  - by repeat constructor.
  - done.
Defined.

(** The snapshot of three lines and an empty one. *)
Lemma splitLines_linesToText_blank_end_witness :
  splitLines (linesToText (snapshot_abc ++ [ {| id := None; text := EmptyString |} ]))
  = ["a"; "b"; "c"].
Proof.
  apply (splitLines_linesToText_blank_end snapshot_abc).
  - by repeat constructor.
  - reflexivity.
Defined.

(** ** The planner on every answer of the line diff *)

Lemma plan_removed_total changes index :
  removed_total (plan changes index) = length (removed_lines changes).
Proof.
  revert index. unfold removed_total, removed_lines.
  induction changes as [|part rest IH]; intros index; simpl; [done|].
  destruct (added part); [|destruct (removed part)]; simpl.
  - case_bool_decide; simpl; apply IH.
  - rewrite length_app. case_bool_decide as Hl; simpl; rewrite IH; [done|].
    destruct (part_lines part); [done|]. simpl in Hl. lia.
  - apply IH.
Qed.

Lemma plan_inserted_all changes index :
  inserted_all (plan changes index) = added_lines changes.
Proof.
  revert index. unfold inserted_all, added_lines.
  induction changes as [|part rest IH]; intros index; simpl; [done|].
  destruct (added part); [|destruct (removed part)]; simpl.
  - case_bool_decide as Hl; simpl; rewrite IH; [done|].
    destruct (part_lines part); [done|]. simpl in Hl. lia.
  - case_bool_decide; simpl; apply IH.
  - apply IH.
Qed.

Lemma ops_between_sorted lo ops hi :
  ops_between lo ops hi → StronglySorted le (op_index <$> ops).
Proof.
  revert lo. induction ops as [|op rest IH]; intros lo Hb; [constructor|].
  assert (Hrest : ∃ lo', op_index op ≤ lo' ∧ ops_between lo' rest hi).
  { destruct op as [i c|i ls]; simpl in Hb.
    - exists (i + c). split; [simpl; lia|tauto].
    - exists i. split; [done|tauto]. }
  destruct Hrest as (lo' & Hle & Hrest). simpl. constructor; [by eapply IH|].
  apply ops_between_Forall in Hrest.
  apply Forall_fmap. eapply Forall_impl; [exact Hrest|]. simpl. intros op' []. lia.
Qed.

Lemma ops_between_nonempty lo ops hi :
  ops_between lo ops hi → Forall op_nonempty ops.
Proof.
  intros Hb%ops_between_Forall. eapply Forall_impl; [exact Hb|].
  intros [i c|i ls] [_ Hfit]; simpl in *; [lia|].
  destruct ls; [simpl in Hfit; lia|done].
Qed.

Lemma split_newline_no_separator value :
  Forall (fun piece => has_newline piece = false) (split_newline value).
Proof.
  induction value as [|c rest IH]; simpl; [by repeat constructor|].
  case_decide as Hc.
  - by constructor.
  - destruct (split_newline rest) as [|piece pieces]; [|inversion IH; subst].
    + repeat constructor. simpl. by rewrite decide_False.
    + constructor; [|done]. simpl. by rewrite decide_False.
Qed.

Lemma splitLines_no_separator value :
  Forall (fun line => has_newline line = false) (splitLines value).
Proof.
  unfold splitLines. cbv zeta. case_decide.
  - apply Forall_take, split_newline_no_separator.
  - apply split_newline_no_separator.
Qed.

Lemma plan_inserts_no_separator changes index :
  Forall (fun op =>
      match op with
      | Insert _ lines => Forall (fun line => has_newline line = false) lines
      | Remove _ _ => True
      end)
    (plan changes index).
Proof.
  revert index. induction changes as [|part rest IH]; intros index; simpl; [constructor|].
  destruct (added part); [|destruct (removed part)].
  - apply Forall_app. split; [|apply IH].
    case_bool_decide; [|constructor]. repeat constructor. apply splitLines_no_separator.
  - apply Forall_app. split; [|apply IH]. case_bool_decide; by repeat constructor.
  - apply IH.
Qed.

Section PlannerOnEveryDiff.
Context `{LineDiff}.

(** X4.  Whatever [diffLines] answers, the operations of [buildOps] come in
    non-decreasing order of index, every removal removes at least one line and
    every insertion inserts at least one, and no operation reaches past the
    lines that the parts not added hold. *)
Theorem buildOps_ops_ordered_nonempty originalText newText :
  StronglySorted le (op_index <$> buildOps originalText newText) ∧
  Forall op_nonempty (buildOps originalText newText) ∧
  Forall (fun op =>
      match op with
      | Remove index count =>
          index + count ≤ length (old_lines (diffLines originalText newText))
      | Insert index _ => index ≤ length (old_lines (diffLines originalText newText))
      end)
    (buildOps originalText newText).
Proof.
  unfold buildOps. rewrite buildOps_from_plan.
  pose proof (plan_between (diffLines originalText newText) 0) as Hb. simpl in Hb.
  split_and!.
  - by eapply ops_between_sorted.
  - by eapply ops_between_nonempty.
  - apply ops_between_Forall in Hb. eapply Forall_impl; [exact Hb|].
    intros [i c|i ls] [_ Hfit]; simpl in *; lia.
Qed.

(** X5.  [buildOps] loses no line of the diff: the counts of its removals sum
    to the number of lines of the removed parts, and the lines of its
    insertions, in order, are the lines of the added parts. *)
Theorem buildOps_keeps_every_changed_line originalText newText :
  removed_total (buildOps originalText newText)
  = length (removed_lines (diffLines originalText newText)) ∧
  inserted_all (buildOps originalText newText)
  = added_lines (diffLines originalText newText).
Proof.
  unfold buildOps. rewrite buildOps_from_plan.
  split; [apply plan_removed_total|apply plan_inserted_all].
Qed.

(** X6.  [buildOps] returns no operation, so that [patch] returns before it
    opens a page, exactly when no added and no removed part of the diff holds
    a line. *)
Theorem buildOps_empty_iff originalText newText :
  buildOps originalText newText = [] ↔
  removed_lines (diffLines originalText newText) = [] ∧
  added_lines (diffLines originalText newText) = [].
Proof.
  unfold buildOps. rewrite buildOps_from_plan.
  generalize 0 as index. generalize (diffLines originalText newText) as changes.
  unfold removed_lines, added_lines.
  induction changes as [|part rest IH]; intros index; simpl; [done|].
  destruct (added part); [|destruct (removed part)]; simpl.
  - case_bool_decide as Hl; simpl.
    + split; [done|]. intros [_ Ha]. apply app_eq_nil in Ha as [Ha _].
      rewrite Ha in Hl. done.
    + rewrite IH. destruct (part_lines part); [done|]. simpl in Hl. lia.
  - case_bool_decide as Hl; simpl.
    + split; [done|]. intros [Hr _]. apply app_eq_nil in Hr as [Hr _].
      rewrite Hr in Hl. done.
    + rewrite IH. destruct (part_lines part); [done|]. simpl in Hl. lia.
  - apply IH.
Qed.

(** X7.  No line that [splitLines] finds holds the separator; so the lines of
    every insertion of [buildOps] hold none, and the one text that
    [insertLines] types for them, the lines joined by the separator, splits
    back into exactly these lines. *)
Theorem buildOps_insertions_survive_the_join originalText newText :
  (∀ value, Forall (fun line => has_newline line = false) (splitLines value)) ∧
  Forall (fun op =>
      match op with
      | Insert _ lines =>
          Forall (fun line => has_newline line = false) lines ∧
          split_newline (join_newline lines) = lines
      | Remove _ _ => True
      end)
    (buildOps originalText newText).
Proof.
  split; [apply splitLines_no_separator|].
  unfold buildOps. rewrite buildOps_from_plan.
  pose proof (plan_inserts_no_separator (diffLines originalText newText) 0) as Hclean.
  pose proof (ops_between_nonempty _ _ _ (plan_between (diffLines originalText newText) 0))
    as Hfull.
  rewrite Forall_forall in Hclean, Hfull. apply Forall_forall. intros op Hin.
  specialize (Hclean op Hin). specialize (Hfull op Hin).
  destruct op as [i c|i ls]; [done|]. simpl in *.
  split; [done|]. by apply split_join_newline.
Qed.

End PlannerOnEveryDiff.

(** ** What the grouping keeps *)

Lemma schedule_of_perm (groups : gmap nat OpGroup) :
  schedule_of groups ≡ₚ map_to_list groups.
Proof.
  unfold schedule_of. rewrite sorted_indices_perm, <- list_fmap_compose.
  match goal with
  | |- ?l ≡ₚ _ => enough (l = map_to_list groups) as -> by done
  end.
  rewrite <- (list_fmap_id (map_to_list groups)) at 2.
  apply Forall_fmap_ext_1, Forall_forall.
  intros [index group] Hin%elem_of_map_to_list. simpl. by rewrite Hin.
Qed.

Lemma sum_map_to_list_insert (f : OpGroup → nat) (groups : gmap nat OpGroup) index group :
  f {| removeCount := 0; insertLines := [] |} = 0 →
  sum_list_with (fun entry => f entry.2) (map_to_list (<[index := group]> groups))
    + f (default {| removeCount := 0; insertLines := [] |} (groups !! index))
  = sum_list_with (fun entry => f entry.2) (map_to_list groups) + f group.
Proof.
  intros Hzero. rewrite <- insert_delete_eq.
  rewrite map_to_list_insert by apply lookup_delete_eq. simpl.
  destruct (groups !! index) as [old|] eqn:Hold; simpl.
  - rewrite <- (map_to_list_delete groups index old Hold). simpl. lia.
  - rewrite delete_id by done. lia.
Qed.

Lemma groupOps_sum_removeCount ops :
  sum_list_with (fun entry => removeCount entry.2) (map_to_list (groupOps ops))
  = removed_total ops.
Proof.
  induction ops as [|op ops IH] using rev_ind.
  - unfold groupOps. simpl. by rewrite map_to_list_empty.
  - rewrite groupOps_snoc. unfold groupOps_step, removed_total.
    rewrite sum_list_with_app. fold (removed_total ops). rewrite <- IH.
    pose proof (sum_map_to_list_insert removeCount (groupOps ops) (op_index op)) as Hs.
    destruct op as [i c|i ls]; simpl in *.
    + specialize (Hs {| removeCount := removeCount (default {| removeCount := 0; insertLines := [] |} (groupOps ops !! i)) + c;
                        insertLines := insertLines (default {| removeCount := 0; insertLines := [] |} (groupOps ops !! i)) |} eq_refl).
      simpl in Hs. lia.
    + specialize (Hs {| removeCount := removeCount (default {| removeCount := 0; insertLines := [] |} (groupOps ops !! i));
                        insertLines := insertLines (default {| removeCount := 0; insertLines := [] |} (groupOps ops !! i)) ++ ls |} eq_refl).
      simpl in Hs. lia.
Qed.

Lemma groupOps_sum_insertLines ops :
  sum_list_with (fun entry => length (insertLines entry.2)) (map_to_list (groupOps ops))
  = length (inserted_all ops).
Proof.
  induction ops as [|op ops IH] using rev_ind.
  - unfold groupOps. simpl. by rewrite map_to_list_empty.
  - rewrite groupOps_snoc. unfold groupOps_step, inserted_all.
    rewrite flat_map_app, length_app. fold (inserted_all ops). rewrite <- IH.
    pose proof (sum_map_to_list_insert (fun g => length (insertLines g))
                  (groupOps ops) (op_index op)) as Hs.
    destruct op as [i c|i ls]; simpl in *.
    + specialize (Hs {| removeCount := removeCount (default {| removeCount := 0; insertLines := [] |} (groupOps ops !! i)) + c;
                        insertLines := insertLines (default {| removeCount := 0; insertLines := [] |} (groupOps ops !! i)) |} eq_refl).
      simpl in Hs. lia.
    + specialize (Hs {| removeCount := removeCount (default {| removeCount := 0; insertLines := [] |} (groupOps ops !! i));
                        insertLines := insertLines (default {| removeCount := 0; insertLines := [] |} (groupOps ops !! i)) ++ ls |} eq_refl).
      simpl in Hs. rewrite length_app in Hs. rewrite app_nil_r. lia.
Qed.

(** X8.  The loop of [applyOps] visits every index at which an operation is
    rooted once and no other index, and grouping loses nothing: over the
    groups it visits, the counts to remove sum to the counts of all the
    removals, and the lines to insert are as many as the lines of all the
    insertions. *)
Theorem schedule_keeps_totals ops :
  (∀ index, index ∈ (schedule ops).*1 ↔ index ∈ op_index <$> ops) ∧
  NoDup (schedule ops).*1 ∧
  sum_list_with (fun entry => removeCount entry.2) (schedule ops) = removed_total ops ∧
  sum_list_with (fun entry => length (insertLines entry.2)) (schedule ops)
  = length (inserted_all ops).
Proof.
  unfold schedule. split_and!.
  - intros index. rewrite schedule_of_fst, elem_of_sorted_indices, groupOps_is_Some.
    rewrite Exists_exists, list_elem_of_fmap.
    split; intros (op & ? & ?); by exists op.
  - rewrite schedule_of_fst. apply sorted_indices_NoDup.
  - rewrite schedule_of_perm. apply groupOps_sum_removeCount.
  - rewrite schedule_of_perm. apply groupOps_sum_insertLines.
Qed.

Lemma removals_at_ge index ops i count :
  Remove i count ∈ ops → i = index → count ≤ removals_at index ops.
Proof.
  intros Hin ->. unfold removals_at.
  etrans; [|apply (sum_list_with_in _ _ _ Hin)]. simpl.
  by rewrite bool_decide_eq_true_2.
Qed.

Lemma insertions_at_nonempty index ops lines :
  Insert index lines ∈ ops → lines ≠ [] → insertions_at index ops ≠ [].
Proof.
  intros Hin Hne Hnil. unfold insertions_at in Hnil.
  induction ops as [|op rest IH]; [by apply elem_of_nil in Hin|].
  simpl in Hnil. apply app_eq_nil in Hnil as [Hop Hrest].
  apply elem_of_cons in Hin as [<-|Hin]; [|by apply IH].
  simpl in Hop. by rewrite bool_decide_eq_true_2 in Hop.
Qed.

Section ScheduleOfThePlan.
Context `{LineDiff}.

(** X9.  No round of the loop of [applyOps] on the operations of [buildOps] is
    idle: every group it visits removes at least one line or inserts at least
    one, whatever [diffLines] answers. *)
Theorem schedule_of_buildOps_never_idle originalText newText :
  Forall (fun entry : nat * OpGroup =>
            0 < removeCount entry.2 ∨ insertLines entry.2 ≠ [])
    (schedule (buildOps originalText newText)).
Proof.
  apply Forall_forall. intros [index group]. simpl.
  unfold schedule. rewrite elem_of_schedule_of, groupOps_lookup. unfold merged_at.
  case_bool_decide as Hex; [|done]. intros [= <-]. simpl.
  apply Exists_exists in Hex as (op & Hin & Hidx).
  assert (Hne : op_nonempty op).
  { unfold buildOps in Hin. rewrite buildOps_from_plan in Hin.
    pose proof (ops_between_nonempty _ _ _ (plan_between (diffLines originalText newText) 0))
      as Hall.
    rewrite Forall_forall in Hall. by apply Hall. }
  destruct op as [i c|i ls]; simpl in *.
  - left. pose proof (removals_at_ge index _ i c Hin Hidx). lia.
  - right. subst i. by eapply insertions_at_nonempty.
Qed.

End ScheduleOfThePlan.

(** * The slow path and the fast path: what they call *)

Lemma keys_of_app calls1 calls2 : keys_of (calls1 ++ calls2) = keys_of calls1 ++ keys_of calls2.
Proof. apply omap_app. Qed.

Lemma texts_of_app calls1 calls2 :
  texts_of (calls1 ++ calls2) = texts_of calls1 ++ texts_of calls2.
Proof. apply omap_app. Qed.

Lemma keys_of_silent (allowed : Call → bool) calls :
  (∀ c, allowed c = true → keys_of [c] = []) →
  Forall (fun c => allowed c = true) calls → keys_of calls = [].
Proof.
  intros Hsilent Hall. induction Hall as [|c rest Hc _ IH]; [done|].
  change (c :: rest) with ([c] ++ rest). by rewrite keys_of_app, IH, Hsilent.
Qed.

Lemma texts_of_silent (allowed : Call → bool) calls :
  (∀ c, allowed c = true → texts_of [c] = []) →
  Forall (fun c => allowed c = true) calls → texts_of calls = [].
Proof.
  intros Hsilent Hall. induction Hall as [|c rest Hc _ IH]; [done|].
  change (c :: rest) with ([c] ++ rest). by rewrite texts_of_app, IH, Hsilent.
Qed.

Section FootprintRules.
Context `{Host}.
Local Open Scope prog_scope.

Lemma confined_ret {A} allowed errors (a : A) : confined allowed errors (ret a).
Proof. intros s. exists []. simpl. by rewrite app_nil_r. Qed.

Lemma confined_throw {A} allowed (errors : Error → Prop) e :
  errors e → confined allowed errors (@throw _ A e).
Proof.
  intros He s. exists []. simpl. rewrite app_nil_r.
  split_and!; [done|constructor|by intros ? [= <-]].
Qed.

Lemma confined_bind {A B} allowed errors (m : Prog A) (k : A → Prog B) :
  confined allowed errors m → (∀ a, confined allowed errors (k a)) →
  confined allowed errors (bind m k).
Proof.
  intros Hm Hk s. unfold bind. destruct (Hm s) as (calls1 & Ht1 & Hall1 & He1).
  destruct (m s) as [[a|e] s1]; simpl in *.
  - destruct (Hk a s1) as (calls2 & Ht2 & Hall2 & He2). exists (calls1 ++ calls2).
    rewrite Ht2, Ht1, app_assoc. split_and!; [done|by apply Forall_app|done].
  - exists calls1. split_and!; [done|done|]. intros e0 [= <-]. by apply He1.
Qed.

Lemma confined_call allowed (errors : Error → Prop) c :
  allowed c = true → (∀ x, errors (External x)) → confined allowed errors (call c).
Proof.
  intros Hc He s. exists [c]. rewrite call_trace.
  split_and!; [done|by constructor|].
  unfold call. destruct (respond c (world s)).1; simpl; [done|].
  intros ? [= <-]. apply He.
Qed.

Lemma confined_perform allowed (errors : Error → Prop) c :
  allowed c = true → (∀ x, errors (External x)) → confined allowed errors (perform c).
Proof.
  intros Hc He. apply confined_bind; [by apply confined_call|].
  intros. apply confined_ret.
Qed.

Lemma confined_lift {A} allowed (errors : Error → Prop) (o : Outcome A) :
  (∀ x, errors (External x)) → confined allowed errors (lift o).
Proof. intros He. destruct o; [apply confined_ret|by apply confined_throw]. Qed.

Lemma confined_when allowed errors cond m :
  confined allowed errors m → confined allowed errors (when cond m).
Proof. destruct cond; [done|intros; apply confined_ret]. Qed.

Lemma confined_for_each {A} allowed errors (items : list A) body :
  (∀ item, confined allowed errors (body item)) →
  confined allowed errors (for_each items body).
Proof.
  intros Hbody. induction items as [|item rest IH]; simpl.
  - apply confined_ret.
  - apply confined_bind; [apply Hbody|by intros].
Qed.

Lemma confined_try_catch {A} allowed errors errors' (m : Prog A) handler :
  confined allowed errors' m → (∀ e, confined allowed errors (handler e)) →
  confined allowed errors (try_catch m handler).
Proof.
  intros Hm Hh s. unfold try_catch. destruct (Hm s) as (calls1 & Ht1 & Hall1 & _).
  destruct (m s) as [[a|e] s1]; simpl in *.
  - exists calls1. done.
  - destruct (Hh e s1) as (calls2 & Ht2 & Hall2 & He2). exists (calls1 ++ calls2).
    rewrite Ht2, Ht1, app_assoc. split_and!; [done|by apply Forall_app|done].
Qed.

Lemma confined_mono {A} (allowed allowed' : Call → bool) (errors errors' : Error → Prop)
    (m : Prog A) :
  (∀ c, allowed c = true → allowed' c = true) → (∀ e, errors e → errors' e) →
  confined allowed errors m → confined allowed' errors' m.
Proof.
  intros Hc He Hm s. destruct (Hm s) as (calls & Ht & Hall & Herr).
  exists calls. split_and!; [done| |by intros e ?%Herr%He].
  eapply Forall_impl; [exact Hall|]. done.
Qed.

Lemma types_ret {A} (a : A) : types (ret a) [] [].
Proof. intros s a' s' [= <- <-]. exists []. by rewrite app_nil_r. Qed.

Lemma types_throw {A} e keys texts : types (@throw _ A e) keys texts.
Proof. by intros s a s'. Qed.

Lemma types_bind {A B} (m : Prog A) (k : A → Prog B) keys1 texts1 keys2 texts2 :
  types m keys1 texts1 → (∀ a, types (k a) keys2 texts2) →
  types (bind m k) (keys1 ++ keys2) (texts1 ++ texts2).
Proof.
  intros Hm Hk s b s' Hrun.
  apply bind_inv_ok in Hrun as (a & s1 & Hrun1 & Hrun2).
  destruct (Hm _ _ _ Hrun1) as (calls1 & Ht1 & Hk1 & Hx1).
  destruct (Hk _ _ _ _ Hrun2) as (calls2 & Ht2 & Hk2 & Hx2).
  exists (calls1 ++ calls2).
  by rewrite Ht2, Ht1, app_assoc, keys_of_app, texts_of_app, Hk1, Hk2, Hx1, Hx2.
Qed.

Lemma types_call c : types (call c) (keys_of [c]) (texts_of [c]).
Proof.
  intros s a s' Hrun. exists [c]. pose proof (call_trace c s) as Ht.
  rewrite Hrun in Ht. done.
Qed.

Lemma types_perform c : types (perform c) (keys_of [c]) (texts_of [c]).
Proof.
  intros s a s' Hrun. exists [c]. by rewrite (perform_unit _ _ _ _ Hrun).
Qed.

Lemma types_when cond m keys texts :
  types m keys texts →
  types (when cond m) (if cond then keys else []) (if cond then texts else []).
Proof. destruct cond; [done|intros; apply types_ret]. Qed.

Lemma types_for_each {A} (items : list A) body (keys texts : A → list string) :
  (∀ item, types (body item) (keys item) (texts item)) →
  types (for_each items body) (flat_map keys items) (flat_map texts items).
Proof.
  intros Hbody. induction items as [|item rest IH]; simpl.
  - apply types_ret.
  - apply types_bind; [apply Hbody|by intros].
Qed.

Lemma types_silent {A} (allowed : Call → bool) errors (m : Prog A) :
  (∀ c, allowed c = true → keys_of [c] = [] ∧ texts_of [c] = []) →
  confined allowed errors m → types m [] [].
Proof.
  intros Hsilent Hm s a s' Hrun. destruct (Hm s) as (calls & Ht & Hall & _).
  rewrite Hrun in Ht. exists calls. split_and!; [done| |].
  - eapply keys_of_silent; [|exact Hall]. intros c Hc. by apply Hsilent.
  - eapply texts_of_silent; [|exact Hall]. intros c Hc. by apply Hsilent.
Qed.

(** *** [findLine] *)

Lemma call_thrown c s e s' : call c s = (Thrown e, s') → ∃ x, e = External x.
Proof.
  unfold call. destruct (respond c (world s)).1 as [a|x]; [done|].
  intros [= <- _]. by exists x.
Qed.

Lemma find_by_selectors_cases selectors otherwise s :
  (∃ tried selector,
      length tried < length selectors ∧
      trace (find_by_selectors selectors otherwise s).2
      = trace s ++ ((fun sel => LocatorCount (Css sel)) <$> tried)
          ++ [LocatorCount (Css selector)] ∧
      ((find_by_selectors selectors otherwise s).1 = Ok (LocFirst (Css selector)) ∨
       ∃ x, (find_by_selectors selectors otherwise s).1 = Thrown (External x))) ∨
  (∃ s1, trace s1 = trace s ++ ((fun sel => LocatorCount (Css sel)) <$> selectors) ∧
         find_by_selectors selectors otherwise s = otherwise s1).
Proof.
  revert s. induction selectors as [|selector rest IH]; intros s; simpl.
  - right. exists s. by rewrite app_nil_r.
  - pose proof (call_trace (LocatorCount (Css selector)) s) as Ht.
    destruct (call (LocatorCount (Css selector)) s) as [[n|e] s1] eqn:Hcall; simpl in Ht.
    + rewrite (bind_ok _ _ _ _ _ Hcall). case_bool_decide.
      * left. exists [], selector. simpl. split_and!; [lia|done|by left].
      * destruct (IH s1) as [(tried & sel & Hlen & Htr & Hres)|(s2 & Htr & Hrun)].
        -- left. exists (selector :: tried), sel. simpl.
           split_and!; [lia| |done]. rewrite Htr, Ht, <- app_assoc. done.
        -- right. exists s2. split; [|done].
           rewrite Htr, Ht, <- app_assoc. done.
    + rewrite (bind_thrown _ _ _ _ _ Hcall).
      destruct (call_thrown _ _ _ _ Hcall) as [x ->].
      left. exists [], selector. simpl. split_and!; [lia|done|right; by exists x].
Qed.

Lemma findLine_run info index s :
  ∃ calls, trace (findLine info index s).2 = trace s ++ calls ∧
    Forall (fun c => is_count c = true) calls ∧ length calls ≤ 7 ∧
    match (findLine info index s).1 with
    | Ok line =>
        ∃ probe, last calls = Some (LocatorCount probe) ∧
                 (line = probe ∨ line = LocFirst probe)
    | Thrown e =>
        (e = LineNotFound index ∧
         LocatorCount (LocNth (Css "#editor .line") index) ∈ calls) ∨
        ∃ x, e = External x
    end.
Proof.
  unfold findLine.
  set (selectors := match info with
                    | Some {| id := Some line_id |} =>
                        if bool_decide (line_id ≠ EmptyString)
                        then id_selectors line_id else []
                    | _ => []
                    end).
  assert (Hsel : length selectors ≤ 5).
  { subst selectors. destruct info as [[[line_id|] t]|]; simpl; try lia.
    case_bool_decide; simpl; lia. }
  assert (Hcounts : ∀ sels : list string,
            Forall (fun c => is_count c = true)
              ((fun sel => LocatorCount (Css sel)) <$> sels)).
  { intros sels. apply Forall_fmap, Forall_forall. done. }
  match goal with
  | |- context [find_by_selectors selectors ?o] => set (otherwise := o)
  end.
  destruct (find_by_selectors_cases selectors otherwise s)
    as [(tried & selector & Hlen & Htr & Hres)|(s1 & Htr & Hrun)].
  - eexists. split; [exact Htr|]. split_and!.
    + apply Forall_app. split; [apply Hcounts|by repeat constructor].
    + rewrite length_app, length_fmap. simpl. lia.
    + destruct Hres as [->|[x ->]].
      * exists (Css selector). rewrite last_snoc. split; [done|by right].
      * right. by exists x.
  - rewrite Hrun. subst otherwise. cbv zeta.
    pose proof (call_trace (LocatorCount (LocNth (Css "#editor .line") index)) s1) as Ht.
    destruct (call (LocatorCount (LocNth (Css "#editor .line") index)) s1)
      as [[n|e] s2] eqn:Hcall; simpl in Ht.
    + rewrite (bind_ok _ _ _ _ _ Hcall). case_bool_decide.
      * simpl. eexists. rewrite Ht, Htr, <- app_assoc. split; [done|]. split_and!.
        -- apply Forall_app. split; [apply Hcounts|by repeat constructor].
        -- rewrite length_app, length_fmap. simpl. lia.
        -- exists (LocNth (Css "#editor .line") index). rewrite last_snoc.
           split; [done|by left].
      * assert (Hmiss : ∃ calls,
                  trace s2 = trace s ++ calls ∧
                  Forall (fun c => is_count c = true) calls ∧ length calls ≤ 6 ∧
                  LocatorCount (LocNth (Css "#editor .line") index) ∈ calls).
        { eexists. rewrite Ht, Htr, <- app_assoc. split; [done|]. split_and!.
          - apply Forall_app. split; [apply Hcounts|by repeat constructor].
          - rewrite length_app, length_fmap. simpl. lia.
          - rewrite elem_of_app, elem_of_cons. right. by left. }
        destruct Hmiss as (calls & Hcalls & Hall & Hlen & Hin).
        destruct info as [[line_id [|c rest]]|].
        -- exists calls. simpl. split_and!; [done|done|lia|]. left. done.
        -- pose proof (call_trace
                         (LocatorCount (CssHasText "#editor .line" (String c rest))) s2)
             as Ht2.
           destruct (call (LocatorCount (CssHasText "#editor .line" (String c rest))) s2)
             as [[m|e] s3] eqn:Hcall2; simpl in Ht2.
           ++ rewrite (bind_ok _ _ _ _ _ Hcall2). case_bool_decide; simpl.
              ** exists (calls ++ [LocatorCount (CssHasText "#editor .line" (String c rest))]).
                 rewrite Ht2, Hcalls, <- app_assoc. split; [done|]. split_and!.
                 --- apply Forall_app. split; [done|by repeat constructor].
                 --- rewrite length_app. simpl. lia.
                 --- exists (CssHasText "#editor .line" (String c rest)).
                     rewrite last_snoc. split; [done|by right].
              ** exists (calls ++ [LocatorCount (CssHasText "#editor .line" (String c rest))]).
                 rewrite Ht2, Hcalls, <- app_assoc. split; [done|]. split_and!.
                 --- apply Forall_app. split; [done|by repeat constructor].
                 --- rewrite length_app. simpl. lia.
                 --- left. split; [done|]. rewrite elem_of_app. by left.
           ++ rewrite (bind_thrown _ _ _ _ _ Hcall2).
              destruct (call_thrown _ _ _ _ Hcall2) as [x ->].
              exists (calls ++ [LocatorCount (CssHasText "#editor .line" (String c rest))]).
              simpl. rewrite Ht2, Hcalls, <- app_assoc. split; [done|]. split_and!.
              ** apply Forall_app. split; [done|by repeat constructor].
              ** rewrite length_app. simpl. lia.
              ** right. by exists x.
        -- exists calls. simpl. split_and!; [done|done|lia|]. left. done.
    + rewrite (bind_thrown _ _ _ _ _ Hcall).
      destruct (call_thrown _ _ _ _ Hcall) as [x ->].
      eexists. simpl. rewrite Ht, Htr, <- app_assoc. split; [done|]. split_and!.
      * apply Forall_app. split; [apply Hcounts|by repeat constructor].
      * rewrite length_app, length_fmap. simpl. lia.
      * right. by exists x.
Qed.

End FootprintRules.

Section SlowPathFootprint.
Context `{Host}.
Local Open Scope prog_scope.

Lemma types_eq {A} (m : Prog A) keys texts keys' texts' :
  types m keys texts → keys = keys' → texts = texts' → types m keys' texts'.
Proof. by intros Hm <- <-. Qed.

Lemma confined_findLine info index :
  confined is_count (fun e => e = LineNotFound index ∨ ∃ x, e = External x)
    (findLine info index).
Proof.
  intros s. destruct (findLine_run info index s) as (calls & Ht & Hall & _ & Hres).
  exists calls. split_and!; [done|done|]. intros e He. rewrite He in Hres.
  destruct Hres as [[-> _]|[x ->]]; [by left|right; by exists x].
Qed.

Lemma confined_findLine_input info index :
  confined is_input slow_path_error (findLine info index).
Proof.
  eapply confined_mono; [| |apply confined_findLine].
  - by intros [].
  - by intros e [->|[x ->]].
Qed.

Lemma types_findLine info index : types (findLine info index) [] [].
Proof.
  eapply types_silent; [|apply confined_findLine]. by intros [].
Qed.

Lemma confined_focusLine line : confined is_input slow_path_error (focusLine line).
Proof.
  unfold focusLine. apply confined_bind; [by apply confined_call|].
  intros n. case_bool_decide; by apply confined_perform.
Qed.

Lemma types_focusLine line : types (focusLine line) [] [].
Proof.
  unfold focusLine.
  eapply types_eq; [eapply types_bind; [apply types_call|]|done|done].
  intros n. case_bool_decide; apply types_perform.
Qed.

Lemma types_quiet c :
  keys_of [c] = [] → texts_of [c] = [] → types (perform c) [] [].
Proof. intros Hk Hx. eapply types_eq; [apply types_perform|done|done]. Qed.

Ltac types_step :=
  match goal with
  | |- types selectAll _ _ => apply (types_perform (Press selectAll_key))
  | |- types (perform (Press _)) _ _ => apply types_perform
  | |- types (perform (InsertText _)) _ _ => apply types_perform
  | |- types (perform _) _ _ => by apply types_quiet
  | |- types (findLine _ _) _ _ => apply types_findLine
  | |- types (focusLine _) _ _ => apply types_focusLine
  | |- types (bind _ _) _ _ => eapply types_bind; [|intros]
  end.

Ltac confined_step :=
  match goal with
  | |- confined _ _ (perform _) => by apply confined_perform
  | |- confined _ _ (call _) => by apply confined_call
  | |- confined _ _ (findLine _ _) => apply confined_findLine_input
  | |- confined _ _ (focusLine _) => apply confined_focusLine
  | |- confined _ _ (bind _ _) => apply confined_bind; [|intros]
  end.

Lemma flat_map_const {A B} (l : list B) (items : list A) :
  flat_map (fun _ => l) items = mjoin (replicate (length items) l).
Proof. induction items as [|item rest IH]; simpl; [done|]. by rewrite IH. Qed.

Lemma confined_deleteLines index count lines :
  confined is_input slow_path_error (deleteLines index count lines).
Proof.
  unfold deleteLines, selectAll. apply confined_for_each. intros i.
  repeat confined_step.
Qed.

Lemma types_deleteLines index count lines :
  types (deleteLines index count lines)
    (mjoin (replicate count [selectAll_key; "Backspace"; "Backspace"])) [].
Proof.
  unfold deleteLines.
  eapply types_eq.
  - apply (types_for_each _ _ (fun _ => [selectAll_key; "Backspace"; "Backspace"])
             (fun _ => [])).
    intros i. eapply types_eq.
    + repeat types_step.
    + done.
    + done.
  - by rewrite flat_map_const, length_seq.
  - rewrite flat_map_const. by induction (length (seq 0 count)).
Qed.

Lemma confined_insertLines_page index insertLines lines removedCount :
  confined is_input slow_path_error (insertLines_page index insertLines lines removedCount).
Proof.
  unfold insertLines_page, moveToStart, moveToEnd.
  case_bool_decide; [apply confined_ret|]. cbv zeta.
  assert (Hgeneral : ∀ anchorInfo anchorIndex key,
    confined is_input slow_path_error
      (anchor <- findLine anchorInfo anchorIndex ;;
       perform (ScrollIntoView anchor) ;;
       focusLine anchor ;;
       perform (Press key) ;;
       perform (Press "Enter") ;;
       perform (InsertText (join_newline insertLines)) ;;
       perform (WaitForTimeout 30))).
  { intros. repeat confined_step. }
  case_bool_decide; [|apply Hgeneral].
  destruct (if bool_decide (length lines = 0) then None else _); apply Hgeneral.
Qed.

Lemma types_insertLines_page index insertLines lines removedCount :
  types (insertLines_page index insertLines lines removedCount)
    (round_keys lines (index, {| removeCount := 0; insertLines := insertLines |}))
    (round_texts (index, {| removeCount := 0; insertLines := insertLines |})).
Proof.
  unfold insertLines_page, moveToStart, moveToEnd, round_keys, round_texts. simpl.
  case_bool_decide as Hlen.
  { destruct insertLines; [|done]. simpl. apply types_ret. }
  rewrite !(bool_decide_eq_false_2 (insertLines = [])) by (intros ->; by apply Hlen).
  assert (Hgeneral : ∀ anchorInfo anchorIndex key,
    types
      (anchor <- findLine anchorInfo anchorIndex ;;
       perform (ScrollIntoView anchor) ;;
       focusLine anchor ;;
       perform (Press key) ;;
       perform (Press "Enter") ;;
       perform (InsertText (join_newline insertLines)) ;;
       perform (WaitForTimeout 30))
      [key; "Enter"] [join_newline insertLines]).
  { intros. eapply types_eq.
    - repeat types_step.
    - done.
    - done. }
  cbv zeta. case_bool_decide as Hindex.
  - case_bool_decide as Hnone.
    + rewrite bool_decide_eq_false_2; [apply Hgeneral|].
      intros [_ Hne]. by destruct lines.
    + assert (Hlines : lines ≠ []) by (by intros ->).
      destruct (lookup_lt_is_Some_2 lines ((index + removedCount) `min` (length lines - 1)))
        as [anchorInfo ->]; [lia|].
      rewrite bool_decide_eq_true_2 by done. apply Hgeneral.
  - rewrite bool_decide_eq_false_2 by tauto. apply Hgeneral.
Qed.

Lemma confined_applyOps ops lines : confined is_input slow_path_error (applyOps ops lines).
Proof.
  unfold applyOps. apply confined_for_each. intros entry.
  apply confined_bind; [|intros]; apply confined_when;
    [apply confined_deleteLines|apply confined_insertLines_page].
Qed.

Lemma types_applyOps ops lines :
  types (applyOps ops lines)
    (flat_map (round_keys lines) (schedule ops)) (flat_map round_texts (schedule ops)).
Proof.
  unfold applyOps. apply types_for_each. intros [index [removeCount_ insertLines_]].
  simpl. eapply types_eq.
  - eapply types_bind; [|intros _]; apply types_when;
      [apply types_deleteLines|apply types_insertLines_page].
  - unfold round_keys. simpl. f_equal.
    + case_bool_decide as Hr; [done|]. destruct removeCount_; [done|lia].
    + destruct insertLines_; [done|].
      by rewrite (bool_decide_eq_true_2 (0 < _)) by (simpl; lia).
  - unfold round_texts. simpl.
    assert (Hnone : (if bool_decide (0 < removeCount_) then [] else []) = @nil string)
      by (by case_bool_decide).
    rewrite Hnone. simpl.
    destruct insertLines_; [done|].
    by rewrite (bool_decide_eq_true_2 (0 < _)) by (simpl; lia).
Qed.

(** A run in both readings: the calls it made are the allowed ones, and
    when it returned the keys and the texts are the stated ones. *)
Lemma confined_types_run {A} allowed errors keys texts (m : Prog A) s :
  confined allowed errors m → types m keys texts →
  ∃ calls, trace (m s).2 = trace s ++ calls ∧
    Forall (fun c => allowed c = true) calls ∧
    match (m s).1 with
    | Ok _ => keys_of calls = keys ∧ texts_of calls = texts
    | Thrown e => errors e
    end.
Proof.
  intros Hc Ht. destruct (Hc s) as (calls & Htr & Hall & Herr).
  exists calls. split_and!; [done|done|].
  destruct (m s) as [[a|e] s'] eqn:Hrun; simpl in *; [|by apply Herr].
  destruct (Ht _ _ _ Hrun) as (calls' & Htr' & Hk & Hx).
  rewrite Htr' in Htr. apply app_inv_head in Htr. by subst calls'.
Qed.

(** X10.  [findLine] does nothing but count the matches of locators, at most
    seven of them.  The locator it returns is the one it counted last, or the
    first match of that one; it fails for want of a line only after it has
    counted the line at the index, with the error that names the index, and
    otherwise only with the exception of a collaborator. *)
Theorem findLine_counts_until_found info index s :
  ∃ calls, trace (findLine info index s).2 = trace s ++ calls ∧
    Forall (fun c => is_count c = true) calls ∧ length calls ≤ 7 ∧
    match (findLine info index s).1 with
    | Ok line =>
        ∃ probe, last calls = Some (LocatorCount probe) ∧
                 (line = probe ∨ line = LocFirst probe)
    | Thrown e =>
        (e = LineNotFound index ∧
         LocatorCount (LocNth (Css "#editor .line") index) ∈ calls) ∨
        ∃ x, e = External x
    end.
Proof. apply findLine_run. Qed.

(** X11.  [deleteLines] makes only calls of the slow path.  When it returns it
    has pressed, for each of the [count] lines, the key that selects the
    line and Backspace twice, and has typed no text; it fails only for want
    of a line or with the exception of a collaborator. *)
Theorem deleteLines_presses_backspace_twice index count lines s :
  ∃ calls, trace (deleteLines index count lines s).2 = trace s ++ calls ∧
    Forall (fun c => is_input c = true) calls ∧
    match (deleteLines index count lines s).1 with
    | Ok _ =>
        keys_of calls = mjoin (replicate count [selectAll_key; "Backspace"; "Backspace"]) ∧
        texts_of calls = []
    | Thrown e => slow_path_error e
    end.
Proof.
  apply confined_types_run; [apply confined_deleteLines|apply types_deleteLines].
Qed.

(** X12.  [insertLines] makes only calls of the slow path, and none when there
    is no line to insert.  When it returns with lines to insert it has moved
    to the start of its anchor at index 0 of a snapshot that has lines and to
    the end of its anchor everywhere else, pressed Enter, and typed once the
    lines joined by the separator. *)
Theorem insertLines_types_joined_lines index insertLines lines removedCount s :
  ∃ calls,
    trace (insertLines_page index insertLines lines removedCount s).2 = trace s ++ calls ∧
    Forall (fun c => is_input c = true) calls ∧
    (insertLines = [] → calls = []) ∧
    match (insertLines_page index insertLines lines removedCount s).1 with
    | Ok _ =>
        insertLines ≠ [] →
        keys_of calls
        = [ (if bool_decide (index = 0 ∧ lines ≠ []) then moveToStart_key
             else moveToEnd_key); "Enter" ] ∧
        texts_of calls = [join_newline insertLines]
    | Thrown e => slow_path_error e
    end.
Proof.
  destruct (confined_types_run _ _ _ _ _ s
              (confined_insertLines_page index insertLines lines removedCount)
              (types_insertLines_page index insertLines lines removedCount))
    as (calls & Htr & Hall & Hres).
  exists calls. split_and!; [done|done| |].
  - intros ->. unfold insertLines_page in Htr. simpl in Htr.
    rewrite <- (app_nil_r (trace s)) in Htr at 1. by apply app_inv_head in Htr.
  - destruct (insertLines_page _ _ _ _ s).1; [|done]. intros Hne.
    unfold round_keys, round_texts in Hres. simpl in Hres.
    by rewrite bool_decide_eq_false_2 in Hres by done.
Qed.

(** X13.  [applyOps] makes only calls of the slow path: it reads nothing over
    HTTP, calls no method of the bridge and neither opens nor closes a page.
    When it returns, the keys it has pressed and the texts it has typed are
    those of the rounds of its loop, in descending order of index: per group
    the removals first, then one typed text that holds all the lines of the
    group. *)
Theorem applyOps_keys_and_texts ops lines s :
  ∃ calls, trace (applyOps ops lines s).2 = trace s ++ calls ∧
    Forall (fun c => is_input c = true) calls ∧
    match (applyOps ops lines s).1 with
    | Ok _ =>
        keys_of calls = flat_map (round_keys lines) (schedule ops) ∧
        texts_of calls = flat_map round_texts (schedule ops)
    | Thrown e => slow_path_error e
    end.
Proof.
  apply confined_types_run; [apply confined_applyOps|apply types_applyOps].
Qed.

End SlowPathFootprint.

(** * The fast path and [patch]: every run *)

Section PatchRuns.
Context `{Host}.
Local Open Scope prog_scope.

Lemma internalPatch_calls_bridge current lines :
  Forall (fun c => is_bridge c = true) (internalPatch_calls current lines).
Proof.
  unfold internalPatch_calls. cbv zeta. apply Forall_app. split.
  - apply Forall_flat_map, Forall_forall. intros i _.
    case_bool_decide; by repeat constructor.
  - repeat case_bool_decide; try done; by apply Forall_fmap, Forall_forall.
Qed.

Lemma confined_for_each_perform allowed (errors : Error → Prop) calls :
  Forall (fun c => allowed c = true) calls → (∀ x, errors (External x)) →
  confined allowed errors (for_each calls perform).
Proof.
  intros Hall He. induction Hall as [|c rest Hc _ IH]; simpl.
  - apply confined_ret.
  - apply confined_bind; [by apply confined_perform|by intros].
Qed.

(** The script behind its probe of the bridge. *)
Lemma confined_internalPatch_rest newLines :
  confined is_bridge external_error
    (current <- call PageLines ;;
     for_each (internalPatch_calls current newLines) perform ;;
     perform WaitForSave ;;
     ret true).
Proof.
  apply confined_bind; [by apply confined_call|]. intros current.
  apply confined_bind.
  { by apply confined_for_each_perform; [apply internalPatch_calls_bridge|]. }
  intros _. apply confined_bind; [by apply confined_perform|].
  intros _. apply confined_ret.
Qed.

Lemma internalPatch_script_run newLines s :
  ∃ calls, trace (internalPatch_script newLines s).2 = trace s ++ ProbeBridge :: calls ∧
           Forall (fun c => is_bridge c = true) calls.
Proof.
  unfold internalPatch_script. pose proof (call_trace ProbeBridge s) as Hp.
  destruct (call ProbeBridge s) as [[available|e] s1] eqn:Hprobe; simpl in Hp.
  - rewrite (bind_ok _ _ _ _ _ Hprobe). destruct available; cbn [negb].
    + destruct (confined_internalPatch_rest newLines s1) as (calls & Ht & Hall & _).
      exists calls. rewrite Ht, Hp, <- app_assoc. done.
    + exists []. done.
  - rewrite (bind_thrown _ _ _ _ _ Hprobe). exists []. done.
Qed.

Lemma tryInternalPatch_run newLines s :
  ∃ internal calls,
    (tryInternalPatch newLines s).1 = Ok internal ∧
    trace (tryInternalPatch newLines s).2 = trace s ++ ProbeBridge :: calls ∧
    Forall (fun c => is_bridge c = true) calls ∧
    (internal = true →
     ∃ current, calls = PageLines :: internalPatch_calls current newLines ++ [WaitForSave]).
Proof.
  destruct (internalPatch_script_run newLines s) as (calls & Htr & Hall).
  destruct (internalPatch_script newLines s) as [[b|e] s1] eqn:Hscript; simpl in Htr.
  - rewrite (tryInternalPatch_returned _ _ _ _ Hscript). exists b, calls.
    split_and!; [done|done|done|]. intros ->.
    destruct (internalPatch_script_trace _ _ _ Hscript) as (current & _ & Hcalls).
    exists current. rewrite Hcalls in Htr. apply app_inv_head in Htr.
    by injection Htr as <-.
  - rewrite (tryInternalPatch_thrown _ _ _ _ Hscript). exists false, calls. done.
Qed.


End PatchRuns.

Section PatchShape.
Context `{Host}.
Local Open Scope prog_scope.

Ltac trace_eq :=
  repeat (rewrite <- ?app_assoc; simpl); rewrite ?app_nil_r; done.

Lemma perform_thrown c s e s' : perform c s = (Thrown e, s') → external_error e.
Proof.
  intros Hrun. destruct (confined_perform (fun _ => true) external_error c eq_refl
                           (fun _ => I) s) as (_ & _ & _ & He).
  apply He. by rewrite Hrun.
Qed.

Lemma readJson_outcome this pageTitle s :
  match (readJson this pageTitle s).1 with
  | Thrown ClientNotInitialized =>
      context this = false ∧ (readJson this pageTitle s).2 = s
  | Ok _ | Thrown (RequestFailed _ _) | Thrown (External _) =>
      context this = true ∧
      trace (readJson this pageTitle s).2 = trace s ++ [HttpGet (apiUrl this pageTitle)]
  | Thrown _ => False
  end.
Proof.
  unfold readJson, getContext, bind, call, throw, ret, lift.
  destruct (context this); simpl; [|done].
  destruct (respond (HttpGet (apiUrl this pageTitle)) (world s)) as [[res|e] w]; simpl;
    [|done].
  destruct (res_ok res); simpl; [|done].
  by destruct (res_json res).
Qed.

Lemma recheckUpdated_outcome this pageTitle baseUpdated s :
  context this = true →
  trace (recheckUpdated this pageTitle baseUpdated s).2
  = trace s ++ [HttpGet (apiUrl this pageTitle)] ∧
  match (recheckUpdated this pageTitle baseUpdated s).1 with
  | Ok _ | Thrown UpdatedMismatch | Thrown (RequestFailed _ _) | Thrown (External _) => True
  | Thrown _ => False
  end.
Proof.
  intros Hctx. unfold recheckUpdated.
  pose proof (readJson_outcome this pageTitle s) as Hread.
  destruct (readJson this pageTitle s) as [[latest|e] s1] eqn:Hrun; simpl in Hread.
  - rewrite (bind_ok _ _ _ _ _ Hrun). destruct Hread as [_ Htr].
    by case_bool_decide.
  - rewrite (bind_thrown _ _ _ _ _ Hrun). simpl.
    destruct e; try done; try (by destruct Hread). destruct Hread. congruence.
Qed.

Lemma openPage_run this pageTitle opts s :
  ∃ calls, trace (openPage this pageTitle opts s).2 = trace s ++ NewPage :: calls ∧
    Forall (fun c => on_open_page c = true) calls ∧
    ∀ e, (openPage this pageTitle opts s).1 = Thrown e → external_error e.
Proof.
  unfold openPage.
  destruct (perform NewPage s) as [[[]|e] s1] eqn:Hnew;
    pose proof (perform_unit _ _ _ _ Hnew) as Htr.
  - rewrite (bind_ok _ _ _ _ _ Hnew).
    match goal with
    | |- context [bind ?m ?k s1] =>
        assert (Hrest : confined on_open_page external_error (bind m k))
    end.
    { apply confined_bind; [by apply confined_perform|intros _].
      apply confined_bind; [by apply confined_perform|intros _].
      apply confined_when. by apply confined_perform. }
    destruct (Hrest s1) as (calls & Ht & Hall & He).
    exists calls. rewrite Ht, Htr, <- app_assoc. done.
  - rewrite (bind_thrown _ _ _ _ _ Hnew). exists []. simpl.
    split_and!; [done|done|]. intros e' [= <-]. by eapply perform_thrown.
Qed.

Lemma slowPath_run ops lines s :
  ∃ calls, trace (slowPath ops lines s).2 = trace s ++ ClickSelector "#editor" :: calls ∧
    Forall (fun c => on_open_page c = true) calls ∧
    ∀ e, (slowPath ops lines s).1 = Thrown e → slow_path_error e.
Proof.
  unfold slowPath.
  destruct (perform (ClickSelector "#editor") s) as [[[]|e] s1] eqn:Hclick;
    pose proof (perform_unit _ _ _ _ Hclick) as Htr.
  - rewrite (bind_ok _ _ _ _ _ Hclick).
    destruct (confined_applyOps ops lines s1) as (calls & Ht & Hall & He).
    exists calls. rewrite Ht, Htr, <- app_assoc. split_and!; [done| |done].
    eapply Forall_impl; [exact Hall|]. by intros [].
  - rewrite (bind_thrown _ _ _ _ _ Hclick). exists []. simpl.
    split_and!; [done|done|]. intros e' [= <-].
    apply perform_thrown in Hclick. by destruct e.
Qed.

Lemma closeAndVerify_run this pageTitle newText s :
  context this = true →
  ∃ closing, trace (closeAndVerify this pageTitle newText s).2 = trace s ++ closing ∧
    match (closeAndVerify this pageTitle newText s).1 with
    | Ok None | Thrown VerificationFailed | Thrown (RequestFailed _ _) =>
        closing = [ClosePage; HttpGet (apiUrl this pageTitle)]
    | Thrown (External _) =>
        closing = [ClosePage] ∨ closing = [ClosePage; HttpGet (apiUrl this pageTitle)]
    | _ => False
    end.
Proof.
  intros Hctx. unfold closeAndVerify.
  destruct (perform ClosePage s) as [[[]|e] s1] eqn:Hclose;
    pose proof (perform_unit _ _ _ _ Hclose) as Htr.
  - rewrite (bind_ok _ _ _ _ _ Hclose).
    pose proof (readJson_outcome this pageTitle s1) as Hread.
    destruct (readJson this pageTitle s1) as [[after|e] s2] eqn:Hrun; simpl in Hread.
    + rewrite (bind_ok _ _ _ _ _ Hrun). destruct Hread as [_ Ht].
      exists [ClosePage; HttpGet (apiUrl this pageTitle)].
      case_bool_decide; simpl; by rewrite Ht, Htr, <- app_assoc.
    + rewrite (bind_thrown _ _ _ _ _ Hrun). simpl.
      exists [ClosePage; HttpGet (apiUrl this pageTitle)].
      destruct e; try done; try (destruct Hread; congruence);
        destruct Hread as [_ Ht]; rewrite Ht, Htr, <- app_assoc; auto.
  - rewrite (bind_thrown _ _ _ _ _ Hclose). exists [ClosePage]. simpl.
    split; [done|]. apply perform_thrown in Hclose. destruct e; try done. by left.
Qed.

(** The part of [patch] between the opening of the page and the end. *)
Lemma patch_page_run this pageTitle opts ops lines newText s :
  context this = true →
  ∃ rest closing,
    trace ((openPage this pageTitle opts ;;
            internal <- tryInternalPatch (splitLines newText) ;;
            when (negb internal) (slowPath ops lines) ;;
            closeAndVerify this pageTitle newText) s).2
    = trace s ++ (NewPage :: rest) ++ closing ∧
    Forall (fun c => on_open_page c = true) rest ∧
    match ((openPage this pageTitle opts ;;
            internal <- tryInternalPatch (splitLines newText) ;;
            when (negb internal) (slowPath ops lines) ;;
            closeAndVerify this pageTitle newText) s).1 with
    | Ok None | Thrown VerificationFailed | Thrown (RequestFailed _ _) =>
        closing = [ClosePage; HttpGet (apiUrl this pageTitle)]
    | Thrown (LineNotFound _) => ClickSelector "#editor" ∈ rest ∧ closing = []
    | Thrown (External _) =>
        closing = [] ∨ closing = [ClosePage] ∨
        closing = [ClosePage; HttpGet (apiUrl this pageTitle)]
    | _ => False
    end.
Proof.
  intros Hctx.
  destruct (openPage_run this pageTitle opts s) as (calls1 & Ht1 & Hall1 & He1).
  destruct (openPage this pageTitle opts s) as [[[]|e] s1] eqn:Hopen; simpl in *.
  2: { rewrite (bind_thrown _ _ _ _ _ Hopen). simpl. exists calls1, [].
       rewrite app_nil_r. split_and!; [done|done|].
       specialize (He1 e eq_refl). destruct e; try done. by left. }
  rewrite (bind_ok _ _ _ _ _ Hopen).
  destruct (tryInternalPatch_run (splitLines newText) s1)
    as (internal & calls2 & Hres & Ht2 & Hall2 & _).
  destruct (tryInternalPatch (splitLines newText) s1) as [r2 s2] eqn:Htry.
  simpl in *. subst r2. rewrite (bind_ok _ _ _ _ _ Htry).
  assert (Hall2' : Forall (fun c => on_open_page c = true) (ProbeBridge :: calls2)).
  { constructor; [done|]. eapply Forall_impl; [exact Hall2|]. by intros []. }
  assert (Hclose : ∀ s3 middle,
    trace s3 = trace s2 ++ middle → Forall (fun c => on_open_page c = true) middle →
    ∃ rest closing,
      trace (closeAndVerify this pageTitle newText s3).2
      = trace s ++ (NewPage :: rest) ++ closing ∧
      Forall (fun c => on_open_page c = true) rest ∧
      match (closeAndVerify this pageTitle newText s3).1 with
      | Ok None | Thrown VerificationFailed | Thrown (RequestFailed _ _) =>
          closing = [ClosePage; HttpGet (apiUrl this pageTitle)]
      | Thrown (LineNotFound _) => ClickSelector "#editor" ∈ rest ∧ closing = []
      | Thrown (External _) =>
          closing = [] ∨ closing = [ClosePage] ∨
          closing = [ClosePage; HttpGet (apiUrl this pageTitle)]
      | _ => False
      end).
  { intros s3 middle Ht3 Hall3.
    destruct (closeAndVerify_run this pageTitle newText s3 Hctx) as (closing & Ht4 & Hres4).
    exists (calls1 ++ (ProbeBridge :: calls2) ++ middle), closing.
    split_and!.
    - rewrite Ht4, Ht3, Ht2, Ht1. trace_eq.
    - by rewrite !Forall_app.
    - destruct (closeAndVerify this pageTitle newText s3).1 as [[?|]|[]]; try done.
      by right. }
  destruct internal; cbn [negb when].
  - unfold bind at 1. unfold ret at 1. apply (Hclose s2 []); [by rewrite app_nil_r|done].
  - destruct (slowPath_run ops lines s2) as (calls3 & Ht3 & Hall3 & He3).
    destruct (slowPath ops lines s2) as [[[]|e] s3] eqn:Hslow; simpl in *.
    + rewrite (bind_ok _ _ _ _ _ Hslow).
      apply (Hclose s3 (ClickSelector "#editor" :: calls3)); [done|by constructor].
    + rewrite (bind_thrown _ _ _ _ _ Hslow). simpl.
      exists (calls1 ++ (ProbeBridge :: calls2) ++ ClickSelector "#editor" :: calls3), [].
      split_and!.
      * rewrite Ht3, Ht2, Ht1. trace_eq.
      * rewrite !Forall_app. split_and!; [done|done|by constructor].
      * specialize (He3 e eq_refl). destruct e; try done; [|by left].
        split; [|done]. rewrite !elem_of_app, !elem_of_cons. right. right. by left.
Qed.

End PatchShape.

Section PatchEveryRun.
Context `{Host}.
Local Open Scope prog_scope.

Lemma bind_ret_tt {A} (k : Prog A) s : (ret tt ;; k) s = k s.
Proof. done. Qed.

Lemma patch_read_failed this pageTitle diffText opts s e s1 :
  readJson this pageTitle s = (Thrown e, s1) →
  patch this pageTitle diffText opts s = (Thrown e, s1).
Proof. intros Hread. unfold patch. by rewrite (bind_thrown _ _ _ _ _ Hread). Qed.

Lemma patch_parse_failed this pageTitle diffText opts s pageJson s1 :
  readJson this pageTitle s = (Ok pageJson, s1) →
  patch this pageTitle diffText opts s
  = match parsePatch diffText with
    | Returned [] => (Thrown NoPatchFound, s1)
    | Raised x => (Thrown (External x), s1)
    | Returned (first :: _) =>
        match applyPatch (linesToText (extractLines pageJson)) first
                (default 0%Z (fuzz opts)) with
        | Returned None => (Thrown PatchApplyFailed, s1)
        | Raised x => (Thrown (External x), s1)
        | Returned (Some _) => patch this pageTitle diffText opts s
        end
    end.
Proof.
  intros Hread. destruct (parsePatch diffText) as [[|first others]|x] eqn:Hparse.
  - unfold patch. rewrite (bind_ok _ _ _ _ _ Hread). cbv beta zeta.
    unfold parseFirstPatch. by rewrite Hparse.
  - destruct (applyPatch _ first _) as [[newText|]|x] eqn:Happly; [done| |].
    + unfold patch. rewrite (bind_ok _ _ _ _ _ Hread). cbv beta zeta.
      rewrite (bind_ok _ _ _ _ _ (parseFirstPatch_ok _ _ _ _ Hparse)).
      by rewrite Happly.
    + unfold patch. rewrite (bind_ok _ _ _ _ _ Hread). cbv beta zeta.
      rewrite (bind_ok _ _ _ _ _ (parseFirstPatch_ok _ _ _ _ Hparse)).
      by rewrite Happly.
  - unfold patch. rewrite (bind_ok _ _ _ _ _ Hread). cbv beta zeta.
    unfold parseFirstPatch. by rewrite Hparse.
Qed.

(** Every run of [patch]: the reads before the page, the calls on the page,
    the closing of the page and the read behind it, and what each result tells
    of them. *)
Lemma patch_run this pageTitle diffText opts s :
  ∃ reads inner closing,
    trace (patch this pageTitle diffText opts s).2 = trace s ++ reads ++ inner ++ closing ∧
    (reads = [] ∨ reads = [HttpGet (apiUrl this pageTitle)] ∨
     reads = [HttpGet (apiUrl this pageTitle); HttpGet (apiUrl this pageTitle)] ∧
     truthy (checkUpdated opts) = true ∧ truthy (dryRun opts) = false) ∧
    (inner = [] ∧ closing = [] ∨
     ∃ rest, inner = NewPage :: rest ∧ Forall (fun c => on_open_page c = true) rest ∧
             reads ≠ [] ∧ truthy (dryRun opts) = false) ∧
    (closing = [] ∨ closing = [ClosePage] ∨
     closing = [ClosePage; HttpGet (apiUrl this pageTitle)]) ∧
    match (patch this pageTitle diffText opts s).1 with
    | Ok (Some _) =>
        truthy (dryRun opts) = true ∧ reads = [HttpGet (apiUrl this pageTitle)] ∧ inner = []
    | Ok None =>
        truthy (dryRun opts) = false ∧ reads ≠ [] ∧
        (inner = [] ∨ closing = [ClosePage; HttpGet (apiUrl this pageTitle)])
    | Thrown ClientNotInitialized =>
        context this = false ∧ reads = [] ∧ inner = [] ∧
        (patch this pageTitle diffText opts s).2 = s
    | Thrown NoPatchFound | Thrown PatchApplyFailed =>
        reads = [HttpGet (apiUrl this pageTitle)] ∧ inner = []
    | Thrown UpdatedMismatch =>
        reads = [HttpGet (apiUrl this pageTitle); HttpGet (apiUrl this pageTitle)] ∧
        inner = []
    | Thrown (LineNotFound _) => ClickSelector "#editor" ∈ inner ∧ closing = []
    | Thrown VerificationFailed =>
        inner ≠ [] ∧ closing = [ClosePage; HttpGet (apiUrl this pageTitle)]
    | Thrown (RequestFailed _ _) =>
        reads ≠ [] ∧ (inner = [] ∨ closing = [ClosePage; HttpGet (apiUrl this pageTitle)])
    | Thrown (External _) => reads ≠ []
    end.
Proof.
  pose proof (readJson_outcome this pageTitle s) as Hread1.
  destruct (readJson this pageTitle s) as [[pageJson|e] s1] eqn:Hread; simpl in Hread1.
  2: { rewrite (patch_read_failed _ _ _ _ _ _ _ Hread). simpl.
       destruct e; try done; destruct Hread1 as [Hctx Htr].
       - subst s1. exists [], [], []. rewrite app_nil_r. split_and!; auto.
       - exists [HttpGet (apiUrl this pageTitle)], [], [].
         split_and!; auto.
       - exists [HttpGet (apiUrl this pageTitle)], [], [].
         split_and!; auto. }
  destruct Hread1 as [Hctx Htr1].
  assert (Hone : ∀ r : Result (option string),
    match r with
    | Thrown NoPatchFound | Thrown PatchApplyFailed | Thrown (External _) => True
    | Ok (Some _) => truthy (dryRun opts) = true
    | _ => False
    end →
    ∃ reads inner closing,
      trace s1 = trace s ++ reads ++ inner ++ closing ∧
      (reads = [] ∨ reads = [HttpGet (apiUrl this pageTitle)] ∨
       reads = [HttpGet (apiUrl this pageTitle); HttpGet (apiUrl this pageTitle)] ∧
       truthy (checkUpdated opts) = true ∧ truthy (dryRun opts) = false) ∧
      (inner = [] ∧ closing = [] ∨
       ∃ rest, inner = NewPage :: rest ∧ Forall (fun c => on_open_page c = true) rest ∧
               reads ≠ [] ∧ truthy (dryRun opts) = false) ∧
      (closing = [] ∨ closing = [ClosePage] ∨
       closing = [ClosePage; HttpGet (apiUrl this pageTitle)]) ∧
      match r with
      | Ok (Some _) =>
          truthy (dryRun opts) = true ∧ reads = [HttpGet (apiUrl this pageTitle)] ∧
          inner = []
      | Ok None =>
          truthy (dryRun opts) = false ∧ reads ≠ [] ∧
          (inner = [] ∨ closing = [ClosePage; HttpGet (apiUrl this pageTitle)])
      | Thrown ClientNotInitialized =>
          context this = false ∧ reads = [] ∧ inner = [] ∧ s1 = s
      | Thrown NoPatchFound | Thrown PatchApplyFailed =>
          reads = [HttpGet (apiUrl this pageTitle)] ∧ inner = []
      | Thrown UpdatedMismatch =>
          reads = [HttpGet (apiUrl this pageTitle); HttpGet (apiUrl this pageTitle)] ∧
          inner = []
      | Thrown (LineNotFound _) => ClickSelector "#editor" ∈ inner ∧ closing = []
      | Thrown VerificationFailed =>
          inner ≠ [] ∧ closing = [ClosePage; HttpGet (apiUrl this pageTitle)]
      | Thrown (RequestFailed _ _) =>
          reads ≠ [] ∧
          (inner = [] ∨ closing = [ClosePage; HttpGet (apiUrl this pageTitle)])
      | Thrown (External _) => reads ≠ []
      end).
  { intros r Hr. exists [HttpGet (apiUrl this pageTitle)], [], [].
    split_and!; auto. destruct r as [[?|]|[]]; try done. }
  rewrite (patch_parse_failed _ _ _ _ _ _ _ Hread).
  destruct (parsePatch diffText) as [[|first others]|x] eqn:Hparse;
    [by apply (Hone (Thrown NoPatchFound))| |by apply (Hone (Thrown (External x)))].
  destruct (applyPatch _ first _) as [[newText|]|x] eqn:Happly;
    [|by apply (Hone (Thrown PatchApplyFailed))|by apply (Hone (Thrown (External x)))].
  rewrite (patch_after_apply _ _ _ _ _ _ _ _ _ _ Hread Hparse Happly).
  destruct (truthy (dryRun opts)) eqn:Hdry; [by apply (Hone (Ok (Some newText)))|].
  clear Hone.
  assert (Hcheck : ∃ reads,
    trace (when (truthy (checkUpdated opts))
             (recheckUpdated this pageTitle (updated pageJson)) s1).2 = trace s ++ reads ∧
    (reads = [HttpGet (apiUrl this pageTitle)] ∨
     reads = [HttpGet (apiUrl this pageTitle); HttpGet (apiUrl this pageTitle)] ∧
     truthy (checkUpdated opts) = true) ∧
    match (when (truthy (checkUpdated opts))
             (recheckUpdated this pageTitle (updated pageJson)) s1).1 with
    | Ok _ | Thrown (RequestFailed _ _) | Thrown (External _) => True
    | Thrown UpdatedMismatch =>
        reads = [HttpGet (apiUrl this pageTitle); HttpGet (apiUrl this pageTitle)]
    | Thrown _ => False
    end).
  { destruct (truthy (checkUpdated opts)); simpl.
    - destruct (recheckUpdated_outcome this pageTitle (updated pageJson) s1 Hctx)
        as [Ht Hres].
      exists [HttpGet (apiUrl this pageTitle); HttpGet (apiUrl this pageTitle)].
      rewrite Ht, Htr1, <- app_assoc. split_and!; [done|by right|].
      by destruct (recheckUpdated _ _ _ s1).1 as [|[]].
    - exists [HttpGet (apiUrl this pageTitle)]. split_and!; [done|by left|done]. }
  destruct Hcheck as (reads & Htr2 & Hreads & Hres2).
  assert (Hreads' :
    reads = [] ∨ reads = [HttpGet (apiUrl this pageTitle)] ∨
    reads = [HttpGet (apiUrl this pageTitle); HttpGet (apiUrl this pageTitle)] ∧
    truthy (checkUpdated opts) = true ∧ false = false) by (clear -Hreads; tauto).
  assert (Hne : reads ≠ []) by (clear -Hreads; by destruct Hreads as [->|[-> _]]).
  destruct (when _ _ s1) as [[[]|e] s2] eqn:Hwhen; simpl in Htr2, Hres2.
  2: { rewrite (bind_thrown _ _ _ _ _ Hwhen). simpl. exists reads, [], [].
       rewrite !app_nil_r. split_and!; auto. destruct e; try done; auto. }
  rewrite (bind_ok _ _ _ _ _ Hwhen).
  case_bool_decide as Hops.
  { simpl. exists reads, [], []. rewrite !app_nil_r. split_and!; auto. }
  unfold getContext. rewrite Hctx. rewrite !bind_ret_tt.
  destruct (patch_page_run this pageTitle opts
              (buildOps (linesToText (extractLines pageJson)) newText)
              (extractLines pageJson) newText s2 Hctx)
    as (rest & closing & Htr3 & Hall & Hres3).
  exists reads, (NewPage :: rest), closing. split_and!.
  - rewrite Htr3, Htr2. by rewrite <- app_assoc.
  - done.
  - right. by exists rest.
  - match type of Hres3 with
    | match ?r with _ => _ end => destruct r as [[?|]|[]]
    end; try done; intuition.
  - match type of Hres3 with
    | match ?r with _ => _ end => destruct r as [[?|]|[]]
    end; try done; try (split_and!; auto; done).
    destruct Hres3 as [Hin ->]. split; [|done]. by apply elem_of_cons; right.
Qed.

End PatchEveryRun.

Section PatchTheorems.
Context `{Host}.
Local Open Scope prog_scope.


(** X16.  [patch] fails for want of a context exactly on a client whose
    context is not set, and then it has made no call and left the world as it
    was. *)
Theorem patch_on_closed_client this pageTitle diffText opts s :
  ((patch this pageTitle diffText opts s).1 = Thrown ClientNotInitialized
   ↔ context this = false) ∧
  (context this = false → (patch this pageTitle diffText opts s).2 = s).
Proof.
  assert (Hclosed : context this = false →
            patch this pageTitle diffText opts s = (Thrown ClientNotInitialized, s)).
  { intros Hctx. apply patch_read_failed. unfold readJson, getContext. by rewrite Hctx. }
  split; [split|].
  - intros Hres.
    destruct (patch_run this pageTitle diffText opts s) as (? & ? & ? & _ & _ & _ & _ & Hr).
    rewrite Hres in Hr. tauto.
  - intros Hctx. by rewrite Hclosed.
  - intros Hctx. by rewrite Hclosed.
Qed.


(** X18.  [patch] fails with the updated mismatch only when [checkUpdated] is
    set and [dryRun] is not, and then the two reads are the only calls it has
    made. *)
Theorem patch_stale_error_needs_the_check this pageTitle diffText opts s :
  (patch this pageTitle diffText opts s).1 = Thrown UpdatedMismatch →
  truthy (checkUpdated opts) = true ∧ truthy (dryRun opts) = false ∧
  trace (patch this pageTitle diffText opts s).2
  = trace s ++ [HttpGet (apiUrl this pageTitle); HttpGet (apiUrl this pageTitle)].
Proof.
  intros Hres.
  destruct (patch_run this pageTitle diffText opts s)
    as (reads & inner & closing & Htr & Hreads & Hinner & _ & Hr).
  rewrite Hres in Hr. destruct Hr as [-> ->].
  destruct Hinner as [[_ ->]|(? & ? & _)]; [|done].
  destruct Hreads as [?|[?|(_ & ? & ?)]]; done.
Qed.

(** X19.  When [patch] fails because the slow path finds no line, the page
    has been opened and the editor clicked, and every call behind the opening
    is a call on the open page: the page is not closed and the document is
    not read again. *)
Theorem patch_line_not_found_leaves_page_open this pageTitle diffText opts s index :
  (patch this pageTitle diffText opts s).1 = Thrown (LineNotFound index) →
  ∃ reads rest,
    trace (patch this pageTitle diffText opts s).2 = trace s ++ reads ++ NewPage :: rest ∧
    Forall (fun c => c = HttpGet (apiUrl this pageTitle)) reads ∧
    ClickSelector "#editor" ∈ rest ∧
    Forall (fun c => on_open_page c = true) rest.
Proof.
  intros Hres.
  destruct (patch_run this pageTitle diffText opts s)
    as (reads & inner & closing & Htr & Hreads & Hinner & _ & Hr).
  rewrite Hres in Hr. destruct Hr as [Hin ->].
  destruct Hinner as [[-> _]|(rest & -> & Hall & _)]; [by apply elem_of_nil in Hin|].
  exists reads, rest. rewrite app_nil_r in Htr. split_and!; [done| | |done].
  - destruct Hreads as [->|[->|[-> _]]]; by repeat constructor.
  - by apply elem_of_cons in Hin as [|].
Qed.

(** X20.  What the result of [patch] tells.  A text is returned only in a dry
    run, after the one read.  Nothing is returned only outside a dry run, and
    then either no page was opened, or the page was opened, closed, and the
    document read once more.  The verification fails only after the page was
    opened, closed and the document read once more. *)
Theorem patch_result_tells_the_run this pageTitle diffText opts s :
  match (patch this pageTitle diffText opts s).1 with
  | Ok (Some _) =>
      truthy (dryRun opts) = true ∧
      trace (patch this pageTitle diffText opts s).2
      = trace s ++ [HttpGet (apiUrl this pageTitle)]
  | Ok None =>
      truthy (dryRun opts) = false ∧
      ((∃ reads, trace (patch this pageTitle diffText opts s).2 = trace s ++ reads ∧
                 reads ≠ [] ∧ Forall (fun c => c = HttpGet (apiUrl this pageTitle)) reads) ∨
       (∃ reads rest,
          trace (patch this pageTitle diffText opts s).2
          = trace s ++ reads ++ NewPage :: rest
              ++ [ClosePage; HttpGet (apiUrl this pageTitle)] ∧
          Forall (fun c => on_open_page c = true) rest))
  | Thrown VerificationFailed =>
      ∃ reads rest,
        trace (patch this pageTitle diffText opts s).2
        = trace s ++ reads ++ NewPage :: rest
            ++ [ClosePage; HttpGet (apiUrl this pageTitle)] ∧
        Forall (fun c => on_open_page c = true) rest
  | Thrown _ => True
  end.
Proof.
  destruct (patch_run this pageTitle diffText opts s)
    as (reads & inner & closing & Htr & Hreads & Hinner & _ & Hr).
  assert (Hget : Forall (fun c => c = HttpGet (apiUrl this pageTitle)) reads).
  { destruct Hreads as [->|[->|[-> _]]]; by repeat constructor. }
  destruct (patch this pageTitle diffText opts s).1 as [[text|]|[]]; try done.
  - destruct Hr as (Hdry & -> & ->).
    destruct Hinner as [[_ ->]|(? & ? & _)]; done.
  - destruct Hr as (Hdry & Hne & Hcase). split; [done|].
    destruct Hinner as [[-> ->]|(rest & -> & Hall & _)].
    + left. exists reads. by rewrite !app_nil_r in Htr.
    + destruct Hcase as [?| ->]; [done|]. right. by exists reads, rest.
  - destruct Hr as [Hne ->].
    destruct Hinner as [[-> _]|(rest & -> & Hall & _)]; [done|]. by exists reads, rest.
Qed.

End PatchTheorems.


(** The page that another writer keeps changing. *)
Lemma patch_stale_error_needs_the_check_witness :
  trace (@patch sim_host sim_client "page" text_axc opts_checked
           (sim_start ["a"; "b"; "c"] true true)).2
  = [HttpGet (@apiUrl sim_host sim_client "page");
     HttpGet (@apiUrl sim_host sim_client "page")].
Proof.
  destruct (@patch_stale_error_needs_the_check sim_host sim_client "page" text_axc
              opts_checked (sim_start ["a"; "b"; "c"] true true)) as (_ & _ & Htr).
  - reflexivity.
  - exact Htr.
Defined.

(** The host without the bridge, on which simulated input finds no line. *)
Lemma patch_line_not_found_leaves_page_open_witness :
  ∃ reads rest,
    trace (@patch sim_host sim_client "page" text_axc opts_plain
             (sim_start ["a"; "b"; "c"] false false)).2
    = [] ++ reads ++ NewPage :: rest ∧
    Forall (fun c => c = HttpGet (@apiUrl sim_host sim_client "page")) reads ∧
    ClickSelector "#editor" ∈ rest ∧
    Forall (fun c => on_open_page c = true) rest.
Proof.
  apply (@patch_line_not_found_leaves_page_open sim_host sim_client "page" text_axc
           opts_plain (sim_start ["a"; "b"; "c"] false false) 1).
  reflexivity.
Defined.

(** * The host name and the command line *)

Lemma normalizeHost_String c rest :
  rest ≠ EmptyString → normalizeHost (String c rest) = String c (normalizeHost rest).
Proof. by destruct rest. Qed.

(** X21.  [normalizeHost] drops exactly one slash at the end of a host name
    and leaves every other host name as it is; of two slashes at the end one
    stays. *)
Theorem normalizeHost_drops_one_slash :
  (∀ name, normalizeHost (name +:+ "/") = name) ∧
  (∀ name, (∀ prefix, name ≠ prefix +:+ "/") → normalizeHost name = name) ∧
  (∀ name, normalizeHost (name +:+ "//") = name +:+ "/").
Proof.
  assert (Hslash : ∀ name, normalizeHost (name +:+ "/") = name).
  { intros name. induction name as [|c name IH]; [done|].
    rewrite string_app_String, normalizeHost_String, IH; [done|]. by destruct name. }
  split_and!; [done| |].
  - intros name. induction name as [|c name IH]; [done|]. intros Hno.
    destruct (decide (name = EmptyString)) as [->|Hne].
    + simpl. case_decide as Hc; [|done]. subst c. by destruct (Hno EmptyString).
    + rewrite normalizeHost_String, IH; [done| |done].
      intros prefix ->. by apply (Hno (String c prefix)).
  - intros name. change "//" with ("/" +:+ "/").
    by rewrite <- string_app_assoc, Hslash.
Qed.

(** ** [parseArgs] *)

Lemma parseArgs_from_text a next rest out :
  starts_with_dashes a = true → is_value next = true →
  parseArgs_from (a :: next :: rest) out
  = parseArgs_from rest (set_option (slice2 a) (ArgText next) out).
Proof. intros Ha Hn. simpl. by rewrite Ha, Hn. Qed.

Lemma parseArgs_from_flag a rest out :
  starts_with_dashes a = true → head (is_value <$> rest) ≠ Some true →
  parseArgs_from (a :: rest) out
  = parseArgs_from rest (set_option (slice2 a) ArgFlag out).
Proof.
  intros Ha Hn. simpl. rewrite Ha. destruct rest as [|next rest']; [done|].
  simpl in Hn. by destruct (is_value next).
Qed.

Lemma parseArgs_from_positional a rest out :
  starts_with_dashes a = false →
  parseArgs_from (a :: rest) out
  = match out !! "_" with
    | Some (ArgList items) => parseArgs_from rest (<["_" := ArgList (items ++ [a])]> out)
    | _ => None
    end.
Proof. intros Ha. simpl. by rewrite Ha. Qed.

(** Induction along the loop of [parseArgs]: an option with its value, an
    option alone, a positional argument. *)
Lemma parseArgs_ind (Q : list string → Prop) :
  Q [] →
  (∀ a next rest,
     starts_with_dashes a = true → is_value next = true → Q rest → Q (a :: next :: rest)) →
  (∀ a rest,
     starts_with_dashes a = true → head (is_value <$> rest) ≠ Some true → Q rest →
     Q (a :: rest)) →
  (∀ a rest, starts_with_dashes a = false → Q rest → Q (a :: rest)) →
  ∀ argv, Q argv.
Proof.
  intros Hnil Htext Hflag Hpos argv.
  assert (Hall : ∀ n argv, length argv ≤ n → Q argv).
  { clear argv. induction n as [|n IH]; intros argv Hlen.
    { destruct argv; [done|simpl in Hlen; lia]. }
    destruct argv as [|a rest]; [done|]. simpl in Hlen.
    destruct (starts_with_dashes a) eqn:Ha; [|apply Hpos; [done|apply IH; lia]].
    destruct rest as [|next rest'].
    { by apply Hflag. }
    destruct (is_value next) eqn:Hn.
    - apply Htext; [done|done|]. apply IH. simpl in Hlen. lia.
    - apply Hflag; [done| |apply IH; lia]. simpl. rewrite Hn. done. }
  by apply (Hall (length argv)).
Qed.

Lemma starts_with_dashes_slice2 a :
  starts_with_dashes a = true → a = "--" +:+ slice2 a.
Proof.
  destruct a as [|c1 [|c2 rest]]; try done. simpl.
  intros [Hc1 Hc2]%andb_prop.
  apply bool_decide_eq_true_1 in Hc1. apply bool_decide_eq_true_1 in Hc2. by subst.
Qed.

Lemma is_value_spec next :
  is_value next = true → next ≠ EmptyString ∧ starts_with_dashes next = false.
Proof.
  unfold is_value. intros [Hne Hd]%andb_prop.
  apply negb_true_iff in Hne. apply negb_true_iff in Hd.
  by apply bool_decide_eq_false_1 in Hne.
Qed.

Lemma lookup_set_option key value out k :
  set_option key value out !! k
  = if decide (key = "__proto__") then out !! k
    else if decide (key = k) then Some value else out !! k.
Proof.
  unfold set_option. case_decide; [done|]. case_decide as Hk.
  - subst k. apply lookup_insert_eq.
  - by apply lookup_insert_ne.
Qed.

(** The texts that the loop stores come from values of the command line. *)
Lemma parseArgs_from_texts argv : ∀ out0 out key text,
  parseArgs_from argv out0 = Some out → out !! key = Some (ArgText text) →
  out0 !! key = Some (ArgText text) ∨ (is_value text = true ∧ text ∈ argv).
Proof.
  induction argv as [|a next rest Ha Hn IH|a rest Ha Hn IH|a rest Ha IH] using parseArgs_ind;
    intros out0 out key text Hrun Hkey.
  - injection Hrun as <-. by left.
  - rewrite parseArgs_from_text in Hrun by done.
    destruct (IH _ _ _ _ Hrun Hkey) as [H0|[Hv Hin]].
    + rewrite lookup_set_option in H0. repeat case_decide; [by left| |by left].
      injection H0 as <-. right. split; [done|]. rewrite !elem_of_cons. tauto.
    + right. split; [done|]. rewrite !elem_of_cons. tauto.
  - rewrite parseArgs_from_flag in Hrun by done.
    destruct (IH _ _ _ _ Hrun Hkey) as [H0|[Hv Hin]].
    + rewrite lookup_set_option in H0. repeat case_decide; [by left|done|by left].
    + right. split; [done|]. rewrite elem_of_cons. tauto.
  - rewrite parseArgs_from_positional in Hrun by done.
    destruct (out0 !! "_") as [[| |items]|] eqn:Hitems; try done.
    destruct (IH _ _ _ _ Hrun Hkey) as [H0|[Hv Hin]].
    + destruct (decide (key = "_")) as [->|Hne].
      * by rewrite lookup_insert_eq in H0.
      * rewrite lookup_insert_ne in H0 by done. by left.
    + right. split; [done|]. rewrite elem_of_cons. tauto.
Qed.

(** The own properties that the loop sets are the names of the options of
    the command line. *)
Lemma parseArgs_from_keys argv : ∀ out0 out key,
  parseArgs_from argv out0 = Some out → key ≠ "_" → key ≠ "__proto__" →
  is_Some (out !! key) ↔ is_Some (out0 !! key) ∨ ("--" +:+ key) ∈ argv.
Proof.
  assert (Hopt : ∀ a key, starts_with_dashes a = true →
            ("--" +:+ key = a ↔ slice2 a = key)).
  { intros a key Ha. split.
    - by intros <-.
    - intros <-. symmetry. by apply starts_with_dashes_slice2. }
  assert (Hval : ∀ next key, starts_with_dashes next = false → "--" +:+ key ≠ next).
  { intros next key Hn <-. done. }
  induction argv as [|a next rest Ha Hn IH|a rest Ha Hn IH|a rest Ha IH] using parseArgs_ind;
    intros out0 out key Hrun Hk1 Hk2.
  - injection Hrun as <-. rewrite elem_of_nil. tauto.
  - rewrite parseArgs_from_text in Hrun by done.
    rewrite (IH _ _ _ Hrun Hk1 Hk2), lookup_set_option, !elem_of_cons.
    pose proof (Hopt a key Ha). destruct (is_value_spec _ Hn) as [_ Hd].
    pose proof (Hval next key Hd).
    repeat case_decide; subst; split; intros Hx;
      first [tauto|by left; eexists|intuition congruence].
  - rewrite parseArgs_from_flag in Hrun by done.
    rewrite (IH _ _ _ Hrun Hk1 Hk2), lookup_set_option, !elem_of_cons.
    pose proof (Hopt a key Ha).
    repeat case_decide; subst; split; intros Hx;
      first [tauto|by left; eexists|intuition congruence].
  - rewrite parseArgs_from_positional in Hrun by done.
    destruct (out0 !! "_") as [[| |items]|] eqn:Hitems; try done.
    rewrite (IH _ _ _ Hrun Hk1 Hk2), lookup_insert_ne, !elem_of_cons by done.
    pose proof (Hval a key Ha). intuition congruence.
Qed.

(** The positional arguments gather under ["_"] in order. *)
Lemma parseArgs_from_positionals argv : ∀ out0 items0,
  out0 !! "_" = Some (ArgList items0) → "--_" ∉ argv →
  ∃ out items,
    parseArgs_from argv out0 = Some out ∧
    out !! "_" = Some (ArgList (items0 ++ items)) ∧
    sublist items argv ∧
    Forall (fun a => starts_with_dashes a = false) items.
Proof.
  assert (Hkeep : ∀ a value (out0 : gmap string ArgValue),
            a ≠ "--_" → starts_with_dashes a = true →
            set_option (slice2 a) value out0 !! "_" = out0 !! "_").
  { intros a value out0 Hne Ha. rewrite lookup_set_option.
    destruct (decide (slice2 a = "__proto__")); [done|].
    destruct (decide (slice2 a = "_")) as [Hs|]; [|done].
    destruct Hne. rewrite (starts_with_dashes_slice2 a Ha). by rewrite Hs. }
  induction argv as [|a next rest Ha Hn IH|a rest Ha Hn IH|a rest Ha IH] using parseArgs_ind;
    intros out0 items0 H0 Hno.
  - exists out0, []. rewrite app_nil_r. by repeat constructor.
  - rewrite parseArgs_from_text by done.
    rewrite !not_elem_of_cons in Hno. destruct Hno as (Hne & _ & Hno).
    destruct (IH (set_option (slice2 a) (ArgText next) out0) items0)
      as (out & items & Hrun & Hitems & Hsub & Hall); [|done|].
    { rewrite Hkeep by done. done. }
    exists out, items. split_and!; [done|done| |done].
    by do 2 apply sublist_cons.
  - rewrite parseArgs_from_flag by done.
    rewrite not_elem_of_cons in Hno. destruct Hno as (Hne & Hno).
    destruct (IH (set_option (slice2 a) ArgFlag out0) items0)
      as (out & items & Hrun & Hitems & Hsub & Hall); [|done|].
    { rewrite Hkeep by done. done. }
    exists out, items. split_and!; [done|done| |done].
    by apply sublist_cons.
  - rewrite parseArgs_from_positional, H0 by done.
    rewrite not_elem_of_cons in Hno. destruct Hno as (Hne & Hno).
    destruct (IH (<["_" := ArgList (items0 ++ [a])]> out0) (items0 ++ [a]))
      as (out & items & Hrun & Hitems & Hsub & Hall); [by rewrite lookup_insert_eq|done|].
    exists out, (a :: items). split_and!; [done| | |by constructor].
    + by rewrite Hitems, <- app_assoc.
    + by apply sublist_skip.
Qed.

Lemma parseArgs_texts_are_values argv out key text :
  parseArgs argv = Some out → out !! key = Some (ArgText text) →
  text ∈ argv ∧ text ≠ EmptyString ∧ starts_with_dashes text = false.
Proof.
  intros Hrun Hkey.
  destruct (parseArgs_from_texts _ _ _ _ _ Hrun Hkey) as [H0|[Hv Hin]].
  - destruct (decide (key = "_")) as [->|Hne].
    + by rewrite lookup_singleton_eq in H0.
    + by rewrite lookup_singleton_ne in H0.
  - split; [done|]. by apply is_value_spec.
Qed.

(** X22.  The text that [parseArgs] stores for an option is an argument of the
    command line, is not empty and does not start with two dashes.  A text
    that starts with two dashes, as a unified diff does with its header of
    three, is never taken as the value of the option before it. *)
Theorem parseArgs_values_never_start_with_dashes argv out key text :
  parseArgs argv = Some out → out !! key = Some (ArgText text) →
  text ∈ argv ∧ text ≠ EmptyString ∧ starts_with_dashes text = false.
Proof. apply parseArgs_texts_are_values. Qed.

(** X23.  The flags that [main] hands to [patch] are set exactly when the name
    of the option is among the arguments, whatever follows it: a word after
    the option, be it [false], is taken as its value and the value is
    truthy. *)
Theorem parseArgs_flags_ignore_their_value argv out :
  parseArgs argv = Some out →
  (dryRun_of out = true ↔ "--dry-run" ∈ argv) ∧
  (checkUpdated_of out = true ↔ "--check-updated" ∈ argv).
Proof.
  intros Hrun.
  assert (Hflag : ∀ key, key ≠ "_" → key ≠ "__proto__" →
            js_truthy (out !! key) = true ↔ ("--" +:+ key) ∈ argv).
  { intros key Hk1 Hk2.
    pose proof (parseArgs_from_keys _ _ _ _ Hrun Hk1 Hk2) as Hkeys.
    rewrite lookup_singleton_ne in Hkeys by done.
    assert (Hin : is_Some (out !! key) ↔ ("--" +:+ key) ∈ argv).
    { rewrite Hkeys. split; [|by right]. intros [Hnone|?]; [|done].
      by apply is_Some_None in Hnone. }
    rewrite <- Hin.
    destruct (out !! key) as [[text| |items]|] eqn:Hkey; simpl.
    - destruct (parseArgs_texts_are_values argv out key text Hrun Hkey) as (_ & Hne & _).
      rewrite bool_decide_eq_false_2 by done. split; [by eexists|done].
    - split; [by eexists|done].
    - split; [by eexists|done].
    - split; [done|]. by intros [? ?]. }
  split; by apply Hflag.
Qed.

(** X24.  On a command line that does not hold the argument [--_], [parseArgs]
    returns, and the array under ["_"] holds, in the order of the command
    line, arguments that do not start with two dashes; on a command line
    without any argument that starts with two dashes it holds them all, and
    nothing else is set. *)
Theorem parseArgs_gathers_positionals argv :
  ("--_" ∉ argv →
   ∃ out items,
     parseArgs argv = Some out ∧ out !! "_" = Some (ArgList items) ∧
     sublist items argv ∧ Forall (fun a => starts_with_dashes a = false) items) ∧
  (Forall (fun a => starts_with_dashes a = false) argv →
   parseArgs argv = Some {["_" := ArgList argv]}).
Proof.
  split.
  - intros Hno.
    destruct (parseArgs_from_positionals argv {["_" := ArgList []]} [])
      as (out & items & Hrun & Hitems & Hsub & Hall);
      [by rewrite lookup_singleton_eq|done|].
    by exists out, items.
  - intros Hall. unfold parseArgs.
    assert (Hgen : ∀ items0,
              parseArgs_from argv {["_" := ArgList items0]}
              = Some {["_" := ArgList (items0 ++ argv)]}).
    { induction Hall as [|a rest Ha _ IH]; intros items0; [by rewrite app_nil_r|].
      rewrite parseArgs_from_positional, lookup_singleton_eq by done.
      rewrite insert_singleton_eq, IH, <- app_assoc. done. }
    apply (Hgen []).
Qed.

(** An option with its value, and a diff whose header is taken for an
    option. *)
Lemma parseArgs_values_never_start_with_dashes_witness :
  "200" ∈ ["T"; "--diff"; "--- a/T"; "--wait"; "200"] ∧ "200" ≠ EmptyString ∧
  starts_with_dashes "200" = false.
Proof.
  eapply (parseArgs_values_never_start_with_dashes
            ["T"; "--diff"; "--- a/T"; "--wait"; "200"] _ "wait" "200").
  - reflexivity.
  - reflexivity.
Defined.

(** The word [false] behind the option of the dry run. *)
Lemma parseArgs_flags_ignore_their_value_witness :
  ∃ out, parseArgs ["T"; "--dry-run"; "false"] = Some out ∧
         out !! "dry-run" = Some (ArgText "false") ∧ dryRun_of out = true.
Proof.
  eexists. split; [reflexivity|]. split; [reflexivity|].
  eapply (parseArgs_flags_ignore_their_value ["T"; "--dry-run"; "false"]).
  - reflexivity.
  - rewrite !elem_of_cons. tauto.
Defined.

(** * The fast path on the document: the other cases *)

Lemma string_app_inv_head (a b c : string) : a +:+ b = a +:+ c → b = c.
Proof.
  induction a as [|x a IH]; [done|]. rewrite !string_app_String. intros [= Heq]. by apply IH.
Qed.

Lemma internalPatch_calls_nil current lines :
  internalPatch_calls current lines = [] ↔ current = lines.
Proof.
  rewrite internalPatch_calls_overlap. split.
  - intros [Hover Htail]%app_eq_nil.
    assert (Hlen : length current = length lines).
    { repeat case_bool_decide; [| |lia].
      - apply fmap_nil_inv in Htail.
        apply (f_equal length) in Htail. rewrite length_seq in Htail. simpl in Htail. lia.
      - apply fmap_nil_inv in Htail.
        apply (f_equal length) in Htail.
        rewrite length_reverse, length_seq in Htail. simpl in Htail. lia. }
    apply list_eq. intros i.
    destruct (decide (i < length current)) as [Hi|Hi].
    + destruct (lookup_lt_is_Some_2 lines i) as [text Htext]; [lia|].
      destruct (decide (current !! i = Some text)) as [Hc|Hc]; [by rewrite Hc, Htext|].
      assert (Hin : UpdateLine text i ∈ overlap_updates current lines
                                          (length current `min` length lines)).
      { apply elem_of_overlap_updates; [lia|]. exists i, text. split_and!; [done|lia|done|done]. }
      rewrite Hover in Hin. by apply elem_of_nil in Hin.
    + rewrite !lookup_ge_None_2 by lia. done.
  - intros ->. rewrite Nat.min_id.
    rewrite !bool_decide_eq_false_2 by lia. rewrite app_nil_r.
    destruct (overlap_updates lines lines (length lines)) as [|c rest] eqn:Hover; [done|].
    assert (Hin : c ∈ overlap_updates lines lines (length lines))
      by (rewrite Hover; apply elem_of_cons; by left).
    apply elem_of_overlap_updates in Hin as (i & text & _ & _ & Hl & Hc); [done|lia].
Qed.

(** X25.  The page script calls neither [updateLine] nor [insertLine] exactly
    when the document already holds the target lines: the attempt of the fast
    path is then the probe, the read of the lines and the wait for the
    save. *)
Theorem fast_path_makes_no_call_iff_equal (current lines : list string) :
  internalPatch_calls current lines = [] ↔ current = lines.
Proof. apply internalPatch_calls_nil. Qed.

(** X26.  When the target has at least as many lines as the document, the
    calls of the page script leave in the document exactly the target lines:
    every call is the update of a line of the document whose text differs, to
    the text of the target, or the insertion of a line of the target at its
    index behind the lines of the document. *)
Theorem fast_path_reaches_longer_target (current lines : list string) :
  length current ≤ length lines →
  run_bridge (internalPatch_calls current lines) current = lines ∧
  ∀ c, c ∈ internalPatch_calls current lines →
    (∃ text i, c = UpdateLine text i ∧ i < length current ∧
               lines !! i = Some text ∧ current !! i ≠ Some text) ∨
    (∃ text i, c = InsertLine text i ∧ length current ≤ i < length lines ∧
               lines !! i = Some text).
Proof.
  intros Hlen. split.
  - rewrite run_bridge_internalPatch_calls.
    replace (length current - length lines) with 0 by lia. apply app_nil_r.
  - intros c. rewrite internalPatch_calls_overlap, elem_of_app, Nat.min_l by lia.
    rewrite elem_of_overlap_updates by lia.
    intros [(i & text & -> & Hi & Hl & Hc)|Htail].
    + left. by exists text, i.
    + right. case_bool_decide.
      * apply list_elem_of_fmap in Htail as (i & -> & Hi%elem_of_seq).
        destruct (lookup_lt_is_Some_2 lines i) as [text Htext]; [lia|].
        exists text, i. rewrite Htext. split_and!; [done|lia|lia|done].
      * rewrite bool_decide_eq_false_2 in Htail by lia. by apply elem_of_nil in Htail.
Qed.

(** Three lines brought to four. *)
Lemma fast_path_reaches_longer_target_witness :
  run_bridge (internalPatch_calls ["a"; "b"; "c"] ["a"; "x"; "c"; "d"]) ["a"; "b"; "c"]
  = ["a"; "x"; "c"; "d"].
Proof.
  destruct (fast_path_reaches_longer_target ["a"; "b"; "c"] ["a"; "x"; "c"; "d"])
    as [Hdoc _]; [simpl; lia|].
  exact Hdoc.
Defined.

(** * The fast path against the verification *)

Lemma join_newline_snoc lines line :
  lines ≠ [] → join_newline (lines ++ [line]) = join_newline lines +:+ NL +:+ line.
Proof.
  induction lines as [|first rest IH]; [done|]. intros _.
  destruct rest as [|next rest].
  - simpl. rewrite join_newline_cons. done.
  - change ((first :: next :: rest) ++ [line]) with (first :: (next :: rest) ++ [line]).
    change ((next :: rest) ++ [line]) with (next :: rest ++ [line]) at 1.
    rewrite join_newline_cons.
    change (next :: rest ++ [line]) with ((next :: rest) ++ [line]).
    rewrite IH by done. rewrite join_newline_cons.
    by rewrite !string_app_assoc.
Qed.

Lemma concat_separators_S count :
  String.concat EmptyString (replicate (S count) NL)
  = NL +:+ String.concat EmptyString (replicate count NL).
Proof. by destruct count. Qed.

Lemma concat_separators_end count :
  String.concat EmptyString (replicate (S count) NL)
  = String.concat EmptyString (replicate count NL) +:+ NL.
Proof.
  induction count as [|count IH]; [done|].
  rewrite (concat_separators_S (S count)). rewrite IH at 1.
  by rewrite <- string_app_assoc, <- concat_separators_S.
Qed.

Lemma join_newline_blanks lines count :
  lines ≠ [] →
  join_newline (lines ++ replicate count EmptyString)
  = join_newline lines +:+ String.concat EmptyString (replicate count NL).
Proof.
  intros Hne. induction count as [|count IH].
  - simpl. by rewrite app_nil_r, string_app_nil_r.
  - rewrite replicate_S_end, app_assoc, join_newline_snoc by (by destruct lines).
    rewrite IH, string_app_nil_r, string_app_assoc. f_equal.
    by rewrite concat_separators_end.
Qed.

Lemma length_concat_separators count :
  String.length (String.concat EmptyString (replicate count NL)) = count.
Proof.
  induction count as [|count IH]; [done|].
  rewrite concat_separators_S, string_length_app, IH. done.
Qed.

Lemma verification_of_blanks value count :
  join_newline (splitLines value ++ replicate count EmptyString) = value ↔
  (count = 0 ∧ ends_with_newline value = false) ∨
  (count = 1 ∧ (ends_with_newline value = true ∨ value = EmptyString)).
Proof.
  pose proof (join_splitLines value) as Hjoin.
  destruct (splitLines value) as [|line lines] eqn:Hlines.
  - apply splitLines_empty_iff in Hlines. subst value. simpl.
    destruct count as [|[|count]]; simpl.
    + split; [by left|done].
    + split; [right; by auto|done].
    + split; [|intros [[? _]|[? _]]; lia].
      change (replicate (S (S count)) EmptyString)
        with (EmptyString :: EmptyString :: replicate count EmptyString).
      by rewrite join_newline_cons.
  - rewrite join_newline_blanks by done.
    assert (Hvalue : value ≠ EmptyString).
    { intros ->. done. }
    set (suffix := if ends_with_newline value then NL else EmptyString) in *.
    split.
    + intros Heq. rewrite <- Hjoin in Heq. apply string_app_inv_head in Heq.
      apply (f_equal String.length) in Heq as Hlen.
      rewrite length_concat_separators in Hlen. subst suffix.
      destruct (ends_with_newline value); simpl in Hlen; subst count; [right|left]; auto.
    + intros Hcase. rewrite <- Hjoin. f_equal. subst suffix.
      destruct Hcase as [[-> ->]|[-> [->|Hempty]]]; done.
Qed.

(** X27.  The verification at the end of [patch] against what the fast path
    leaves, the bridge doing to the document what [bridge_effect] says.  The
    text of the document after the calls of the page script is the target
    text exactly when the document had no more lines than the
    target and the target text does not end with the separator, or had one
    line more and the target text ends with the separator or is empty.  A
    document that loses two lines or more by the fast path, and a target that
    ends with the separator given to a document that is not longer, do not
    pass. *)
Theorem fast_path_passes_verification_iff (current : list string) (newText : string) :
  join_newline (run_bridge (internalPatch_calls current (splitLines newText)) current)
  = newText ↔
  (length current ≤ length (splitLines newText) ∧ ends_with_newline newText = false) ∨
  (length current = S (length (splitLines newText)) ∧
   (ends_with_newline newText = true ∨ newText = EmptyString)).
Proof.
  rewrite run_bridge_internalPatch_calls, verification_of_blanks.
  split; intros [[Hlen Hends]|[Hlen Hends]]; [left|right|left|right];
    (split; [lia|done]).
Qed.

(** * [append] *)

Section AppendRuns.
Context `{Host} `{UrlQuery}.
Local Open Scope prog_scope.

(** X28.  [append] on a client without context fails at once and makes no
    call.  Otherwise it opens a page, navigates once, to the URL that carries
    the body as its parameter, waits when the wait is positive, 1500 ms when
    the caller names none, and closes the page; it reads nothing over HTTP
    and presses no key.  It fails only with the exception of a collaborator,
    having made the calls up to the one that raised: the page stays open when
    the navigation or the wait fails. *)
Theorem append_opens_navigates_closes this pageTitle body waitMs s :
  match (append this pageTitle body waitMs s).1 with
  | Ok _ =>
      context this = true ∧
      trace (append this pageTitle body waitMs s).2
      = trace s ++ append_calls this pageTitle body waitMs
  | Thrown ClientNotInitialized =>
      context this = false ∧ (append this pageTitle body waitMs s).2 = s
  | Thrown (External _) =>
      context this = true ∧
      ∃ calls, trace (append this pageTitle body waitMs s).2 = trace s ++ calls ∧
               calls ≠ [] ∧ calls `prefix_of` append_calls this pageTitle body waitMs
  | Thrown _ => False
  end.
Proof.
  unfold append, append_calls, getContext. cbv zeta.
  destruct (context this); [|done]. rewrite bind_ret_tt.
  set (wait := default 1500%Z waitMs).
  assert (Hext : ∀ c s0 e s1, perform c s0 = (Thrown e, s1) →
            ∃ x, e = External x).
  { intros c s0 e s1 Hrun. apply perform_thrown in Hrun. destruct e; try done. by eexists. }
  destruct (perform NewPage s) as [[[]|e] s1] eqn:H1;
    pose proof (perform_unit _ _ _ _ H1) as Ht1.
  2: { rewrite (bind_thrown _ _ _ _ _ H1). destruct (Hext _ _ _ _ H1) as [x ->]. simpl.
       split; [done|]. exists [NewPage]. split_and!; [done|done|]. by eexists. }
  rewrite (bind_ok _ _ _ _ _ H1).
  destruct (perform (Goto (appendUrl this pageTitle body)) s1) as [[[]|e] s2] eqn:H2;
    pose proof (perform_unit _ _ _ _ H2) as Ht2.
  2: { rewrite (bind_thrown _ _ _ _ _ H2). destruct (Hext _ _ _ _ H2) as [x ->]. simpl.
       split; [done|]. exists [NewPage; Goto (appendUrl this pageTitle body)].
       split_and!; [|done|by eexists]. rewrite Ht2, Ht1, <- app_assoc. done. }
  rewrite (bind_ok _ _ _ _ _ H2).
  case_bool_decide as Hwait; cbn [when].
  - destruct (perform (WaitForTimeout wait) s2) as [[[]|e] s3] eqn:H3;
      pose proof (perform_unit _ _ _ _ H3) as Ht3.
    2: { rewrite (bind_thrown _ _ _ _ _ H3). destruct (Hext _ _ _ _ H3) as [x ->]. simpl.
         split; [done|].
         exists [NewPage; Goto (appendUrl this pageTitle body); WaitForTimeout wait].
         split_and!; [|done|by eexists]. rewrite Ht3, Ht2, Ht1, <- !app_assoc. done. }
    rewrite (bind_ok _ _ _ _ _ H3).
    destruct (perform ClosePage s3) as [[[]|e] s4] eqn:H4;
      pose proof (perform_unit _ _ _ _ H4) as Ht4; simpl.
    + split; [done|]. rewrite Ht4, Ht3, Ht2, Ht1, <- !app_assoc. done.
    + destruct (Hext _ _ _ _ H4) as [x ->]. split; [done|].
      eexists. split_and!; [rewrite Ht4, Ht3, Ht2, Ht1, <- !app_assoc; done|done|done].
  - rewrite bind_ret_tt.
    destruct (perform ClosePage s2) as [[[]|e] s4] eqn:H4;
      pose proof (perform_unit _ _ _ _ H4) as Ht4; simpl.
    + split; [done|]. rewrite Ht4, Ht2, Ht1, <- !app_assoc. done.
    + destruct (Hext _ _ _ _ H4) as [x ->]. split; [done|].
      eexists. split_and!; [rewrite Ht4, Ht2, Ht1, <- !app_assoc; done|done|done].
Qed.

End AppendRuns.

(** * Runs of the slow path on the host on which every locator matches *)

(** The change of one line: the insertion at index 2 is typed before the
    line at index 1 is removed. *)
Lemma applyOps_keys_and_texts_witness :
  keys_of (trace (@applyOps found_host [Remove 1 1; Insert 2 ["x"]] snapshot_abc
                    (found_start ["a"; "b"; "c"])).2)
  = ["End"; "Enter"; "Control+A"; "Backspace"; "Backspace"] ∧
  texts_of (trace (@applyOps found_host [Remove 1 1; Insert 2 ["x"]] snapshot_abc
                     (found_start ["a"; "b"; "c"])).2)
  = ["x"].
Proof.
  destruct (@applyOps_keys_and_texts found_host [Remove 1 1; Insert 2 ["x"]] snapshot_abc
              (found_start ["a"; "b"; "c"])) as (calls & Htr & _ & Hres).
  rewrite Htr. exact Hres.
Defined.

(** A line found by its id at the first selector. *)
Lemma findLine_counts_until_found_witness :
  ∃ calls,
    calls = [LocatorCount (Css "#editor #L5f")] ∧
    ∃ probe, last calls = Some (LocatorCount probe) ∧
             (LocFirst (Css "#editor #L5f") = probe ∨
              LocFirst (Css "#editor #L5f") = LocFirst probe).
Proof.
  destruct (@findLine_counts_until_found found_host
              (Some {| id := Some "5f"; text := "b" |}) 1 (found_start ["a"; "b"; "c"]))
    as (calls & Htr & _ & _ & Hres).
  exists calls. split; [symmetry; exact Htr|exact Hres].
Defined.

(** Two lines removed at index 1. *)
Lemma deleteLines_presses_backspace_twice_witness :
  keys_of (trace (@deleteLines found_host 1 2 snapshot_abc (found_start ["a"; "b"; "c"])).2)
  = ["Control+A"; "Backspace"; "Backspace"; "Control+A"; "Backspace"; "Backspace"].
Proof.
  destruct (@deleteLines_presses_backspace_twice found_host 1 2 snapshot_abc
              (found_start ["a"; "b"; "c"])) as (calls & Htr & _ & Hres).
  rewrite Htr. exact (proj1 Hres).
Defined.

(** Two lines inserted at index 0: the anchor is entered at its start. *)
Lemma insertLines_types_joined_lines_witness :
  keys_of (trace (@insertLines_page found_host 0 ["x"; "y"] snapshot_abc 0
                    (found_start ["a"; "b"; "c"])).2)
  = ["Home"; "Enter"] ∧
  texts_of (trace (@insertLines_page found_host 0 ["x"; "y"] snapshot_abc 0
                     (found_start ["a"; "b"; "c"])).2)
  = [join_newline ["x"; "y"]].
Proof.
  destruct (@insertLines_types_joined_lines found_host 0 ["x"; "y"] snapshot_abc 0
              (found_start ["a"; "b"; "c"])) as (calls & Htr & _ & _ & Hres).
  rewrite Htr. apply Hres. done.
Defined.

(** An append on the simulated host. *)
Lemma append_opens_navigates_closes_witness :
  trace (@append sim_host plain_query sim_client "page" "text" None
           (sim_start ["a"] true false)).2
  = [NewPage; Goto "https://scrapbox.io/demo/page?body=text"; WaitForTimeout 1500;
     ClosePage].
Proof.
  exact (proj2 (@append_opens_navigates_closes sim_host plain_query sim_client "page" "text"
                  None (sim_start ["a"] true false))).
Defined.

(** * [patch] through the fast path *)

Section PatchFastPath.
Context `{Host}.
Local Open Scope prog_scope.

(** X29.  When the attempt at the fast path answers [true], [patch] goes
    straight to the closing of the page and the verification: the editor is
    not clicked and [applyOps] is not run.  Between the opening of the page
    and its closing the calls are the probe of the bridge, the read of the
    lines, the updates and insertions that the lines read call for and the
    wait for the save; what follows is the closing of the page and, when that
    goes through, the one read of the verification. *)
Theorem patch_fast_path_skips_slow_path this pageTitle diffText opts s
    pageJson s1 first others newText s2 s_open s_fast :
  readJson this pageTitle s = (Ok pageJson, s1) →
  parsePatch diffText = Returned (first :: others) →
  applyPatch (linesToText (extractLines pageJson)) first (default 0%Z (fuzz opts))
  = Returned (Some newText) →
  truthy (dryRun opts) = false →
  when (truthy (checkUpdated opts))
    (recheckUpdated this pageTitle (updated pageJson)) s1 = (Ok tt, s2) →
  buildOps (linesToText (extractLines pageJson)) newText ≠ [] →
  openPage this pageTitle opts s2 = (Ok tt, s_open) →
  tryInternalPatch (splitLines newText) s_open = (Ok true, s_fast) →
  patch this pageTitle diffText opts s = closeAndVerify this pageTitle newText s_fast ∧
  (∃ current,
     trace s_fast
     = trace s_open ++ [ProbeBridge; PageLines]
         ++ internalPatch_calls current (splitLines newText) ++ [WaitForSave]) ∧
  (∃ closing,
     trace (patch this pageTitle diffText opts s).2 = trace s_fast ++ closing ∧
     (closing = [ClosePage] ∨ closing = [ClosePage; HttpGet (apiUrl this pageTitle)])).
Proof.
  intros Hread Hparse Happly Hdry Hcheck Hops Hopen Hfast.
  destruct (readJson_ok _ _ _ _ _ Hread) as (Hctx & _).
  assert (Hpatch : patch this pageTitle diffText opts s
                   = closeAndVerify this pageTitle newText s_fast).
  { rewrite (patch_after_apply _ _ _ _ _ _ _ _ _ _ Hread Hparse Happly), Hdry.
    rewrite (bind_ok _ _ _ _ _ Hcheck).
    rewrite bool_decide_eq_false_2
      by (destruct (buildOps _ newText); [done|simpl; lia]).
    unfold getContext. rewrite Hctx, bind_ret_tt.
    rewrite (bind_ok _ _ _ _ _ Hopen), (bind_ok _ _ _ _ _ Hfast). done. }
  split_and!; [done| |].
  - destruct (tryInternalPatch_run (splitLines newText) s_open)
      as (internal & calls & Hres & Htr & _ & Htrue).
    rewrite Hfast in Hres, Htr. simpl in Hres, Htr. injection Hres as <-.
    destruct (Htrue eq_refl) as (current & ->). by exists current.
  - rewrite Hpatch.
    destruct (closeAndVerify_run this pageTitle newText s_fast Hctx) as (closing & Htr & Hres).
    exists closing. split; [done|].
    destruct (closeAndVerify this pageTitle newText s_fast).1 as [[?|]|[]]; try done; auto.
Qed.

End PatchFastPath.

(** The change of one line on the simulated host that has the bridge: the
    fast path updates the line and the verification passes. *)
Lemma patch_fast_path_skips_slow_path_witness :
  (@patch sim_host sim_client "page" text_axc opts_plain
     (sim_start ["a"; "b"; "c"] true false)).1
  = Ok None.
Proof.
  edestruct (@patch_fast_path_skips_slow_path sim_host sim_client "page" text_axc opts_plain
               (sim_start ["a"; "b"; "c"] true false)) as (Hpatch & _).
  1-5: reflexivity.
  - by vm_compute.
  - reflexivity.
  - reflexivity.
  - rewrite Hpatch. reflexivity.
Defined.
